(** * Rush bulk task scheduler: task collection, project builder, task selector

    A shallow embedding of
    - [apps/rush-lib/src/logic/taskRunner/TaskCollection.ts],
    - [apps/rush-lib/src/logic/taskRunner/ProjectBuilder.ts],
    - [apps/rush-lib/src/logic/TaskSelector.ts],
    followed by the properties of these three classes.

    JavaScript objects are identified by the key under which their owning map
    holds them: a [Task] by its name, a project by its package name.  A
    [Map] or [Set] whose iteration order is observable is an insertion-ordered
    list; a [Set] used only through [has]/[add] is a [gset]; a JSON object
    used as a dictionary is a [gmap]. *)

From Stdlib Require Import ZArith String Ascii List Lia.
From stdpp Require Import base tactics option list relations gmap strings pretty sorting.

#[local] Set Warnings "-clear-no-such-hyp".

Local Open Scope Z_scope.

(** ** Results of running a method *)

(** A JavaScript [Error], of which only the message is observable here, or
    the [TaskError] subclass with its [type]. *)
Inductive Error :=
| mkError (message : string)
| TaskError (type : string) (message : string).

Definition message (e : Error) : string :=
  match e with mkError m => m | TaskError _ m => m end.

(** What a call can do: return, throw, or exhaust the recursion budget given
    to the model ([OutOfFuel] has no counterpart in the source; the theorems
    show that it does not occur once the budget exceeds the number of tasks
    or projects). *)
Inductive Outcome (A : Type) :=
| Returned (a : A)
| Threw (e : Error)
| OutOfFuel.
Arguments Returned {A} a.
Arguments Threw {A} e.
Arguments OutOfFuel {A}.

(** Methods mutate objects and may throw: a method is a function from the
    state before to its outcome and the state after; the mutations made before
    a throw stay in place. *)
Definition M (S A : Type) : Type := S → Outcome A * S.

Definition ret {S A : Type} (a : A) : M S A := fun s => (Returned a, s).

Definition bind {S A B : Type} (m : M S A) (k : A → M S B) : M S B :=
  fun s =>
    match m s with
    | (Returned a, s') => k a s'
    | (Threw e, s') => (Threw e, s')
    | (OutOfFuel, s') => (OutOfFuel, s')
    end.

Definition throw {S A : Type} (e : Error) : M S A := fun s => (Threw e, s).

Definition outOfFuel {S A : Type} : M S A := fun s => (OutOfFuel, s).

Definition modify {S : Type} (f : S → S) : M S unit := fun s => (Returned tt, f s).

Definition read {S A : Type} (f : S → A) : M S A := fun s => (Returned (f s), s).

Notation "'let*' x ':=' m 'in' k" := (bind m (fun x => k))
  (at level 10, x pattern, m at level 100, k at level 200).
Notation "m ';;' k" := (bind m (fun _ => k))
  (at level 100, k at level 200, right associativity).

(** A method that works on a fresh local object [init] of its own. *)
Definition local {S S' A : Type} (init : S') (m : M S' A) : M S (A * S') :=
  fun s =>
    match m init with
    | (Returned a, s') => (Returned (a, s'), s)
    | (Threw e, _) => (Threw e, s)
    | (OutOfFuel, _) => (OutOfFuel, s)
    end.

(** [for (const x of items) body(x)] *)
Fixpoint for_of {S A : Type} (items : list A) (body : A → M S unit) : M S unit :=
  match items with
  | [] => ret tt
  | x :: rest => body x ;; for_of rest body
  end.

(** [items.forEach((x) => results.push(body(x)))] on a fresh [results]. *)
Fixpoint forEach_push {S A B : Type} (items : list A) (body : A → M S B)
    : M S (list B) :=
  match items with
  | [] => ret []
  | x :: rest =>
      let* v := body x in
      let* vs := forEach_push rest body in
      ret (v :: vs)
  end.

(** The line feed used inside messages. *)
Definition LF : string := String (ascii_of_nat 10) EmptyString.

(** [Array.prototype.join]. *)
Definition join (sep : string) (parts : list string) : string :=
  String.concat sep parts.

(** ** TaskStatus and Task *)

(** Modelled from the spec: [TaskStatus.ts] is not among the sources; the
    enumeration is the state list of the task state machine. *)
Inductive TaskStatus :=
| Ready | Executing | Success | SuccessWithWarning
| Skipped | FromCache | Failure | Blocked.

(** Modelled from the spec: [Task.ts] is not among the sources; a task has a
    name (that of its builder), a status, a set of dependency tasks, the
    inverse set of dependent tasks and a memoized critical-path length.  The
    two sets hold task objects of the same collection; they are kept here as
    the names of those tasks, in insertion order. *)
Record Task := mkTask {
  name : string;
  status : TaskStatus;
  dependencies : list string;
  dependents : list string;
  criticalPathLength : option Z
}.

(** [Set.prototype.add] on an insertion-ordered set. *)
Definition set_add (x : string) (s : list string) : list string :=
  if decide (x ∈ s) then s else s ++ [x].

Module TaskCollection.

(** [_tasks : Map<string, Task>], in insertion order; the key of a task is
    its name. *)
Abbreviation t := (list Task).

(** [new TaskCollection()] *)
Definition new : t := [].

(** [this._tasks.get(taskName)] *)
Definition get (c : t) (taskName : string) : option Task :=
  find (fun task => bool_decide (name task = taskName)) c.

(** [this._tasks.has(taskName)] *)
Definition hasTask (c : t) (taskName : string) : bool :=
  match get c taskName with Some _ => true | None => false end.

(** In-place update of the task object registered under [taskName]. *)
Definition update (taskName : string) (f : Task → Task) (c : t) : t :=
  (fun task => if decide (name task = taskName) then f task else task) <$> c.

(** The keys of [_tasks], in iteration order. *)
Definition names (c : t) : list string := name <$> c.

(** The [dependents] set of the task called [taskName]. *)
Definition dependents_of (c : t) (taskName : string) : list string :=
  match get c taskName with Some task => dependents task | None => [] end.

Definition dependencies_of (c : t) (taskName : string) : list string :=
  match get c taskName with Some task => dependencies task | None => [] end.

Definition criticalPathLength_of (c : t) (taskName : string) : option Z :=
  match get c taskName with Some task => criticalPathLength task | None => None end.

(** [addTask(builder)]: the builder matters only through its name. *)
Definition addTask (builderName : string) : M t unit :=
  let* registered := read (fun c => hasTask c builderName) in
  if registered : bool then
    throw (mkError "A task with that name has already been registered.")
  else
    modify (fun c => c ++ [mkTask builderName Ready [] [] None]).

Definition add_dependency (dep : string) (task : Task) : Task :=
  mkTask (name task) (status task) (set_add dep (dependencies task))
         (dependents task) (criticalPathLength task).

Definition add_dependent (dep : string) (task : Task) : Task :=
  mkTask (name task) (status task) (dependencies task)
         (set_add dep (dependents task)) (criticalPathLength task).

(** [addDependencies(taskName, taskDependencies)]; [None] is an undefined
    list.  A throw inside the loop leaves the links made by the earlier
    iterations in place. *)
Definition addDependencies (taskName : string)
    (taskDependencies : option (list string)) : M t unit :=
  let* task := read (fun c => get c taskName) in
  match task, taskDependencies with
  | None, _ =>
      throw (mkError ("The task '" +:+ taskName +:+ "' has not been registered"))
  | Some _, None => throw (mkError "The list of dependencies must be defined")
  | Some _, Some taskDependencies =>
      for_of taskDependencies (fun dependencyName =>
        let* registered := read (fun c => hasTask c dependencyName) in
        if registered : bool then
          modify (update taskName (add_dependency dependencyName)) ;;
          modify (update dependencyName (add_dependent taskName))
        else
          throw (mkError ("The project '" +:+ dependencyName +:+
                          "' has not been registered.")))
  end.

(** The message of the error thrown on a cycle; [chain] is
    [[...dependencyChain, task.name].reverse()]. *)
Definition cyclicDependencyMessage (chain : list string) : string :=
  "A cyclic dependency was encountered:" +:+ LF +:+
  "  " +:+ join (LF +:+ "  -> ") chain +:+ LF +:+
  "Consider using the cyclicDependencyProjects option for rush.json.".

(** [_checkForCyclicDependencies(tasks, dependencyChain, alreadyCheckedProjects)].
    The set is shared and mutated: it is the state.  The array is shared too,
    and the [push]/[pop] pair around the recursive call is the extended chain
    passed down.  [fuel] bounds the depth of the recursion. *)
Fixpoint _checkForCyclicDependencies (fuel : nat) (c : t) (tasks : list string)
    (dependencyChain : list string) {struct fuel} : M (gset string) unit :=
  for_of tasks (fun task =>
    if decide (task ∈ dependencyChain) then
      throw (mkError (cyclicDependencyMessage (rev (dependencyChain ++ [task]))))
    else
      let* checked := read (fun alreadyCheckedProjects =>
                              bool_decide (task ∈ alreadyCheckedProjects)) in
      if checked : bool then ret tt
      else
        match fuel with
        | O => outOfFuel
        | S fuel' =>
            modify (fun alreadyCheckedProjects => {[task]} ∪ alreadyCheckedProjects) ;;
            _checkForCyclicDependencies fuel' c (dependents_of c task)
              (dependencyChain ++ [task])
        end).

(** [Math.max(...values)] for a non-empty argument list; the empty case
    (negative infinity in the source) does not arise at the only call site,
    which is guarded by [task.dependents.size !== 0]. *)
Definition Math_max (values : list Z) : Z :=
  match values with
  | [] => 0
  | v :: rest => foldl Z.max v rest
  end.

Definition set_criticalPathLength (v : Z) (task : Task) : Task :=
  mkTask (name task) (status task) (dependencies task) (dependents task) (Some v).

(** [_calculateCriticalPaths(task)]: the memoized lengths live in the task
    objects, so the collection is the state.  [fuel] bounds the depth of the
    recursion. *)
Fixpoint _calculateCriticalPaths (fuel : nat) (taskName : string) {struct fuel}
    : M t Z :=
  match fuel with
  | O => outOfFuel
  | S fuel' =>
      let* memoized := read (fun c => criticalPathLength_of c taskName) in
      match memoized with
      | Some v => ret v
      | None =>
          let* deps := read (fun c => dependents_of c taskName) in
          match deps with
          | [] =>
              modify (update taskName (set_criticalPathLength 0)) ;;
              ret 0
          | _ =>
              let* depsLengths :=
                forEach_push deps (_calculateCriticalPaths fuel') in
              let v := Math_max depsLengths + 1 in
              modify (update taskName (set_criticalPathLength v)) ;;
              ret v
          end
      end
  end.

(** Modelled from the spec: [Sort.sortBy] belongs to node-core-library, which
    is not among the sources; the spec says of its use only that the queue
    comes out sorted by descending critical-path length.  It is taken as the
    stable sort of the array by the caller's key under [Sort.compareByValue]
    on numbers: an element is placed before the already sorted elements that
    do not have a smaller key. *)
Fixpoint sortBy_insert {T : Type} (keySelector : T → Z) (x : T) (sorted : list T)
    : list T :=
  match sorted with
  | [] => [x]
  | y :: rest =>
      if decide (keySelector x ≤ keySelector y) then x :: y :: rest
      else y :: sortBy_insert keySelector x rest
  end.

Definition sortBy {T : Type} (array : list T) (keySelector : T → Z) : list T :=
  foldr (sortBy_insert keySelector) [] array.

(** The key handed to [Sort.sortBy]: [-task.criticalPathLength!]. *)
Definition sortKey (task : Task) : Z :=
  - default 0 (criticalPathLength task).

(** [getOrderedTasks()] *)
Definition getOrderedTasks (fuel : nat) : M t (list Task) :=
  let* c := read (fun c => c) in
  local ∅ (_checkForCyclicDependencies fuel c (names c) []) ;;
  for_of (names c) (fun taskName =>
    _calculateCriticalPaths fuel taskName ;; ret tt) ;;
  let* buildQueue := read (fun c => c) in
  ret (sortBy buildQueue sortKey).

(** A client's calls that build a collection. *)
Inductive Call :=
| AddTask (builderName : string)
| AddDependencies (taskName : string) (taskDependencies : list string).

Definition call (op : Call) : M t unit :=
  match op with
  | AddTask n => addTask n
  | AddDependencies n deps => addDependencies n (Some deps)
  end.

(** The collection left by a sequence of calls, whether or not some of them
    threw. *)
Definition build (ops : list Call) : t :=
  foldl (fun c op => snd (call op c)) new ops.

End TaskCollection.

Module ProjectBuilder.

(** [IProjectBuildDeps]: the content of the per-project state file. *)
Record IProjectBuildDeps := mkDeps {
  files : gmap string string;
  arguments : string
}.

(** The names of the members of [Object.prototype], which an object made by
    an object literal or read from JSON inherits: [n in object] holds for
    them whatever the object's own properties are, and [object[n]] is then
    the inherited member, which is no string. *)
Definition Object_prototype : list string :=
  ["constructor"; "__defineGetter__"; "__defineSetter__"; "hasOwnProperty";
   "__lookupGetter__"; "__lookupSetter__"; "isPrototypeOf";
   "propertyIsEnumerable"; "toString"; "valueOf"; "__proto__";
   "toLocaleString"]%string.

(** [n in object], for an object given by its own properties. *)
Definition has_in (object : gmap string string) (n : string) : bool :=
  bool_decide (is_Some (object !! n)) || bool_decide (n ∈ Object_prototype).

(** [_areShallowEqual(object1, object2)]: the two [for ... in] loops, which
    run over the own properties, each leaving with [false] at the first
    offending key.  [object1[n] !== object2[n]] compares the string
    [object1[n]] with the own property of [object2] if there is one, and is
    true if there is none. *)
Definition _areShallowEqual (object1 object2 : gmap string string) : bool :=
  if existsb (fun '(n, v) =>
                negb (has_in object2 n)
                || negb (bool_decide (object2 !! n = Some v)))
             (map_to_list object1)
  then false
  else if existsb (fun '(n, _) => negb (has_in object1 n))
                  (map_to_list object2)
  then false
  else true.

(** [TerminalProviderSeverity] *)
Inductive Severity := log | warning | error | verbose.

(** [TerminalChunkKind] *)
Inductive TerminalChunkKind := Stdout | Stderr.

(** Modelled from the spec: [ProjectBuildCache.ts] is not among the sources.
    Of a cache object the builder uses [tryRestoreFromCacheAsync] (restored
    or not) and [trySetCacheEntryAsync] (stored or not); both receive the
    task's terminal, so each comes with the severities of the lines it
    writes there. *)
Record ProjectBuildCache := mkCache {
  tryRestoreFromCacheAsync : bool * list Severity;
  trySetCacheEntryAsync : bool * list Severity
}.

(** What [currentDepsPath] holds: nothing, text that [JsonFile.load] rejects,
    or the state that [JsonFile.load] returns.  The model covers state files
    that have a [files] object and an [arguments] string, and takes a saved
    state to be read back as it was written, which is so when no path is
    named like a member of [Object.prototype]. *)
Inductive DepsFile :=
| Absent
| Unparsable
| Holds (deps : IProjectBuildDeps).

(** The two files the builder touches. *)
Inductive Path := currentDepsPath | legacyDepsPath.

(** The child process started by [Utilities.executeLifecycleCommandAsync]:
    its [data] events in order and the code of its [close] event. *)
Record ChildProcess := mkChild {
  data : list (TerminalChunkKind * string);
  code : Z
}.

(** [IProjectBuilderOptions], as far as the builder's decisions read it. *)
Record IProjectBuilderOptions := mkOptions {
  packageName : string;
  buildCacheConfiguration : bool;
  commandToRun : string;
  isIncrementalBuildAllowed : bool
}.

(** The collaborators of one execution. *)
Record Environment := mkEnvironment {
  (** [packageChangeAnalyzer.getPackageDeps(packageName)]: the entries of
      the returned map, or [None] when the analyzer throws; the model covers
      the analyzers that return a map or throw *)
  getPackageDeps : option (list (string * string));
  (** [RushProjectConfiguration.tryLoadForProjectAsync]: whether the project
      has a build-cache configuration *)
  tryLoadForProjectAsync : bool;
  (** the cache object that [ProjectBuildCache.tryGetProjectBuildCache]
      makes for a project whose tracked files are known *)
  projectBuildCache : option ProjectBuildCache;
  (** the process that the command becomes *)
  childProcess : ChildProcess
}.

(** What an execution does to the outside. *)
Inductive Event :=
| TerminalLine (severity : Severity)
| DeleteFile (path : Path)
| SaveJson (deps : IProjectBuildDeps) (path : Path)
| Spawn (command : string)
| WriteChunk (kind : TerminalChunkKind) (text : string)
| RestoreFromCache
| SetCacheEntry.

(** The mutable state of one builder and its surroundings. *)
Record State := mkState {
  depsFile : DepsFile;
  hasErrors : bool;
  hasWarnings : bool;
  _projectBuildCache : option ProjectBuildCache;
  hadEmptyScript : bool;
  events : list Event
}.

Definition initialState (file : DepsFile) : State :=
  mkState file false false None false [].

Definition emit (e : Event) : M State unit :=
  modify (fun s => mkState (depsFile s) (hasErrors s) (hasWarnings s)
                     (_projectBuildCache s) (hadEmptyScript s) (events s ++ [e])).

(** Modelled from the spec: [Terminal] and [CollatedTerminalProvider] are
    not among the sources.  Of the provider the builder reads [hasErrors] and
    [hasWarnings]: a line of severity [error] sets the first, one of severity
    [warning] the second. *)
Definition terminal_write (severity : Severity) : M State unit :=
  emit (TerminalLine severity) ;;
  modify (fun s =>
    mkState (depsFile s)
      (match severity with error => true | _ => hasErrors s end)
      (match severity with warning => true | _ => hasWarnings s end)
      (_projectBuildCache s) (hadEmptyScript s) (events s)).

(** [FileSystem.deleteFile(path)]: the file is unlinked, and a file that does
    not exist is no error.  The model covers the executions in which the
    unlink does not fail otherwise. *)
Definition deleteFile (path : Path) : M State unit :=
  emit (DeleteFile path) ;;
  modify (fun s =>
    mkState (match path with currentDepsPath => Absent | legacyDepsPath => depsFile s end)
      (hasErrors s) (hasWarnings s) (_projectBuildCache s) (hadEmptyScript s)
      (events s)).

(** [JsonFile.save(deps, currentDepsPath, ...)] and [JsonFile.saveAsync] *)
Definition save (deps : IProjectBuildDeps) : M State unit :=
  emit (SaveJson deps currentDepsPath) ;;
  modify (fun s =>
    mkState (Holds deps) (hasErrors s) (hasWarnings s) (_projectBuildCache s)
      (hadEmptyScript s) (events s)).

Definition set_projectBuildCache (cache : option ProjectBuildCache) : M State unit :=
  modify (fun s =>
    mkState (depsFile s) (hasErrors s) (hasWarnings s) cache (hadEmptyScript s)
      (events s)).

Definition set_hadEmptyScript : M State unit :=
  modify (fun s =>
    mkState (depsFile s) (hasErrors s) (hasWarnings s) (_projectBuildCache s) true
      (events s)).

(** [collatedTerminal.writeChunk({ text, kind })] of the two [data] handlers. *)
Definition writeChunk (chunk : TerminalChunkKind * string) : M State unit :=
  let '(kind, text) := chunk in emit (WriteChunk kind text).

(** Modelled from the spec: [ProjectBuildCache.tryGetProjectBuildCache] is
    not among the sources; a project whose file hashes are unavailable is
    uncacheable, so no cache object is made when [trackedProjectFiles] is
    undefined. *)
Definition tryGetProjectBuildCache (env : Environment)
    (trackedProjectFiles : option (list string)) : option ProjectBuildCache :=
  match trackedProjectFiles with
  | None => None
  | Some _ => projectBuildCache env
  end.

(** [_getProjectBuildCacheAsync(terminal, trackedProjectFiles)] *)
Definition _getProjectBuildCacheAsync (options : IProjectBuilderOptions)
    (env : Environment) (trackedProjectFiles : option (list string))
    : M State (option ProjectBuildCache) :=
  let* cached := read _projectBuildCache in
  (match cached with
   | Some _ => ret tt
   | None =>
       if buildCacheConfiguration options then
         if tryLoadForProjectAsync env then
           set_projectBuildCache (tryGetProjectBuildCache env trackedProjectFiles)
         else terminal_write verbose
       else ret tt
   end) ;;
  read _projectBuildCache.

(** [tryWriteCacheEntryAsync(terminal, trackedFilePaths)]; [None] is the
    [undefined] of the optional call. *)
Definition tryWriteCacheEntryAsync (options : IProjectBuilderOptions)
    (env : Environment) (trackedFilePaths : option (list string))
    : M State (option bool) :=
  let* cache := _getProjectBuildCacheAsync options env trackedFilePaths in
  match cache with
  | None => ret (None : option bool)
  | Some cache =>
      emit SetCacheEntry ;;
      for_of (snd (trySetCacheEntryAsync cache)) terminal_write ;;
      ret (Some (fst (trySetCacheEntryAsync cache)))
  end.

(** The [files] object filled from the analyzer's map by
    [files[filePath] = fileHash].  For the path [__proto__] the assignment
    runs the setter that [Object.prototype] has under this name, which does
    nothing when given a string, so [files] gets no property. *)
Definition files_of (fileHashes : list (string * string)) : gmap string string :=
  foldl (fun files '(filePath, fileHash) =>
           if bool_decide (filePath = "__proto__"%string) then files
           else <[filePath := fileHash]> files)
        ∅ fileHashes.

(** [_executeTaskAsync(context)] *)
Definition _executeTaskAsync (options : IProjectBuilderOptions)
    (env : Environment) : M State TaskStatus :=
  let* file := read depsFile in
  let* lastProjectBuildDeps :=
    match file with
    | Absent => ret (None : option IProjectBuildDeps)
    | Unparsable => terminal_write warning ;; ret None
    | Holds deps => ret (Some deps)
    end in
  let* (projectBuildDeps, trackedFiles) :=
    match getPackageDeps env with
    | Some fileHashes =>
        ret (Some (mkDeps (files_of fileHashes) (commandToRun options)),
             Some (fst <$> fileHashes))
    | None =>
        terminal_write log ;;
        ret (None : option IProjectBuildDeps, None : option (list string))
    end in
  let isPackageUnchanged : bool :=
    match lastProjectBuildDeps, projectBuildDeps with
    | Some last, Some current =>
        bool_decide (arguments current = arguments last)
        && _areShallowEqual (files current) (files last)
    | _, _ => false
    end in
  let* projectBuildCache := _getProjectBuildCacheAsync options env trackedFiles in
  let* restoreFromCacheSuccess :=
    match projectBuildCache with
    | None => ret (None : option bool)
    | Some cache =>
        emit RestoreFromCache ;;
        for_of (snd (tryRestoreFromCacheAsync cache)) terminal_write ;;
        ret (Some (fst (tryRestoreFromCacheAsync cache)))
    end in
  if bool_decide (restoreFromCacheSuccess = Some true) then ret FromCache
  else if isPackageUnchanged && isIncrementalBuildAllowed options then ret Skipped
  else
    deleteFile currentDepsPath ;;
    deleteFile legacyDepsPath ;;
    if bool_decide (commandToRun options = EmptyString) then
      (match projectBuildDeps with
       | Some deps => save deps
       | None => ret tt
       end) ;;
      ret Success
    else
      terminal_write log ;;
      emit (Spawn (commandToRun options)) ;;
      for_of (data (childProcess env)) writeChunk ;;
      let hasWarningOrError : bool :=
        existsb (fun '(kind, _) => match kind with Stderr => true | Stdout => false end)
                (data (childProcess env)) in
      let* status :=
        if bool_decide (code (childProcess env) ≠ 0) then
          throw (TaskError "error"
                   ("Returned error code: " +:+ pretty (code (childProcess env))))
        else if hasWarningOrError then ret SuccessWithWarning
        else ret Success in
      match status, projectBuildDeps with
      | Success, Some deps =>
          save deps ;;
          let* cacheWriteSuccess := tryWriteCacheEntryAsync options env trackedFiles in
          let* errors := read hasErrors in
          let* warnings := read hasWarnings in
          if errors : bool then ret Failure
          else if bool_decide (cacheWriteSuccess = Some false) || warnings
          then ret SuccessWithWarning
          else ret status
      | _, _ => ret status
      end.

(** [executeAsync(context)] *)
Definition executeAsync (options : IProjectBuilderOptions) (env : Environment)
    : M State TaskStatus :=
  fun s =>
    match ((if bool_decide (commandToRun options = EmptyString)
            then set_hadEmptyScript else ret tt) ;;
           _executeTaskAsync options env) s with
    | (Threw e, s') => (Threw (TaskError "executing" (message e)), s')
    | r => r
    end.

End ProjectBuilder.

Module TaskSelector.

(** [RushConfigurationProject], as far as the selector reads it.  The
    entries of [localDependencyProjects] are project objects of the same
    configuration, kept here as their package names. *)
Record RushConfigurationProject := mkProject {
  packageName : string;
  localDependencyProjects : list string;
  (** [packageJson.scripts] *)
  scripts : option (gmap string string)
}.

(** [rushConfiguration.projects] *)
Abbreviation RushConfiguration := (list RushConfigurationProject).

(** [ITaskSelectorConstructor]; the projects of [toProjects] and
    [fromProjects] are given by package name. *)
Record ITaskSelectorConstructor := mkSelector {
  rushConfiguration : RushConfiguration;
  toProjects : list string;
  fromProjects : list string;
  commandToRun : string;
  customParameterValues : list string;
  isQuietMode : bool;
  isIncrementalBuildAllowed : bool;
  ignoreMissingScript : bool;
  ignoreDependencyOrder : bool;
  packageDepsFilename : string
}.

(** The project object behind a package name. *)
Definition project_of (cfg : RushConfiguration) (packageName' : string)
    : option RushConfigurationProject :=
  find (fun project => bool_decide (packageName project = packageName')) cfg.

Definition localDependencyProjects_of (cfg : RushConfiguration) (project : string)
    : list string :=
  match project_of cfg project with
  | Some p => localDependencyProjects p
  | None => []
  end.

Definition packageNames (cfg : RushConfiguration) : list string :=
  packageName <$> cfg.

(** [_collectAllDependencies(project, result)]; the state is the key list of
    the [result] map.  [fuel] bounds the depth of the recursion. *)
Fixpoint _collectAllDependencies (fuel : nat) (cfg : RushConfiguration)
    (project : string) {struct fuel} : M (list string) unit :=
  match fuel with
  | O => outOfFuel
  | S fuel' =>
      let* seen := read (fun result => bool_decide (project ∈ result)) in
      if seen : bool then ret tt
      else
        modify (fun result => result ++ [project]) ;;
        for_of (localDependencyProjects_of cfg project)
          (fun dependencyProject => _collectAllDependencies fuel' cfg dependencyProject)
  end.

(** [_getDependentGraph()] *)
Definition _getDependentGraph (cfg : RushConfiguration) : gmap string (list string) :=
  foldl (fun dependentList project =>
           foldl (fun dependentList dependency =>
                    <[dependency :=
                        set_add (packageName project)
                                (default [] (dependentList !! dependency))]>
                      dependentList)
                 dependentList (localDependencyProjects project))
        ∅ cfg.

(** [_collectAllDependents(dependentList, project, result)] *)
Fixpoint _collectAllDependents (fuel : nat) (dependentList : gmap string (list string))
    (project : string) {struct fuel} : M (list string) unit :=
  match fuel with
  | O => outOfFuel
  | S fuel' =>
      let* seen := read (fun result => bool_decide (project ∈ result)) in
      if seen : bool then ret tt
      else
        modify (fun result => result ++ [project]) ;;
        for_of (default [] (dependentList !! project))
          (fun dependent => _collectAllDependents fuel' dependentList dependent)
  end.

Section Platform.

(** [process.platform === 'win32'], and [convertSlashesForWindows] of
    ProjectBuilder.ts, whose result is only stored in the builder. *)
Variable win32 : bool.
Variable convertSlashesForWindows : string → string.

(** [_getScriptCommand(rushProject, script)] *)
Definition _getScriptCommand (rushProject : RushConfigurationProject)
    (script : string) : option string :=
  match scripts rushProject with
  | None => None
  | Some scripts => scripts !! script
  end.

(** [_getScriptToRun(rushProject)] *)
Definition _getScriptToRun {S : Type} (options : ITaskSelectorConstructor)
    (rushProject : RushConfigurationProject) : M S string :=
  let script := _getScriptCommand rushProject (commandToRun options) in
  match script with
  | None =>
      if ignoreMissingScript options then ret EmptyString
      else
        throw (mkError ("The project [" +:+ packageName rushProject +:+
                        "] does not define a '" +:+ commandToRun options +:+
                        "' command in the 'scripts' section of its package.json"))
  | Some script =>
      if bool_decide (script = EmptyString) then ret EmptyString
      else
        let taskCommand :=
          script +:+ " " +:+ join " " (customParameterValues options) in
        ret (if win32 then convertSlashesForWindows taskCommand else taskCommand)
  end.

(** [_registerTask(project)]: of the builder made for the project the
    collection keeps the name. *)
Definition _registerTask (options : ITaskSelectorConstructor)
    (project : option RushConfigurationProject) : M TaskCollection.t unit :=
  match project with
  | None => ret tt
  | Some project =>
      let* registered :=
        read (fun c => TaskCollection.hasTask c (packageName project)) in
      if registered : bool then ret tt
      else
        let* commandToRun := _getScriptToRun options project in
        TaskCollection.addTask (packageName project)
  end.

(** [_registerToProjects(toProjects)] *)
Definition _registerToProjects (fuel : nat) (options : ITaskSelectorConstructor)
    (toProjects : list string) : M TaskCollection.t unit :=
  let cfg := rushConfiguration options in
  let* (_, dependencies) :=
    local [] (for_of toProjects (_collectAllDependencies fuel cfg)) in
  for_of dependencies (fun dependencyProject =>
    _registerTask options (project_of cfg dependencyProject)) ;;
  if ignoreDependencyOrder options then ret tt
  else
    for_of dependencies (fun dependencyProject =>
      TaskCollection.addDependencies dependencyProject
        (Some (localDependencyProjects_of cfg dependencyProject))).

(** [_registerFromProjects(fromProjects)] *)
Definition _registerFromProjects (fuel : nat) (options : ITaskSelectorConstructor)
    (fromProjects : list string) : M TaskCollection.t unit :=
  let cfg := rushConfiguration options in
  let dependentList := _getDependentGraph cfg in
  let* (_, dependents) :=
    local [] (for_of fromProjects (_collectAllDependents fuel dependentList)) in
  for_of dependents (fun dependentProject =>
    _registerTask options (project_of cfg dependentProject)) ;;
  if ignoreDependencyOrder options then ret tt
  else
    for_of dependents (fun dependentProject =>
      TaskCollection.addDependencies dependentProject
        (Some (filter (fun dep => dep ∈ dependents)
                      (localDependencyProjects_of cfg dependentProject)))).

(** [_registerAll()] *)
Definition _registerAll (options : ITaskSelectorConstructor)
    : M TaskCollection.t unit :=
  let cfg := rushConfiguration options in
  for_of cfg (fun rushProject => _registerTask options (Some rushProject)) ;;
  if ignoreDependencyOrder options then ret tt
  else
    for_of cfg (fun project =>
      TaskCollection.addDependencies (packageName project)
        (Some (localDependencyProjects project))).

(** [registerTasks()], on the selector's own collection. *)
Definition registerTasks (fuel : nat) (options : ITaskSelectorConstructor)
    : M TaskCollection.t unit :=
  (if bool_decide (toProjects options ≠ []) then
     _registerToProjects fuel options (toProjects options)
   else ret tt) ;;
  (if bool_decide (fromProjects options ≠ []) then
     _registerFromProjects fuel options (fromProjects options)
   else ret tt) ;;
  (if bool_decide (toProjects options = []) && bool_decide (fromProjects options = [])
   then _registerAll options
   else ret tt).

End Platform.

End TaskSelector.

(** * Properties *)

(** ** The method monad *)

Section Monad.
Context {S A : Type}.

Lemma for_of_nil (body : A → M S unit) (s : S) :
  for_of [] body s = (Returned tt, s).
Proof. reflexivity. Qed.

Lemma for_of_cons (body : A → M S unit) (x : A) (rest : list A) (s : S) :
  for_of (x :: rest) body s =
  match body x s with
  | (Returned _, s') => for_of rest body s'
  | (Threw e, s') => (Threw e, s')
  | (OutOfFuel, s') => (OutOfFuel, s')
  end.
Proof. reflexivity. Qed.

(** A loop whose body returns on every element of the list runs all the way. *)
Lemma for_of_returns (body : A → M S unit) (items : list A) (s : S) :
  (∀ x s, x ∈ items → fst (body x s) = Returned tt) →
  for_of items body s = (Returned tt, foldl (fun s x => snd (body x s)) s items).
Proof.
  revert s. induction items as [|x rest IH]; intros s Hbody; [reflexivity|].
  rewrite for_of_cons. simpl.
  pose proof (Hbody x s (list_elem_of_here _ _)) as Hx.
  destruct (body x s) as [o s'] eqn:E. simpl in *. subst o.
  apply IH. intros y s0 Hy. apply Hbody. by apply list_elem_of_further.
Qed.

(** A loop over [done ++ x :: rest] whose body returns on [done] and throws on
    [x] throws there, with the state reached after [done]. *)
Lemma for_of_app (body : A → M S unit) (l1 l2 : list A) (s : S) :
  for_of (l1 ++ l2) body s =
  match for_of l1 body s with
  | (Returned _, s') => for_of l2 body s'
  | (Threw e, s') => (Threw e, s')
  | (OutOfFuel, s') => (OutOfFuel, s')
  end.
Proof.
  revert s. induction l1 as [|x l1 IH]; intros s; [reflexivity|].
  simpl app. rewrite !for_of_cons.
  destruct (body x s) as [[[]|e|] s']; try reflexivity. apply IH.
Qed.

(** Invariant rule for loops. *)
Lemma for_of_invariant (I : S → Prop) (body : A → M S unit) (items : list A) (s : S) :
  I s →
  (∀ x s, x ∈ items → I s → I (snd (body x s))) →
  I (snd (for_of items body s)).
Proof.
  revert s. induction items as [|x rest IH]; intros s Hs Hbody; [exact Hs|].
  rewrite for_of_cons.
  pose proof (Hbody x s (list_elem_of_here _ _) Hs) as Hx.
  destruct (body x s) as [[[]|e|] s']; simpl in *; try exact Hx.
  apply IH; [exact Hx|]. intros y s0 Hy. apply Hbody. by apply list_elem_of_further.
Qed.

End Monad.

(** ** Task collections: lookups and updates *)

Module TaskCollectionFacts.
Import TaskCollection.

Lemma get_Some (c : t) (n : string) (task : Task) :
  get c n = Some task → task ∈ c ∧ name task = n.
Proof.
  unfold get. intros H. apply find_some in H as [Hin Hn].
  apply bool_decide_eq_true in Hn. split; [by apply list_elem_of_In|done].
Qed.

Lemma get_None (c : t) (n : string) : get c n = None ↔ n ∉ names c.
Proof.
  unfold get, names. induction c as [|task c IH]; csimpl.
  - split; [intros _; apply not_elem_of_nil|done].
  - rewrite not_elem_of_cons. case_bool_decide as Hn.
    + split; [done|]. intros [Hne _]. congruence.
    + rewrite IH. split; [intros H; split; [congruence|done]|tauto].
Qed.

Lemma hasTask_true (c : t) (n : string) : hasTask c n = true ↔ n ∈ names c.
Proof.
  unfold hasTask. destruct (get c n) eqn:E.
  - split; [|done]. intros _. destruct (decide (n ∈ names c)) as [|Hn]; [done|].
    apply get_None in Hn. congruence.
  - apply get_None in E. split; [done|]. intros; contradiction.
Qed.

Lemma hasTask_false (c : t) (n : string) : hasTask c n = false ↔ n ∉ names c.
Proof.
  rewrite <- hasTask_true. destruct (hasTask c n); split; congruence.
Qed.

Lemma get_is_Some (c : t) (n : string) : is_Some (get c n) ↔ n ∈ names c.
Proof.
  rewrite <- hasTask_true. unfold hasTask. destruct (get c n); split; eauto; try done.
Qed.

Lemma names_update (n : string) (f : Task → Task) (c : t) :
  (∀ task, name (f task) = name task) → names (update n f c) = names c.
Proof.
  intros Hf. unfold names, update. rewrite <- list_fmap_compose.
  apply list_fmap_ext. intros i task _. simpl. destruct (decide _); [apply Hf|done].
Qed.

Lemma get_update (n m : string) (f : Task → Task) (c : t) :
  (∀ task, name (f task) = name task) →
  get (update n f c) m = if decide (m = n) then f <$> get c m else get c m.
Proof.
  intros Hf. unfold get, update. induction c as [|task c IH]; csimpl.
  - by destruct (decide _).
  - destruct (decide (name task = n)) as [Hn|Hn].
    + rewrite Hf. case_bool_decide as Hm.
      * destruct (decide (m = n)); [done|congruence].
      * rewrite IH. done.
    + case_bool_decide as Hm.
      * destruct (decide (m = n)); [congruence|done].
      * rewrite IH. done.
Qed.

Lemma elem_of_set_add (x y : string) (s : list string) :
  x ∈ set_add y s ↔ x = y ∨ x ∈ s.
Proof.
  unfold set_add. destruct (decide (y ∈ s)).
  - split; [tauto|]. intros [->|]; done.
  - rewrite elem_of_app, list_elem_of_singleton. tauto.
Qed.

Lemma NoDup_set_add (y : string) (s : list string) : NoDup s → NoDup (set_add y s).
Proof.
  intros Hs. unfold set_add. destruct (decide (y ∈ s)); [done|].
  apply NoDup_app. split_and!; [done| |apply NoDup_singleton].
  intros x Hx ->%list_elem_of_singleton. done.
Qed.

(** One iteration of the loop of [addDependencies]. *)
Definition link (taskName dependencyName : string) (c : t) : t :=
  update dependencyName (add_dependent taskName)
    (update taskName (add_dependency dependencyName) c).

Lemma names_link (n d : string) (c : t) : names (link n d c) = names c.
Proof. unfold link. by rewrite !names_update. Qed.

Lemma elem_of_dependencies_link (n d m x : string) (c : t) :
  x ∈ dependencies_of (link n d c) m ↔
  x ∈ dependencies_of c m ∨ (m = n ∧ x = d ∧ m ∈ names c).
Proof.
  unfold dependencies_of, link. rewrite !get_update by done.
  destruct (decide (m = n)) as [->|Hmn];
    destruct (decide (_ = d)) as [Hd|Hd]; try subst d;
    destruct (get c _) as [task|] eqn:E; simpl;
    rewrite ?elem_of_set_add;
    try (assert (is_Some (get c n)) as Hs%get_is_Some by eauto);
    try (apply get_None in E); split; intros H; try tauto;
    try (destruct H as [H|(?&?&?)]; try done; by left).
  all: destruct H as [H|(?&?&?)]; [by apply elem_of_nil in H|done].
Qed.

Lemma elem_of_dependents_link (n d m x : string) (c : t) :
  x ∈ dependents_of (link n d c) m ↔
  x ∈ dependents_of c m ∨ (m = d ∧ x = n ∧ m ∈ names c).
Proof.
  unfold dependents_of, link. rewrite !get_update by done.
  destruct (decide (m = d)) as [->|Hmd];
    destruct (decide (_ = n)) as [Hn|Hn]; try subst n;
    destruct (get c _) as [task|] eqn:E; simpl;
    rewrite ?elem_of_set_add;
    try (assert (is_Some (get c d)) as Hs%get_is_Some by eauto);
    try (apply get_None in E); split; intros H; try tauto;
    try (destruct H as [H|(?&?&?)]; try done; by left).
  all: destruct H as [H|(?&?&?)]; [by apply elem_of_nil in H|done].
Qed.

Lemma criticalPathLength_of_link (n d m : string) (c : t) :
  criticalPathLength_of (link n d c) m = criticalPathLength_of c m.
Proof.
  unfold criticalPathLength_of, link. rewrite !get_update by done.
  repeat destruct (decide _); destruct (get c m); done.
Qed.

Definition addDependencies_body (taskName dependencyName : string) : M t unit :=
  let* registered := read (fun c => hasTask c dependencyName) in
  if registered : bool then
    modify (update taskName (add_dependency dependencyName)) ;;
    modify (update dependencyName (add_dependent taskName))
  else
    throw (mkError ("The project '" +:+ dependencyName +:+
                    "' has not been registered.")).

Lemma addDependencies_body_registered (n d : string) (c : t) :
  hasTask c d = true → addDependencies_body n d c = (Returned tt, link n d c).
Proof. intros H. unfold addDependencies_body, bind, read. by rewrite H. Qed.

Lemma addDependencies_body_unregistered (n d : string) (c : t) :
  hasTask c d = false →
  addDependencies_body n d c =
  (Threw (mkError ("The project '" +:+ d +:+ "' has not been registered.")), c).
Proof. intros H. unfold addDependencies_body, bind, read. by rewrite H. Qed.

Lemma addDependencies_registered (n : string) (deps : list string) (c : t) :
  hasTask c n = true →
  addDependencies n (Some deps) c = for_of deps (addDependencies_body n) c.
Proof.
  intros H. unfold addDependencies, bind, read. unfold hasTask in H.
  by destruct (get c n).
Qed.

(** The loop over registered names returns, keeps the names and the links
    already present, and links every name of the list. *)
Lemma addDependencies_loop_registered (n : string) (deps : list string) (c : t) :
  n ∈ names c →
  (∀ d, d ∈ deps → d ∈ names c) →
  ∃ c', for_of deps (addDependencies_body n) c = (Returned tt, c')
    ∧ names c' = names c
    ∧ (∀ m x, x ∈ dependencies_of c' m ↔
              x ∈ dependencies_of c m ∨ (m = n ∧ x ∈ deps))
    ∧ (∀ m x, x ∈ dependents_of c' m ↔
              x ∈ dependents_of c m ∨ (m ∈ deps ∧ x = n))
    ∧ (∀ m, criticalPathLength_of c' m = criticalPathLength_of c m).
Proof.
  revert c. induction deps as [|d deps IH]; intros c Hn Hdeps.
  - exists c. split_and!; try done.
    + intros m x. rewrite elem_of_nil. tauto.
    + intros m x. rewrite elem_of_nil. tauto.
  - rewrite for_of_cons, addDependencies_body_registered
      by (apply hasTask_true, Hdeps, list_elem_of_here).
    destruct (IH (link n d c)) as (c' & Hrun & Hnames & Hdeps' & Hdepts' & Hcpl).
    { by rewrite names_link. }
    { intros d' Hd'. rewrite names_link. apply Hdeps. by apply list_elem_of_further. }
    exists c'. split_and!; [done|by rewrite Hnames, names_link| | |].
    + intros m x. rewrite Hdeps', elem_of_dependencies_link, elem_of_cons.
      naive_solver.
    + intros m x. rewrite Hdepts', elem_of_dependents_link, elem_of_cons.
      pose proof (Hdeps d (list_elem_of_here _ _)). naive_solver.
    + intros m. by rewrite Hcpl, criticalPathLength_of_link.
Qed.

(** C10: [addDependencies] is not atomic on failure.  When the list holds
    registered names followed by an unregistered one, the call throws for
    that name, the collection is left as the call on the registered prefix
    alone leaves it, and every name of the prefix is linked in both
    directions in the collection after the throw; [addTask] on a registered
    name throws and leaves the collection as it was. *)
Theorem addDependencies_not_atomic
    (c : t) (taskName : string)
    (linked : list string) (missing : string) (rest : list string) :
  hasTask c taskName = true →
  (∀ d, d ∈ linked → hasTask c d = true) →
  hasTask c missing = false →
  let after := addDependencies taskName
                 (Some (linked ++ missing :: rest)) c in
  fst after = Threw (mkError ("The project '" +:+ missing +:+
                              "' has not been registered."))
  ∧ addDependencies taskName (Some linked) c = (Returned tt, snd after)
  ∧ (∀ d, d ∈ linked →
       d ∈ dependencies_of (snd after) taskName
       ∧ taskName ∈ dependents_of (snd after) d)
  ∧ (∀ builderName, hasTask c builderName = true →
       addTask builderName c =
       (Threw (mkError "A task with that name has already been registered."), c)).
Proof.
  intros Htask Hlinked Hmissing after. subst after.
  rewrite !addDependencies_registered by done.
  destruct (addDependencies_loop_registered taskName linked c)
    as (c' & Hrun & Hnames & Hdeps & Hdepts & _).
  { by apply hasTask_true. }
  { intros d Hd. by apply hasTask_true, Hlinked. }
  rewrite for_of_app, Hrun, for_of_cons.
  rewrite addDependencies_body_unregistered
    by (apply hasTask_false; rewrite Hnames;
        by apply hasTask_false).
  simpl. split_and!; try done.
  - intros d Hd. split; [apply Hdeps|apply Hdepts]; by right.
  - intros b Hb. unfold addTask, bind, read. by rewrite Hb.
Qed.

Lemma addDependencies_not_atomic_witness :
  let c := build [AddTask "A"; AddTask "B"; AddTask "C"] in
  let after := addDependencies "A" (Some ["B"; "Z"; "C"]%string) c in
  hasTask c "A" = true
  ∧ hasTask c "Z" = false
  ∧ fst after = Threw (mkError "The project 'Z' has not been registered.")
  ∧ addDependencies "A" (Some ["B"%string]) c = (Returned tt, snd after)
  ∧ (∀ d, d ∈ ["B"%string] →
       d ∈ dependencies_of (snd after) "A" ∧ "A"%string ∈ dependents_of (snd after) d)
  ∧ (∀ builderName, hasTask c builderName = true →
       addTask builderName c =
       (Threw (mkError "A task with that name has already been registered."), c)).
Proof.
  intros c after. split; [reflexivity|]. split; [reflexivity|].
  apply (addDependencies_not_atomic c "A" ["B"%string] "Z" ["C"%string]).
  - reflexivity.
  - intros d ->%list_elem_of_singleton. reflexivity.
  - reflexivity.
Defined.

End TaskCollectionFacts.

(** ** Cycle check, critical paths and order *)

Module TaskOrderFacts.
Import TaskCollection TaskCollectionFacts.

(** [a] depends on [b]. *)
Definition dependsOn (c : t) (a b : string) : Prop := b ∈ dependencies_of c a.

(** [d] is a dependent of [x]. *)
Definition dependent (c : t) (x d : string) : Prop := d ∈ dependents_of c x.

(** The dependency graph has a cycle. *)
Definition cyclic (c : t) : Prop := ∃ n, tc (dependsOn c) n n.

(** What [addTask] and [addDependencies] maintain. *)
Record wf (c : t) : Prop := mk_wf {
  wf_names : NoDup (names c);
  wf_dependents : ∀ n d, d ∈ dependents_of c n → d ∈ names c;
  wf_inverse : ∀ a b, b ∈ dependencies_of c a ↔ a ∈ dependents_of c b;
  wf_fresh : ∀ n, criticalPathLength_of c n = None
}.

Lemma get_app (c : t) (task : Task) (m : string) :
  get (c ++ [task]) m =
  match get c m with
  | Some found => Some found
  | None => if decide (name task = m) then Some task else None
  end.
Proof.
  unfold get. induction c as [|x c IH]; simpl.
  - case_bool_decide; by destruct (decide _).
  - by case_bool_decide.
Qed.

Lemma dependents_of_registered (c : t) (n d : string) :
  d ∈ dependents_of c n → n ∈ names c.
Proof.
  unfold dependents_of. destruct (get c n) eqn:E.
  - intros _. apply get_is_Some. eauto.
  - by intros ?%elem_of_nil.
Qed.

Lemma wf_new : wf new.
Proof.
  split; try done.
  - apply NoDup_nil_2.
  - intros a b. unfold dependencies_of, dependents_of. simpl.
    by rewrite !elem_of_nil.
Qed.

Lemma wf_addTask (n : string) (c : t) : wf c → wf (snd (addTask n c)).
Proof.
  intros [Hnames Hdeps Hinv Hfresh]. unfold addTask, bind, read, modify.
  destruct (hasTask c n) eqn:Hhas; simpl; [done|].
  apply hasTask_false in Hhas.
  assert (∀ m, get (c ++ [mkTask n Ready [] [] None]) m = get c m
               ∨ (get c m = None ∧ m = n
                  ∧ get (c ++ [mkTask n Ready [] [] None]) m
                    = Some (mkTask n Ready [] [] None))) as Hget.
  { intros m. rewrite get_app. destruct (get c m); [by left|]. simpl.
    destruct (decide (n = m)) as [->|]; [right|left]; done. }
  split.
  - unfold names. rewrite fmap_app. apply NoDup_app. split_and!; try done.
    + intros x Hx ->%list_elem_of_singleton. done.
    + apply NoDup_singleton.
  - intros m d. unfold dependents_of, names. rewrite fmap_app, elem_of_app.
    destruct (Hget m) as [->|(_ & _ & ->)]; simpl.
    + intros H. left. by eapply Hdeps.
    + by intros ?%elem_of_nil.
  - intros a b. unfold dependencies_of, dependents_of.
    destruct (Hget a) as [->|(Ha & _ & ->)], (Hget b) as [->|(Hb & _ & ->)]; simpl.
    + apply Hinv.
    + split; [|by intros ?%elem_of_nil]. intros H. exfalso.
      apply Hinv, dependents_of_registered, get_is_Some in H. rewrite Hb in H.
      by destruct H.
    + split; [by intros ?%elem_of_nil|]. intros H. exfalso.
      apply Hinv in H. unfold dependencies_of in H. rewrite Ha in H.
      by apply elem_of_nil in H.
    + by rewrite !elem_of_nil.
  - intros m. unfold criticalPathLength_of.
    destruct (Hget m) as [->|(_ & _ & ->)]; [apply Hfresh|done].
Qed.

Lemma wf_link (n d : string) (c : t) :
  n ∈ names c → d ∈ names c → wf c → wf (link n d c).
Proof.
  intros Hn Hd [Hnames Hdeps Hinv Hfresh]. split.
  - by rewrite names_link.
  - intros m x. rewrite names_link, elem_of_dependents_link.
    intros [?|(-> & -> & _)]; [by eapply Hdeps|done].
  - intros a b. rewrite elem_of_dependencies_link, elem_of_dependents_link, Hinv.
    naive_solver.
  - intros m. by rewrite criticalPathLength_of_link.
Qed.

Lemma wf_addDependencies (n : string) (deps : list string) (c : t) :
  wf c → wf (snd (addDependencies n (Some deps) c)).
Proof.
  intros Hwf. destruct (hasTask c n) eqn:Hhas.
  - rewrite addDependencies_registered by done. apply hasTask_true in Hhas.
    refine (proj1 (for_of_invariant (fun c' => wf c' ∧ n ∈ names c') _ _ _
                     (conj Hwf Hhas) _)).
    intros d c' _ [Hwf' Hn]. destruct (hasTask c' d) eqn:Hd.
    + rewrite addDependencies_body_registered by done. simpl.
      apply hasTask_true in Hd. split; [by apply wf_link|by rewrite names_link].
    + by rewrite addDependencies_body_unregistered.
  - unfold addDependencies, bind, read. unfold hasTask in Hhas.
    by destruct (get c n).
Qed.

Lemma wf_build (ops : list Call) : wf (build ops).
Proof.
  unfold build. generalize new, wf_new. induction ops as [|op ops IH]; intros c Hc.
  - done.
  - simpl. apply IH. destruct op; [by apply wf_addTask|by apply wf_addDependencies].
Qed.

(** *** The cycle check *)

(** Consecutive elements of the list are related. *)
Fixpoint path (R : relation string) (l : list string) : Prop :=
  match l with
  | x :: l' => match l' with y :: _ => R x y | [] => True end ∧ path R l'
  | [] => True
  end.

Lemma path_impl (R R' : relation string) (l : list string) :
  (∀ x y, R x y → R' x y) → path R l → path R' l.
Proof.
  intros HR. induction l as [|x [|y l] IH]; simpl; try done.
  intros [? ?]. split; [by apply HR|by apply IH].
Qed.

Lemma path_prefix (R : relation string) (l1 l2 : list string) :
  path R (l1 ++ l2) → path R l1.
Proof.
  induction l1 as [|x l1 IH]; simpl; [done|]. intros [H1 H2].
  split; [by destruct l1|by apply IH].
Qed.

(** A path from [x] back to [x] is a cycle through [x]. *)
Lemma path_tc (R : relation string) (x y : string) (l : list string) :
  path R (x :: l ++ [y]) → tc R x y.
Proof.
  revert x. induction l as [|z l IH]; intros x; simpl.
  - intros [? _]. by apply tc_once.
  - intros [? ?]. eapply tc_l; [done|]. by apply IH.
Qed.

Lemma tc_flip (R : relation string) (x y : string) : tc (flip R) x y → tc R y x.
Proof.
  induction 1 as [x y H|x y z H _ IH]; [by apply tc_once|].
  eapply tc_r; done.
Qed.

Lemma tc_impl (R R' : relation string) (x y : string) :
  (∀ a b, R a b → R' a b) → tc R x y → tc R' x y.
Proof.
  intros HR. induction 1 as [x y H|x y z H _ IH]; [by apply tc_once, HR|].
  eapply tc_l; [by apply HR|done].
Qed.

(** The body of the loop of the check. *)
Definition check_body (fuel : nat) (c : t) (dependencyChain : list string)
    (task : string) : M (gset string) unit :=
  if decide (task ∈ dependencyChain) then
    throw (mkError (cyclicDependencyMessage (rev (dependencyChain ++ [task]))))
  else
    let* checked := read (fun alreadyCheckedProjects =>
                            bool_decide (task ∈ alreadyCheckedProjects)) in
    if checked : bool then ret tt
    else
      match fuel with
      | O => outOfFuel
      | S fuel' =>
          modify (fun alreadyCheckedProjects => {[task]} ∪ alreadyCheckedProjects) ;;
          _checkForCyclicDependencies fuel' c (dependents_of c task)
            (dependencyChain ++ [task])
      end.

Lemma check_unfold (fuel : nat) (c : t) (tasks chain : list string) :
  _checkForCyclicDependencies fuel c tasks chain = for_of tasks (check_body fuel c chain).
Proof. destruct fuel; reflexivity. Qed.

(** The tasks whose dependents have all been explored: a set closed under
    dependents, none of whose members lies on a cycle. *)
Definition finished (c : t) (F : gset string) : Prop :=
  (∀ x d, x ∈ F → d ∈ dependents_of c x → d ∈ F)
  ∧ (∀ x, x ∈ F → ¬ tc (dependent c) x x).

Lemma finished_rtc (c : t) (F : gset string) (x y : string) :
  finished c F → x ∈ F → rtc (dependent c) x y → y ∈ F.
Proof.
  intros [Hclosed _] Hx Hrtc. induction Hrtc as [|x y z Hxy _ IH]; [done|].
  apply IH. by eapply Hclosed.
Qed.

Lemma tc_first (R : relation string) (x z : string) :
  tc R x z → ∃ y, R x y ∧ rtc R y z.
Proof.
  destruct 1 as [x z H|x y z H Htc]; [exists z|exists y]; split; try done.
  by apply tc_rtc.
Qed.

(** Leaving a task whose dependents are all finished finishes it. *)
Lemma finished_add (c : t) (F : gset string) (task : string) :
  finished c F → task ∉ F →
  (∀ d, d ∈ dependents_of c task → d ∈ F) →
  finished c ({[task]} ∪ F).
Proof.
  intros HF Hnot Hdeps. split.
  - intros x d [->%elem_of_singleton|Hx]%elem_of_union Hd.
    + apply elem_of_union_r. by apply Hdeps.
    + apply elem_of_union_r. by eapply (proj1 HF).
  - intros x [->%elem_of_singleton|Hx]%elem_of_union Hcycle.
    + apply tc_first in Hcycle as (d & Hd & Hrtc).
      apply Hnot. eapply finished_rtc; [done| |done]. by apply Hdeps.
    + by eapply (proj2 HF).
Qed.

Lemma finished_proper (c : t) (F F' : gset string) :
  F ≡ F' → finished c F → finished c F'.
Proof. intros ->%leibniz_equiv. done. Qed.

(** What the check has established when it returns, and what it reports when
    it throws.  [R x y] says that [x] is a dependent of [y]. *)
Lemma check_correct (c : t) (fuel : nat) :
  ∀ (tasks chain : list string) (checked : gset string),
    list_to_set chain ⊆ checked →
    (∀ task, task ∈ tasks → path (flip (dependent c)) (task :: rev chain)) →
    finished c (checked ∖ list_to_set chain) →
    match _checkForCyclicDependencies fuel c tasks chain checked with
    | (Returned _, checked') =>
        checked ⊆ checked'
        ∧ (∀ task, task ∈ tasks → task ∈ checked' ∧ task ∉ chain)
        ∧ finished c (checked' ∖ list_to_set chain)
    | (Threw e, _) =>
        ∃ task chain',
          e = mkError (cyclicDependencyMessage (task :: rev chain'))
          ∧ path (flip (dependent c)) (task :: rev chain')
          ∧ task ∈ chain'
    | (OutOfFuel, _) => True
    end.
Proof.
  induction fuel as [|fuel IHfuel]; intros tasks chain; rewrite check_unfold;
    induction tasks as [|task rest IH]; intros checked Hchain Hpath Hfin.
  1,3: by (simpl; split_and!; [done|intros ? ?%elem_of_nil|done]).
  - rewrite for_of_cons. unfold check_body at 1, bind, read, ret, throw, outOfFuel.
    destruct (decide (task ∈ chain)) as [Hin|Hnin]; cbv beta iota.
    { exists task, chain. rewrite rev_app_distr.
      split; [done|]. split; [|done]. apply Hpath, list_elem_of_here. }
    case_bool_decide as Hchecked; cbv beta iota; [|done].
    specialize (IH checked Hchain).
    destruct (for_of rest _ checked) as [[[]|e|] checked']; try done.
    + destruct IH as (Hsub & Htasks & Hfin'); try done.
      { intros ? ?. apply Hpath. by apply list_elem_of_further. }
      split_and!; try done. intros x [->|Hx]%elem_of_cons; [|by apply Htasks].
      split; [by apply Hsub|done].
    + apply IH; try done. intros ? ?. apply Hpath. by apply list_elem_of_further.
  - rewrite for_of_cons. unfold check_body at 1, bind, read, ret, throw, modify.
    destruct (decide (task ∈ chain)) as [Hin|Hnin]; cbv beta iota.
    { exists task, chain. rewrite rev_app_distr.
      split; [done|]. split; [|done]. apply Hpath, list_elem_of_here. }
    assert (∀ x, x ∈ rest → path (flip (dependent c)) (x :: rev chain)) as Hrest.
    { intros ? ?. apply Hpath. by apply list_elem_of_further. }
    case_bool_decide as Hchecked; cbv beta iota.
    + specialize (IH checked Hchain Hrest Hfin).
      destruct (for_of rest _ checked) as [[[]|e|] checked']; try done.
      destruct IH as (Hsub & Htasks & Hfin').
      split_and!; try done. intros x [->|Hx]%elem_of_cons; [|by apply Htasks].
      split; [by apply Hsub|done].
    + specialize (IHfuel (dependents_of c task) (chain ++ [task]) ({[task]} ∪ checked)).
      destruct (_checkForCyclicDependencies fuel c _ _ _) as [[[]|e|] checked'];
        try done.
      * destruct IHfuel as (Hsub & Hdeps & Hfin').
        { rewrite list_to_set_app_L. set_solver. }
        { intros d Hd. rewrite rev_app_distr. simpl. split; [done|].
          apply Hpath, list_elem_of_here. }
        { eapply finished_proper; [|exact Hfin].
          rewrite list_to_set_app_L. set_solver. }
        assert (list_to_set chain ⊆ checked') as Hchain' by set_solver.
        assert (finished c (checked' ∖ list_to_set chain)) as Hpop.
        { eapply (finished_proper _ ({[task]} ∪ checked' ∖ list_to_set (chain ++ [task]))).
          - rewrite list_to_set_app_L. intros x. set_unfold.
            destruct (decide (x = task)) as [->|]; naive_solver.
          - apply finished_add; [done|set_solver|].
            intros d Hd. destruct (Hdeps d Hd) as [? ?].
            apply elem_of_difference. split; [done|].
            by rewrite elem_of_list_to_set. }
        specialize (IH checked' Hchain' Hrest Hpop).
        destruct (for_of rest _ checked') as [[[]|e|] checked'']; try done.
        destruct IH as (Hsub' & Htasks & Hfin'').
        split_and!; [set_solver| |done].
        intros x [->|Hx]%elem_of_cons; [|by apply Htasks].
        split; [set_solver|done].
      * apply IHfuel.
        { rewrite list_to_set_app_L. set_solver. }
        { intros d Hd. rewrite rev_app_distr. simpl. split; [done|].
          apply Hpath, list_elem_of_here. }
        { eapply finished_proper; [|exact Hfin].
          rewrite list_to_set_app_L. set_solver. }
Qed.

(** With more fuel than unchecked tasks the check does not run out of it. *)
Lemma check_fuel (c : t) (fuel : nat) :
  ∀ (tasks chain : list string) (checked : gset string),
    (∀ n d, d ∈ dependents_of c n → d ∈ names c) →
    (∀ task, task ∈ tasks → task ∈ names c) →
    (size (list_to_set (names c) ∖ checked : gset string) < fuel)%nat →
    match _checkForCyclicDependencies fuel c tasks chain checked with
    | (Returned _, checked') => checked ⊆ checked'
    | (Threw _, _) => True
    | (OutOfFuel, _) => False
    end.
Proof.
  induction fuel as [|fuel IHfuel]; intros tasks chain checked Hclosed; [lia|].
  rewrite check_unfold. revert checked.
  induction tasks as [|task rest IH]; intros checked Htasks Hsize; [by simpl|].
  rewrite for_of_cons. unfold check_body at 1, bind, read, ret, throw, modify.
  destruct (decide (task ∈ chain)) as [Hin|Hnin]; cbv beta iota; [done|].
  assert (∀ x, x ∈ rest → x ∈ names c) as Hrest.
  { intros ? ?. by apply Htasks, list_elem_of_further. }
  case_bool_decide as Hchecked; cbv beta iota; [by apply IH|].
  specialize (IHfuel (dependents_of c task) (chain ++ [task]) ({[task]} ∪ checked)
                Hclosed (Hclosed task)).
  destruct (_checkForCyclicDependencies fuel c _ _ _) as [[[]|e|] checked'];
    try done.
  - assert ({[task]} ∪ checked ⊆ checked') as Hsub.
    { apply IHfuel.
      assert ((list_to_set (names c) ∖ ({[task]} ∪ checked) : gset string)
              ⊂ list_to_set (names c) ∖ checked) as Hlt%subset_size; [|lia].
      pose proof (Htasks task (list_elem_of_here _ _)). set_solver. }
    specialize (IH checked' Hrest).
    destruct (for_of rest _ checked') as [[[]|e|] checked'']; try done.
    + etrans; [|apply IH]; [set_solver|].
      eapply Nat.le_lt_trans; [|exact Hsize]. apply subseteq_size. set_solver.
    + apply IH.
      eapply Nat.le_lt_trans; [|exact Hsize]. apply subseteq_size. set_solver.
  - apply IHfuel.
    assert ((list_to_set (names c) ∖ ({[task]} ∪ checked) : gset string)
            ⊂ list_to_set (names c) ∖ checked) as Hlt%subset_size; [|lia].
    pose proof (Htasks task (list_elem_of_here _ _)). set_solver.
Qed.

(** The chain named by the error: it starts at a task, each entry depends
    on the next, and the first task occurs again further on. *)
Definition names_cycle (c : t) (chain : list string) : Prop :=
  path (dependsOn c) chain
  ∧ ∃ task between rest, chain = task :: between ++ task :: rest.

Lemma cyclic_dependent (c : t) :
  wf c → cyclic c ↔ ∃ n, n ∈ names c ∧ tc (dependent c) n n.
Proof.
  intros Hwf. split.
  - intros [n Hn]. exists n.
    assert (tc (dependent c) n n) as Htc.
    { apply tc_flip. eapply tc_impl; [|exact Hn].
      intros a b Hab. by apply (wf_inverse c Hwf). }
    split; [|done]. apply tc_first in Htc as (d & Hd & _).
    by eapply dependents_of_registered.
  - intros (n & _ & Hn). exists n. apply tc_flip. eapply tc_impl; [|exact Hn].
    intros a b Hab. by apply (wf_inverse c Hwf).
Qed.

Lemma names_cycle_cyclic (c : t) (chain : list string) :
  names_cycle c chain → cyclic c.
Proof.
  intros (Hpath & task & between & rest & ->). exists task.
  apply (path_tc _ _ _ between).
  apply (path_prefix _ (task :: between ++ [task]) rest).
  replace ((task :: between ++ [task]) ++ rest)
    with (task :: between ++ task :: rest); [done|].
  change (task :: between ++ [task] ++ rest = (task :: between ++ [task]) ++ rest).
  by rewrite app_comm_cons, app_assoc.
Qed.

(** The check as [getOrderedTasks] starts it. *)
Lemma check_top (c : t) (fuel : nat) :
  wf c →
  match _checkForCyclicDependencies fuel c (names c) [] ∅ with
  | (Returned _, _) => ¬ cyclic c
  | (Threw e, _) =>
      ∃ chain, e = mkError (cyclicDependencyMessage chain) ∧ names_cycle c chain
  | (OutOfFuel, _) => (fuel ≤ length c)%nat
  end.
Proof.
  intros Hwf.
  pose proof (check_correct c fuel (names c) [] ∅) as Hcorrect.
  pose proof (check_fuel c fuel (names c) [] ∅ (wf_dependents c Hwf)) as Hfuel.
  destruct (_checkForCyclicDependencies fuel c (names c) [] ∅) as [[[]|e|] checked].
  - destruct Hcorrect as (_ & Hall & Hfin); [set_solver|done|..].
    { split; set_solver. }
    intros (n & Hn & Htc)%cyclic_dependent; [|done].
    eapply (proj2 Hfin); [|exact Htc]. specialize (Hall n Hn). set_solver.
  - destruct Hcorrect as (task & chain' & -> & Hpath & Hin); [set_solver|done|..].
    { split; set_solver. }
    exists (task :: rev chain'). split; [done|]. split.
    + eapply path_impl; [|exact Hpath]. intros a b Hab. by apply (wf_inverse c Hwf).
    + apply list_elem_of_In, in_rev in Hin.
      apply list_elem_of_In, list_elem_of_split in Hin as (l1 & l2 & ->). eauto.
  - destruct (decide (fuel ≤ length c)%nat); [done|]. exfalso. apply Hfuel; [done|].
    eapply Nat.le_lt_trans; [apply subseteq_size|].
    { apply (difference_mono_l _ _ ∅), empty_subseteq. }
    rewrite difference_empty_L.
    rewrite size_list_to_set by apply (wf_names c Hwf).
    unfold names. rewrite length_fmap. lia.
Qed.

(** *** Critical-path lengths *)

Lemma names_set_criticalPathLength (n : string) (v : Z) (c : t) :
  names (update n (set_criticalPathLength v) c) = names c.
Proof. by apply names_update. Qed.

Lemma dependents_of_set_criticalPathLength (n m : string) (v : Z) (c : t) :
  dependents_of (update n (set_criticalPathLength v) c) m = dependents_of c m.
Proof.
  unfold dependents_of. rewrite get_update by done.
  destruct (decide (m = n)), (get c m); done.
Qed.

Lemma dependencies_of_set_criticalPathLength (n m : string) (v : Z) (c : t) :
  dependencies_of (update n (set_criticalPathLength v) c) m = dependencies_of c m.
Proof.
  unfold dependencies_of. rewrite get_update by done.
  destruct (decide (m = n)), (get c m); done.
Qed.

Lemma criticalPathLength_of_set (n m : string) (v : Z) (c : t) :
  n ∈ names c →
  criticalPathLength_of (update n (set_criticalPathLength v) c) m =
  if decide (m = n) then Some v else criticalPathLength_of c m.
Proof.
  intros Hn%get_is_Some. unfold criticalPathLength_of. rewrite get_update by done.
  destruct (decide (m = n)) as [->|]; [|done]. by destruct Hn as [task ->].
Qed.

Lemma calculate_S (fuel : nat) (n : string) (c : t) :
  _calculateCriticalPaths (S fuel) n c =
  match criticalPathLength_of c n with
  | Some v => (Returned v, c)
  | None =>
      match dependents_of c n with
      | [] => (Returned 0, update n (set_criticalPathLength 0) c)
      | deps =>
          match forEach_push deps (_calculateCriticalPaths fuel) c with
          | (Returned lens, c') =>
              (Returned (Math_max lens + 1),
               update n (set_criticalPathLength (Math_max lens + 1)) c')
          | (Threw e, c') => (Threw e, c')
          | (OutOfFuel, c') => (OutOfFuel, c')
          end
      end
  end.
Proof.
  simpl. unfold bind, read, ret, modify.
  destruct (criticalPathLength_of c n); [done|].
  destruct (dependents_of c n) as [|d deps]; [done|].
  simpl. unfold bind, ret.
  destruct (_calculateCriticalPaths fuel d c) as [[?|?|] c1]; try done.
Qed.

Lemma forEach_push_cons {S A B : Type} (body : A → M S B) (x : A) (rest : list A)
    (s : S) :
  forEach_push (x :: rest) body s =
  match body x s with
  | (Returned v, s') =>
      match forEach_push rest body s' with
      | (Returned vs, s'') => (Returned (v :: vs), s'')
      | (Threw e, s'') => (Threw e, s'')
      | (OutOfFuel, s'') => (OutOfFuel, s'')
      end
  | (Threw e, s') => (Threw e, s')
  | (OutOfFuel, s') => (OutOfFuel, s')
  end.
Proof.
  simpl. unfold bind, ret. by destruct (body x s) as [[?|?|] ?].
Qed.

Lemma Math_max_ge (v : Z) (vs : list Z) (w : Z) :
  w ∈ v :: vs → w ≤ Math_max (v :: vs).
Proof.
  simpl. revert v w. induction vs as [|u vs IH]; intros v w; simpl.
  - intros ->%list_elem_of_singleton. lia.
  - intros [->|[->|Hw]%elem_of_cons]%elem_of_cons.
    + etrans; [|apply (IH _ (Z.max v u)), list_elem_of_here]. lia.
    + etrans; [|apply (IH _ (Z.max v u)), list_elem_of_here]. lia.
    + apply IH. by apply list_elem_of_further.
Qed.

Lemma Math_max_elem (v : Z) (vs : list Z) : Math_max (v :: vs) ∈ v :: vs.
Proof.
  simpl. revert v. induction vs as [|u vs IH]; intros v; simpl.
  - apply list_elem_of_here.
  - pose proof (IH (Z.max v u)) as [Heq|Hin]%elem_of_cons.
    + rewrite Heq. destruct (Z.max_spec v u) as [[_ ->]|[_ ->]].
      * apply list_elem_of_further, list_elem_of_here.
      * apply list_elem_of_here.
    + by do 2 apply list_elem_of_further.
Qed.

Section CriticalPaths.

(** The graph on which the lengths are computed. *)
Variable c0 : t.
Hypothesis Hclosed : ∀ n d, d ∈ dependents_of c0 n → d ∈ names c0.
Hypothesis Hacyclic : ∀ n, ¬ tc (dependent c0) n n.

(** The collection still has the tasks and the dependents of [c0]. *)
Definition same_graph (c : t) : Prop :=
  names c = names c0 ∧ ∀ m, dependents_of c m = dependents_of c0 m.

(** Every memoized length is that of the recursive definition, over
    memoized lengths of the dependents. *)
Definition memo_ok (c : t) : Prop :=
  ∀ n v, criticalPathLength_of c n = Some v →
    ∃ lens,
      Forall2 (fun d w => criticalPathLength_of c d = Some w) (dependents_of c0 n) lens
      ∧ v = match lens with [] => 0 | _ => Math_max lens + 1 end.

Definition calculate_post (n : string) (c : t) (v : Z) (c' : t) : Prop :=
  same_graph c' ∧ memo_ok c'
  ∧ criticalPathLength_of c' n = Some v
  ∧ (∀ m w, criticalPathLength_of c m = Some w → criticalPathLength_of c' m = Some w)
  ∧ (∀ m, criticalPathLength_of c' m ≠ criticalPathLength_of c m →
          rtc (dependent c0) n m).

Lemma same_graph_set (n : string) (v : Z) (c : t) :
  same_graph c → same_graph (update n (set_criticalPathLength v) c).
Proof.
  intros [Hn Hd]. split.
  - by rewrite names_set_criticalPathLength.
  - intros m. by rewrite dependents_of_set_criticalPathLength.
Qed.

Lemma memo_ok_set (n : string) (v : Z) (lens : list Z) (c : t) :
  same_graph c → memo_ok c → n ∈ names c0 →
  criticalPathLength_of c n = None →
  Forall2 (fun d w => criticalPathLength_of c d = Some w) (dependents_of c0 n) lens →
  v = match lens with [] => 0 | _ => Math_max lens + 1 end →
  memo_ok (update n (set_criticalPathLength v) c).
Proof.
  intros [Hnames _] Hmemo Hn Hnone Hlens Hv m w.
  assert (∀ ds ls,
            Forall2 (fun d w => criticalPathLength_of c d = Some w) ds ls →
            Forall2 (fun d w => criticalPathLength_of
                                  (update n (set_criticalPathLength v) c) d = Some w)
                    ds ls) as Hkeep.
  { intros ds ls Hds. eapply Forall2_impl; [exact Hds|]. intros d u Hd. simpl.
    rewrite criticalPathLength_of_set by by rewrite Hnames.
    destruct (decide (d = n)) as [->|]; [congruence|done]. }
  rewrite criticalPathLength_of_set by by rewrite Hnames.
  destruct (decide (m = n)) as [->|].
  - intros [= <-]. exists lens. split; [by apply Hkeep|done].
  - intros (ls & Hls & ->)%Hmemo. exists ls. split; [by apply Hkeep|done].
Qed.

Lemma forEach_correct (fuel : nat) :
  (∀ n c v c', same_graph c → memo_ok c → n ∈ names c0 →
               _calculateCriticalPaths fuel n c = (Returned v, c') →
               calculate_post n c v c') →
  ∀ deps c lens c',
    same_graph c → memo_ok c → (∀ d, d ∈ deps → d ∈ names c0) →
    forEach_push deps (_calculateCriticalPaths fuel) c = (Returned lens, c') →
    same_graph c' ∧ memo_ok c'
    ∧ Forall2 (fun d w => criticalPathLength_of c' d = Some w) deps lens
    ∧ (∀ m w, criticalPathLength_of c m = Some w → criticalPathLength_of c' m = Some w)
    ∧ (∀ m, criticalPathLength_of c' m ≠ criticalPathLength_of c m →
            ∃ d, d ∈ deps ∧ rtc (dependent c0) d m).
Proof.
  intros IH. induction deps as [|d deps IHdeps]; intros c lens c' Hs Hm Hdeps Hrun.
  - injection Hrun as <- <-. split_and!; try done.
  - rewrite forEach_push_cons in Hrun.
    destruct (_calculateCriticalPaths fuel d c) as [[v1| |] c1] eqn:E1; try done.
    destruct (forEach_push deps _ c1) as [[vs| |] c2] eqn:E2; try done.
    injection Hrun as <- <-.
    pose proof (IH _ _ _ _ Hs Hm (Hdeps _ (list_elem_of_here _ _)) E1)
      as (Hs1 & Hm1 & Hd1 & Hmono1 & Hframe1).
    assert (∀ d', d' ∈ deps → d' ∈ names c0) as Hdeps'.
    { intros ? ?. by apply Hdeps, list_elem_of_further. }
    pose proof (IHdeps _ _ _ Hs1 Hm1 Hdeps' E2)
      as (Hs2 & Hm2 & Hall2 & Hmono2 & Hframe2).
    split_and!; try done.
    + constructor; [by apply Hmono2|done].
    + intros m w Hw. by apply Hmono2, Hmono1.
    + intros m Hneq.
      destruct (decide (criticalPathLength_of c1 m = criticalPathLength_of c m))
        as [Heq|Hneq1].
      * rewrite <- Heq in Hneq. destruct (Hframe2 m Hneq) as (d' & ? & ?).
        exists d'. split; [by apply list_elem_of_further|done].
      * exists d. split; [apply list_elem_of_here|by apply Hframe1].
Qed.

Lemma calculate_correct (fuel : nat) :
  ∀ n c v c', same_graph c → memo_ok c → n ∈ names c0 →
              _calculateCriticalPaths fuel n c = (Returned v, c') →
              calculate_post n c v c'.
Proof.
  induction fuel as [|fuel IH]; intros n c v c' Hs Hm Hn Hrun; [done|].
  rewrite calculate_S in Hrun.
  assert (n ∈ names c) as Hn' by by rewrite (proj1 Hs).
  destruct (criticalPathLength_of c n) as [w|] eqn:Hmemo.
  { injection Hrun as <- <-. split_and!; try done. }
  rewrite (proj2 Hs n) in Hrun.
  destruct (dependents_of c0 n) as [|d deps] eqn:Edeps.
  - injection Hrun as <- <-. split_and!.
    + by apply same_graph_set.
    + eapply (memo_ok_set _ _ []); try done. rewrite Edeps. constructor.
    + rewrite criticalPathLength_of_set by done. by rewrite decide_True.
    + intros m w Hw. rewrite criticalPathLength_of_set by done.
      destruct (decide (m = n)) as [->|]; [congruence|done].
    + intros m. rewrite criticalPathLength_of_set by done.
      destruct (decide (m = n)) as [->|]; [done|congruence].
  - destruct (forEach_push _ _ c) as [[lens| |] ck] eqn:E; try done.
    injection Hrun as <- <-.
    assert (∀ d', d' ∈ d :: deps → d' ∈ names c0) as Hdeps.
    { intros d' Hd'. apply (Hclosed n). by rewrite Edeps. }
    pose proof (forEach_correct fuel IH _ _ _ _ Hs Hm Hdeps E)
      as (Hsk & Hmk & Hall & Hmono & Hframe).
    assert (criticalPathLength_of ck n = None) as Hnone.
    { destruct (decide (criticalPathLength_of ck n = criticalPathLength_of c n))
        as [->|Hneq]; [done|].
      destruct (Hframe n Hneq) as (d' & Hd' & Hrtc). exfalso.
      apply (Hacyclic n). eapply tc_rtc_r; [|exact Hrtc].
      apply tc_once. unfold dependent. by rewrite Edeps. }
    assert (n ∈ names ck) as Hnk by by rewrite (proj1 Hsk).
    split_and!.
    + by apply same_graph_set.
    + eapply (memo_ok_set _ _ lens); try done; [by rewrite Edeps|].
      by inversion Hall.
    + rewrite criticalPathLength_of_set by done. by rewrite decide_True.
    + intros m w Hw. rewrite criticalPathLength_of_set by done.
      destruct (decide (m = n)) as [->|]; [congruence|by apply Hmono].
    + intros m. rewrite criticalPathLength_of_set by done.
      destruct (decide (m = n)) as [->|]; [done|].
      intros (d' & Hd' & Hrtc)%Hframe. eapply rtc_l; [|exact Hrtc].
      unfold dependent. by rewrite Edeps.
Qed.

(** With more fuel than tasks the computation returns: along the recursion
    the ancestors [anc] of the task are distinct tasks. *)
Lemma calculate_returns (fuel : nat) :
  ∀ n c anc, same_graph c → n ∈ names c0 → NoDup anc →
    (∀ a, a ∈ anc → a ∈ names c0 ∧ tc (dependent c0) a n) →
    (length (names c0) < fuel + length anc)%nat →
    ∃ v c', _calculateCriticalPaths fuel n c = (Returned v, c') ∧ same_graph c'.
Proof.
  induction fuel as [|fuel IH]; intros n c anc Hs Hn Hanc Hpath Hfuel.
  - exfalso. assert (n ∉ anc) as Hnot.
    { intros [_ Htc]%Hpath. by apply (Hacyclic n). }
    assert (n :: anc ⊆+ names c0) as Hlen%submseteq_length.
    { apply NoDup_submseteq; [by apply NoDup_cons|].
      intros x [->|Hx]%elem_of_cons; [done|by apply Hpath]. }
    simpl in *. lia.
  - rewrite calculate_S.
    destruct (criticalPathLength_of c n) as [w|]; [eauto|].
    rewrite (proj2 Hs n).
    destruct (dependents_of c0 n) as [|d0 deps0] eqn:Edeps.
    { eexists _, _. split; [done|]. by apply same_graph_set. }
    assert (∀ ds c, same_graph c → (∀ d, d ∈ ds → d ∈ dependents_of c0 n) →
              ∃ lens ck, forEach_push ds (_calculateCriticalPaths fuel) c
                         = (Returned lens, ck) ∧ same_graph ck) as Hloop.
    { clear c Hs. induction ds as [|d ds IHds]; intros c Hs Hds.
      - by eexists _, _.
      - rewrite forEach_push_cons.
        assert (dependent c0 n d) as Hd by apply Hds, list_elem_of_here.
        destruct (IH d c (n :: anc)) as (v1 & c1 & -> & Hs1); try done.
        + by eapply Hclosed.
        + apply NoDup_cons. split; [|done].
          intros [_ Htc]%Hpath. by apply (Hacyclic n).
        + intros a [->|Ha]%elem_of_cons.
          * split; [done|by apply tc_once].
          * destruct (Hpath a Ha). split; [done|by eapply tc_r].
        + simpl. lia.
        + destruct (IHds c1 Hs1) as (vs & ck & -> & Hsk).
          { intros ? ?. by apply Hds, list_elem_of_further. }
          by eexists _, _. }
    destruct (Hloop (d0 :: deps0) c Hs) as (lens & ck & -> & Hsk).
    { intros d Hd. by rewrite Edeps. }
    eexists _, _. split; [done|]. by apply same_graph_set.
Qed.

(** The loop of [getOrderedTasks] over the registered tasks. *)
Definition calculate_each (fuel : nat) (taskName : string) : M t unit :=
  _calculateCriticalPaths fuel taskName ;; ret tt.

Lemma calculate_each_run (fuel : nat) (n : string) (c : t) :
  calculate_each fuel n c =
  match _calculateCriticalPaths fuel n c with
  | (Returned _, c') => (Returned tt, c')
  | (Threw e, c') => (Threw e, c')
  | (OutOfFuel, c') => (OutOfFuel, c')
  end.
Proof. reflexivity. Qed.

Lemma calculate_loop_correct (fuel : nat) :
  ∀ ns c c', same_graph c → memo_ok c → (∀ n, n ∈ ns → n ∈ names c0) →
    for_of ns (calculate_each fuel) c = (Returned tt, c') →
    same_graph c' ∧ memo_ok c'
    ∧ (∀ n, n ∈ ns → is_Some (criticalPathLength_of c' n))
    ∧ (∀ m w, criticalPathLength_of c m = Some w → criticalPathLength_of c' m = Some w).
Proof.
  induction ns as [|n ns IH]; intros c c' Hs Hm Hns Hrun.
  - injection Hrun as <-. split_and!; try done. by intros ? ?%elem_of_nil.
  - rewrite for_of_cons, calculate_each_run in Hrun.
    destruct (_calculateCriticalPaths fuel n c) as [[v| |] c1] eqn:E; try done.
    pose proof (calculate_correct fuel _ _ _ _ Hs Hm (Hns _ (list_elem_of_here _ _)) E)
      as (Hs1 & Hm1 & Hv & Hmono1 & _).
    assert (∀ m, m ∈ ns → m ∈ names c0) as Hns'.
    { intros ? ?. by apply Hns, list_elem_of_further. }
    pose proof (IH _ _ Hs1 Hm1 Hns' Hrun) as (Hs2 & Hm2 & Hall & Hmono2).
    split_and!; try done.
    + intros m [->|Hm']%elem_of_cons; [|by apply Hall].
      exists v. by apply Hmono2.
    + intros m w Hw. by apply Hmono2, Hmono1.
Qed.

Lemma calculate_loop_returns (fuel : nat) :
  (length (names c0) < fuel)%nat →
  ∀ ns c, same_graph c → (∀ n, n ∈ ns → n ∈ names c0) →
    ∃ c', for_of ns (calculate_each fuel) c = (Returned tt, c').
Proof.
  intros Hfuel. induction ns as [|n ns IH]; intros c Hs Hns; [by eexists|].
  rewrite for_of_cons, calculate_each_run.
  destruct (calculate_returns fuel n c [] Hs) as (v & c1 & -> & Hs1).
  - apply Hns, list_elem_of_here.
  - apply NoDup_nil_2.
  - by intros ? ?%elem_of_nil.
  - simpl. lia.
  - apply IH; [done|]. intros ? ?. by apply Hns, list_elem_of_further.
Qed.

End CriticalPaths.

Lemma getOrderedTasks_run (fuel : nat) (c : t) :
  getOrderedTasks fuel c =
  match _checkForCyclicDependencies fuel c (names c) [] ∅ with
  | (Returned _, _) =>
      match for_of (names c) (calculate_each fuel) c with
      | (Returned _, c') => (Returned (sortBy c' sortKey), c')
      | (Threw e, c') => (Threw e, c')
      | (OutOfFuel, c') => (OutOfFuel, c')
      end
  | (Threw e, _) => (Threw e, c)
  | (OutOfFuel, _) => (OutOfFuel, c)
  end.
Proof.
  unfold getOrderedTasks, bind, read, ret, local.
  by destruct (_checkForCyclicDependencies fuel c (names c) [] ∅) as [[?|?|] ?].
Qed.

(** The lengths left by a successful [getOrderedTasks] on a collection that
    was built by [addTask] and [addDependencies]. *)
Lemma getOrderedTasks_lengths (c : t) (fuel : nat) (l : list Task) (c' : t) :
  wf c →
  getOrderedTasks fuel c = (Returned l, c') →
  ¬ cyclic c
  ∧ l = sortBy c' sortKey
  ∧ same_graph c c' ∧ memo_ok c c'
  ∧ ∀ n, n ∈ names c → is_Some (criticalPathLength_of c' n).
Proof.
  intros Hwf. rewrite getOrderedTasks_run.
  pose proof (check_top c fuel Hwf) as Hcheck.
  destruct (_checkForCyclicDependencies fuel c (names c) [] ∅) as [[[]|?|] ?];
    try done.
  destruct (for_of (names c) (calculate_each fuel) c) as [[[]| |] c''] eqn:E;
    try done.
  intros [= <- <-]. split; [done|]. split; [done|].
  assert (∀ n, ¬ tc (dependent c) n n) as Hacyclic.
  { intros n Hn. apply Hcheck, cyclic_dependent; [done|]. exists n.
    split; [|done]. apply tc_first in Hn as (d & Hd & _).
    by eapply dependents_of_registered. }
  pose proof (calculate_loop_correct c (wf_dependents c Hwf) Hacyclic fuel
                (names c) c c'') as Hloop.
  destruct Hloop as (Hs & Hm & Hall & _); try done.
  intros n v. by rewrite (wf_fresh c Hwf).
Qed.

(** *** The sort *)

Section Sort.
Context {T : Type} (key : T → Z).

Lemma sortBy_insert_Permutation (x : T) (l : list T) :
  sortBy_insert key x l ≡ₚ x :: l.
Proof.
  induction l as [|y l IH]; simpl; [done|].
  destruct (decide _); [done|]. rewrite IH. apply Permutation_swap.
Qed.

Lemma sortBy_Permutation (l : list T) : sortBy l key ≡ₚ l.
Proof.
  unfold sortBy. induction l as [|x l IH]; simpl; [done|].
  by rewrite sortBy_insert_Permutation, IH.
Qed.

Lemma sortBy_insert_sorted (x : T) (l : list T) :
  StronglySorted (fun a b => key a ≤ key b) l →
  StronglySorted (fun a b => key a ≤ key b) (sortBy_insert key x l).
Proof.
  induction 1 as [|y l Hl IH Hy]; simpl.
  - by repeat constructor.
  - destruct (decide (key x ≤ key y)) as [Hle|Hgt].
    + constructor; [by constructor|]. constructor; [done|].
      eapply Forall_impl; [exact Hy|]. intros z Hz. simpl in *. lia.
    + constructor; [done|]. rewrite sortBy_insert_Permutation.
      constructor; [lia|done].
Qed.

Lemma sortBy_sorted (l : list T) :
  StronglySorted (fun a b => key a ≤ key b) (sortBy l key).
Proof.
  unfold sortBy. induction l as [|x l IH]; simpl; [constructor|].
  by apply sortBy_insert_sorted.
Qed.

Lemma StronglySorted_lookup (R : relation T) (l : list T) (i j : nat) (a b : T) :
  StronglySorted R l → l !! i = Some a → l !! j = Some b → (i < j)%nat → R a b.
Proof.
  intros Hl. revert i j. induction Hl as [|x l Hl IH Hx]; intros i j Hi Hj Hij.
  - done.
  - destruct j as [|j]; [lia|]. destruct i as [|i]; simpl in *.
    + injection Hi as ->. eapply Forall_forall in Hx; [done|].
      by eapply list_elem_of_lookup_2.
    + eapply IH; [done|done|lia].
Qed.

(** The sort is stable: elements that share a key stay in their order. *)
Lemma sortBy_insert_filter (P : T → Prop) `{!∀ x, Decision (P x)} (x : T) (l : list T) :
  (∀ a b, P a → P b → key a = key b) →
  filter P (sortBy_insert key x l) = filter P (x :: l).
Proof.
  intros HP. induction l as [|y l IH]; simpl; [done|].
  destruct (decide (key x ≤ key y)) as [Hle|Hgt]; [done|].
  rewrite (filter_cons _ y), IH, !filter_cons.
  destruct (decide (P x)) as [Hx|], (decide (P y)) as [Hy|]; try done.
  pose proof (HP _ _ Hx Hy). lia.
Qed.

Lemma sortBy_filter (P : T → Prop) `{!∀ x, Decision (P x)} (l : list T) :
  (∀ a b, P a → P b → key a = key b) →
  filter P (sortBy l key) = filter P l.
Proof.
  intros HP. unfold sortBy. induction l as [|x l IH]; simpl; [done|].
  rewrite sortBy_insert_filter by done. by rewrite !filter_cons, IH.
Qed.

End Sort.

Lemma criticalPathLength_of_elem (c : t) (task : Task) :
  NoDup (names c) → task ∈ c →
  criticalPathLength_of c (name task) = criticalPathLength task.
Proof.
  intros Hnd Hin. unfold criticalPathLength_of, get.
  induction c as [|x c IH]; [by apply elem_of_nil in Hin|].
  simpl. apply NoDup_cons in Hnd as [Hx Hnd].
  apply elem_of_cons in Hin as [->|Hin].
  - by rewrite bool_decide_eq_true_2.
  - case_bool_decide as Heq; [|by apply IH].
    exfalso. apply Hx. rewrite Heq. unfold names. by apply list_elem_of_fmap_2.
Qed.

(** *** Sample collections *)

(** [B] depends on [A], [C] depends on [B]. *)
Definition linear_chain : t :=
  build [AddTask "A"; AddTask "B"; AddTask "C";
         AddDependencies "B" ["A"%string]; AddDependencies "C" ["B"%string]].

(** [A] depends on [B], [B] depends on [A]. *)
Definition two_cycle : t :=
  build [AddTask "A"; AddTask "B";
         AddDependencies "A" ["B"%string]; AddDependencies "B" ["A"%string]].

(** Two independent tasks, registered as [b] then [a]. *)
Definition two_roots : t := build [AddTask "b"; AddTask "a"].

(** C1: with more fuel than tasks, [getOrderedTasks] on a built collection
    throws the cyclic-dependency error when the dependency graph has a cycle
    and leaves the collection as it was.  The message of the error is the
    line [A cyclic dependency was encountered:], then the names of a chain,
    one on a line, the first after two spaces and each later one after
    [  -> ], then the advice on [cyclicDependencyProjects]; the chain starts
    at a task, follows dependencies and comes back to that task.  When the
    graph has no cycle, [getOrderedTasks] returns the registered tasks.  For
    [A] depending on [B] and [B] on [A] the lines of the chain are [  A],
    [  -> B] and [  -> A]. *)
Theorem getOrderedTasks_cycles (ops : list Call) (fuel : nat) :
  let nl := String "010"%char EmptyString in
  (length (build ops) < fuel)%nat →
  (cyclic (build ops) →
   ∃ chain,
     getOrderedTasks fuel (build ops)
     = (Threw (mkError
                 ("A cyclic dependency was encountered:" +:+ nl +:+
                  "  " +:+ String.concat (nl +:+ "  -> ") chain +:+ nl +:+
                  "Consider using the cyclicDependencyProjects option for rush.json.")),
        build ops)
     ∧ names_cycle (build ops) chain)
  ∧ (¬ cyclic (build ops) →
     ∃ l c', getOrderedTasks fuel (build ops) = (Returned l, c')
             ∧ name <$> l ≡ₚ names (build ops))
  ∧ fst (getOrderedTasks 3 two_cycle)
    = Threw (mkError
               ("A cyclic dependency was encountered:" +:+ nl +:+
                "  A" +:+ nl +:+
                "  -> B" +:+ nl +:+
                "  -> A" +:+ nl +:+
                "Consider using the cyclicDependencyProjects option for rush.json.")).
Proof.
  intros nl Hfuel. pose proof (wf_build ops) as Hwf.
  pose proof (check_top (build ops) fuel Hwf) as Hcheck.
  rewrite getOrderedTasks_run.
  destruct (_checkForCyclicDependencies fuel (build ops) _ [] ∅) as [[[]|e|] ?].
  - split_and!; [done| |by vm_compute]. intros _.
    assert (∀ n, ¬ tc (dependent (build ops)) n n) as Hacyclic.
    { intros n Hn. apply Hcheck, cyclic_dependent; [done|]. exists n.
      split; [|done]. apply tc_first in Hn as (d & Hd & _).
      by eapply dependents_of_registered. }
    destruct (calculate_loop_returns (build ops) (wf_dependents _ Hwf) Hacyclic fuel)
      with (ns := names (build ops)) (c := build ops) as [c' Hrun]; try done.
    { unfold names. by rewrite length_fmap. }
    eapply calculate_loop_correct in Hrun as Hloop; try done.
    2:{ apply (wf_dependents _ Hwf). }
    2:{ intros n v. by rewrite (wf_fresh _ Hwf). }
    rewrite Hrun. eexists _, _. split; [done|].
    rewrite sortBy_Permutation. by destruct Hloop as ([<- _] & _).
  - destruct Hcheck as (chain & -> & Hcycle). split_and!; [eauto| |by vm_compute].
    intros []. by eapply names_cycle_cyclic.
  - lia.
Qed.

(** C2: after a successful [getOrderedTasks] on a built collection every
    task has a critical-path length: 0 when it has no dependents, otherwise 1
    plus the greatest of its dependents' lengths (every dependent's length is
    below it and some dependent's length is exactly one less).  For the chain
    where [B] depends on [A] and [C] on [B] the lengths are [A=2], [B=1],
    [C=0]. *)
Theorem criticalPathLength_recursive (ops : list Call) (fuel : nat)
    (l : list Task) (c' : t) :
  getOrderedTasks fuel (build ops) = (Returned l, c') →
  (names c' = names (build ops)
   ∧ ∀ n, n ∈ names c' →
       ∃ v, criticalPathLength_of c' n = Some v
            ∧ (dependents_of c' n = [] → v = 0)
            ∧ (dependents_of c' n ≠ [] →
               (∀ d, d ∈ dependents_of c' n →
                     ∃ w, criticalPathLength_of c' d = Some w ∧ w + 1 ≤ v)
               ∧ ∃ d, d ∈ dependents_of c' n
                      ∧ criticalPathLength_of c' d = Some (v - 1)))
  ∧ (let lengths := snd (getOrderedTasks 4 linear_chain) in
     criticalPathLength_of lengths "A" = Some 2
     ∧ criticalPathLength_of lengths "B" = Some 1
     ∧ criticalPathLength_of lengths "C" = Some 0).
Proof.
  intros Hrun. split; [|by vm_compute].
  apply getOrderedTasks_lengths in Hrun as (_ & _ & [Hnames Hdeps] & Hmemo & Hall);
    [|apply wf_build].
  split; [done|]. intros n Hn. rewrite Hnames in Hn.
  destruct (Hall n Hn) as [v Hv]. exists v. split; [done|].
  destruct (Hmemo n v Hv) as (lens & Hlens & ->). rewrite Hdeps.
  split.
  - intros Hnil. rewrite Hnil in Hlens. by inversion Hlens.
  - intros Hne. destruct lens as [|w ws].
    { inversion Hlens as [Hnil|]. by rewrite <- Hnil in Hne. }
    split.
    + intros d [i Hi]%list_elem_of_lookup_1.
      destruct (Forall2_lookup_l _ _ _ _ _ Hlens Hi) as (u & Hu & Hd).
      exists u. split; [done|].
      apply list_elem_of_lookup_2, Math_max_ge in Hu. lia.
    + destruct (list_elem_of_lookup_1 _ _ (Math_max_elem w ws)) as [i Hi].
      destruct (Forall2_lookup_r _ _ _ _ _ Hlens Hi) as (d & Hd & Hcpl).
      exists d. split; [by eapply list_elem_of_lookup_2|].
      rewrite Hcpl. f_equal. lia.
Qed.

(** The order the claim asks of tasks of equal length. *)
Definition ties_by_name (l : list Task) : Prop :=
  ∀ i j ti tj,
    l !! i = Some ti → l !! j = Some tj →
    criticalPathLength ti = criticalPathLength tj →
    String.ltb (name ti) (name tj) = true →
    (i < j)%nat.

(** A sort that, like [Sort.sortBy], is handed the array and a key selector:
    it permutes the array, and what it does depends on the elements only
    through their keys. *)
Definition key_driven (sort : ∀ T : Type, list T → (T → Z) → list T) : Prop :=
  (∀ (T U : Type) (f : T → U) (key : U → Z) (l : list T),
     sort U (f <$> l) key = f <$> sort T l (fun x => key (f x)))
  ∧ (∀ (T : Type) (l : list T) (key key' : T → Z),
       (∀ x, key x = key' x) → sort T l key = sort T l key')
  ∧ (∀ (T : Type) (l : list T) (key : T → Z), sort T l key ≡ₚ l).

Lemma sortBy_insert_fmap {T U : Type} (f : T → U) (key : U → Z) (x : T) (l : list T) :
  sortBy_insert key (f x) (f <$> l) = f <$> sortBy_insert (fun x => key (f x)) x l.
Proof.
  induction l as [|y l IH]; csimpl; [done|].
  destruct (decide _); csimpl; [done|]. by rewrite IH.
Qed.

Lemma sortBy_insert_ext {T : Type} (key key' : T → Z) (x : T) (l : list T) :
  (∀ x, key x = key' x) → sortBy_insert key x l = sortBy_insert key' x l.
Proof.
  intros Hkey. induction l as [|y l IH]; simpl; [done|].
  rewrite !Hkey, IH. done.
Qed.

Lemma sortBy_key_driven : key_driven (fun T => @sortBy T).
Proof.
  split_and!.
  - intros T U f key l. unfold sortBy. induction l as [|x l IH]; csimpl; [done|].
    by rewrite IH, sortBy_insert_fmap.
  - intros T l key key' Hkey. unfold sortBy. induction l as [|x l IH]; simpl; [done|].
    by rewrite IH, (sortBy_insert_ext key key').
  - intros T l key. apply sortBy_Permutation.
Qed.

(** With the key of [getOrderedTasks], which does not look at the name, no
    such sort puts tasks of equal length in the order of their names for
    every queue. *)
Lemma sortKey_cannot_order_ties_by_name
    (sort : ∀ T : Type, list T → (T → Z) → list T) :
  key_driven sort →
  ¬ (∀ buildQueue : list Task, ties_by_name (sort Task buildQueue sortKey)).
Proof.
  intros (Hmap & Hext & Hperm) Hties.
  set (a := mkTask "a" Ready [] [] (Some 0)).
  set (b := mkTask "b" Ready [] [] (Some 0)).
  set (f1 := fun x : bool => if x then a else b).
  set (f2 := fun x : bool => if x then b else a).
  pose proof (Hties (f1 <$> [true; false])) as H1.
  pose proof (Hties (f2 <$> [true; false])) as H2.
  rewrite Hmap in H1, H2.
  rewrite (Hext _ _ _ (fun _ => 0)) in H1 by (by intros []).
  rewrite (Hext _ _ _ (fun _ => 0)) in H2 by (by intros []).
  destruct (Permutation_length_2_inv (symmetry (Hperm bool [true; false] (fun _ => 0))))
    as [E|E]; rewrite E in H1, H2.
  - specialize (H2 1%nat 0%nat a b eq_refl eq_refl eq_refl eq_refl). lia.
  - specialize (H1 1%nat 0%nat a b eq_refl eq_refl eq_refl eq_refl). lia.
Qed.

(** C3, counterexample: two independent tasks registered as [b] then [a]
    have equal lengths and come out as [b], [a], although [a] is the smaller
    name. *)
Lemma equal_lengths_keep_registration_order :
  let l := sortBy (snd (getOrderedTasks 3 two_roots)) sortKey in
  fst (getOrderedTasks 3 two_roots) = Returned l
  ∧ ¬ (∀ i j ti tj,
         l !! i = Some ti → l !! j = Some tj →
         criticalPathLength ti = criticalPathLength tj →
         String.ltb (name ti) (name tj) = true →
         (i < j)%nat).
Proof.
  split; [by vm_compute|].
  intros H. specialize (H 1%nat 0%nat _ _ eq_refl eq_refl eq_refl eq_refl). lia.
Qed.

(** C3, amended: the list returned by [getOrderedTasks] on a built
    collection holds the registered tasks sorted by descending critical-path
    length, and tasks of equal length appear in the order in which they were
    registered. *)
Theorem getOrderedTasks_order (ops : list Call) (fuel : nat)
    (l : list Task) (c' : t) :
  getOrderedTasks fuel (build ops) = (Returned l, c') →
  l ≡ₚ c'
  ∧ names c' = names (build ops)
  ∧ (∀ i j ti tj,
       l !! i = Some ti → l !! j = Some tj → (i < j)%nat →
       ∃ vi vj, criticalPathLength ti = Some vi
                ∧ criticalPathLength tj = Some vj ∧ vj ≤ vi)
  ∧ (∀ v, filter (fun task => criticalPathLength task = Some v) l
          = filter (fun task => criticalPathLength task = Some v) c').
Proof.
  intros Hrun.
  apply getOrderedTasks_lengths in Hrun as (_ & -> & [Hnames Hdeps] & _ & Hall);
    [|apply wf_build].
  pose proof (wf_names _ (wf_build ops)) as Hnd. rewrite <- Hnames in Hnd.
  assert (∀ task, task ∈ c' → is_Some (criticalPathLength task)) as Hsome.
  { intros task Hin. rewrite <- (criticalPathLength_of_elem c') by done.
    apply Hall. rewrite <- Hnames. unfold names. by apply list_elem_of_fmap_2. }
  split_and!; [apply sortBy_Permutation|done| |].
  - intros i j ti tj Hi Hj Hij.
    pose proof (StronglySorted_lookup _ _ _ _ _ _ (sortBy_sorted sortKey c') Hi Hj Hij)
      as Hle. simpl in Hle.
    destruct (Hsome ti) as [vi Hvi].
    { rewrite <- (sortBy_Permutation sortKey c'). by eapply list_elem_of_lookup_2. }
    destruct (Hsome tj) as [vj Hvj].
    { rewrite <- (sortBy_Permutation sortKey c'). by eapply list_elem_of_lookup_2. }
    exists vi, vj. unfold sortKey in Hle. rewrite Hvi, Hvj in Hle. simpl in Hle.
    split_and!; [done|done|lia].
  - intros v. apply sortBy_filter. intros a b Ha Hb. unfold sortKey.
    by rewrite Ha, Hb.
Qed.

Lemma getOrderedTasks_cycles_witness :
  let nl := String "010"%char EmptyString in
  (length two_cycle < 3)%nat
  ∧ ∃ chain,
      getOrderedTasks 3 two_cycle
      = (Threw (mkError
                  ("A cyclic dependency was encountered:" +:+ nl +:+
                   "  " +:+ String.concat (nl +:+ "  -> ") chain +:+ nl +:+
                   "Consider using the cyclicDependencyProjects option for rush.json.")),
         two_cycle)
      ∧ names_cycle two_cycle chain.
Proof.
  intros nl.
  assert (length two_cycle < 3)%nat as Hfuel by (vm_compute; lia).
  split; [exact Hfuel|].
  apply (getOrderedTasks_cycles
           [AddTask "A"; AddTask "B";
            AddDependencies "A" ["B"%string]; AddDependencies "B" ["A"%string]]
           3 Hfuel).
  exists "A"%string. eapply tc_l; [|apply tc_once].
  - apply list_elem_of_In. vm_compute. tauto.
  - apply list_elem_of_In. vm_compute. tauto.
Defined.

Lemma criticalPathLength_recursive_witness :
  ∃ l c',
    getOrderedTasks 4 linear_chain = (Returned l, c')
    ∧ names c' = names linear_chain
    ∧ ∀ n, n ∈ names c' →
        ∃ v, criticalPathLength_of c' n = Some v
             ∧ (dependents_of c' n = [] → v = 0)
             ∧ (dependents_of c' n ≠ [] →
                (∀ d, d ∈ dependents_of c' n →
                      ∃ w, criticalPathLength_of c' d = Some w ∧ w + 1 ≤ v)
                ∧ ∃ d, d ∈ dependents_of c' n
                       ∧ criticalPathLength_of c' d = Some (v - 1)).
Proof.
  eexists _, _. split; [vm_compute; reflexivity|].
  refine (proj1 (criticalPathLength_recursive
                   [AddTask "A"; AddTask "B"; AddTask "C";
                    AddDependencies "B" ["A"%string];
                    AddDependencies "C" ["B"%string]] 4 _ _ _)).
  vm_compute. reflexivity.
Defined.

Lemma getOrderedTasks_order_witness :
  ∃ l c',
    getOrderedTasks 3 two_roots = (Returned l, c')
    ∧ l ≡ₚ c'
    ∧ names c' = names two_roots
    ∧ (∀ i j ti tj,
         l !! i = Some ti → l !! j = Some tj → (i < j)%nat →
         ∃ vi vj, criticalPathLength ti = Some vi
                  ∧ criticalPathLength tj = Some vj ∧ vj ≤ vi)
    ∧ (∀ v, filter (fun task => criticalPathLength task = Some v) l
            = filter (fun task => criticalPathLength task = Some v) c').
Proof.
  eexists _, _. split; [vm_compute; reflexivity|].
  apply (getOrderedTasks_order [AddTask "b"; AddTask "a"] 3).
  vm_compute. reflexivity.
Defined.

End TaskOrderFacts.

(** ** Project builder *)

Module ProjectBuilderFacts.
Import ProjectBuilder.

(** What [_areShallowEqual] tests: every property of the first object is a
    property of the second with the same value, and every key of the second
    is a key of the first or the name of a member of [Object.prototype]. *)
Lemma areShallowEqual_entries (o1 o2 : gmap string string) :
  _areShallowEqual o1 o2 = true ↔
  (∀ n v, o1 !! n = Some v → o2 !! n = Some v)
  ∧ (∀ n, is_Some (o2 !! n) → is_Some (o1 !! n) ∨ n ∈ Object_prototype).
Proof.
  unfold _areShallowEqual.
  destruct (existsb _ (map_to_list o1)) eqn:E1.
  - split; [done|]. intros [H1 _]. exfalso.
    apply existsb_exists in E1 as ([n v] & Hin & Hf).
    apply list_elem_of_In, elem_of_map_to_list, H1 in Hin.
    unfold has_in in Hf. rewrite Hin in Hf.
    rewrite (bool_decide_eq_true_2 (is_Some (Some v))) in Hf by eauto.
    rewrite (bool_decide_eq_true_2 (Some v = Some v)) in Hf by done. done.
  - assert (∀ n v, o1 !! n = Some v → o2 !! n = Some v) as H1.
    { intros n v Hn. destruct (decide (o2 !! n = Some v)) as [|Hne]; [done|].
      exfalso. apply not_true_iff_false in E1. apply E1.
      apply existsb_exists. exists (n, v). split.
      { by apply list_elem_of_In, elem_of_map_to_list. }
      rewrite (bool_decide_eq_false_2 (o2 !! n = Some v)) by done.
      apply orb_true_r. }
    destruct (existsb _ (map_to_list o2)) eqn:E2.
    + split; [done|]. intros [_ H2]. exfalso.
      apply existsb_exists in E2 as ([n v] & Hin & Hf).
      apply list_elem_of_In, elem_of_map_to_list in Hin.
      unfold has_in in Hf. apply negb_true_iff, orb_false_iff in Hf as [Hf1 Hf2].
      apply bool_decide_eq_false in Hf1, Hf2.
      destruct (H2 n); [by eauto|done|done].
    + split; [intros _|done]. split; [done|]. intros n [v Hn].
      destruct (has_in o1 n) eqn:Hhas.
      * unfold has_in in Hhas.
        apply orb_true_iff in Hhas as [?%bool_decide_eq_true|?%bool_decide_eq_true];
          [by left|by right].
      * exfalso. apply not_true_iff_false in E2. apply E2.
        apply existsb_exists. exists (n, v). split.
        { by apply list_elem_of_In, elem_of_map_to_list. }
        by rewrite Hhas.
Qed.

(** An object without a property named like a member of
    [Object.prototype]. *)
Definition ordinary (object : gmap string string) : Prop :=
  ∀ n, is_Some (object !! n) → n ∉ Object_prototype.

Lemma areShallowEqual_true (o1 o2 : gmap string string) :
  ordinary o2 → _areShallowEqual o1 o2 = true ↔ o1 = o2.
Proof.
  intros Hord. rewrite areShallowEqual_entries. split.
  - intros [H1 H2]. apply map_eq. intros n.
    destruct (o1 !! n) as [v|] eqn:E1; [symmetry; by apply H1|].
    destruct (o2 !! n) as [v|] eqn:E2; [|done].
    destruct (H2 n) as [[? ?]|?]; [by eauto|congruence|].
    exfalso. by apply (Hord n); eauto.
  - intros ->. split; [done|]. by left.
Qed.

Lemma areShallowEqual_refl (o : gmap string string) : _areShallowEqual o o = true.
Proof. apply areShallowEqual_entries. split; [done|]. by left. Qed.


Definition isError (v : Severity) : bool := match v with error => true | _ => false end.
Definition isWarning (v : Severity) : bool := match v with warning => true | _ => false end.
Definition isStderr (c : TerminalChunkKind * string) : bool :=
  match c with (Stderr, _) => true | (Stdout, _) => false end.
Definition chunk_event (c : TerminalChunkKind * string) : Event :=
  let '(kind, text) := c in WriteChunk kind text.

Lemma terminal_write_run (v : Severity) (s : State) :
  terminal_write v s =
  (Returned tt,
   mkState (depsFile s) (hasErrors s || isError v) (hasWarnings s || isWarning v)
     (_projectBuildCache s) (hadEmptyScript s) (events s ++ [TerminalLine v])).
Proof.
  destruct s, v; cbn; by rewrite ?orb_true_r, ?orb_false_r.
Qed.

Lemma for_of_terminal_write (sevs : list Severity) (s : State) :
  for_of sevs terminal_write s =
  (Returned tt,
   mkState (depsFile s)
     (hasErrors s || existsb isError sevs)
     (hasWarnings s || existsb isWarning sevs)
     (_projectBuildCache s) (hadEmptyScript s)
     (events s ++ (TerminalLine <$> sevs))).
Proof.
  revert s. induction sevs as [|v sevs IH]; intros s.
  - destruct s; cbn. by rewrite !orb_false_r, app_nil_r.
  - rewrite for_of_cons, terminal_write_run, IH. cbn.
    by rewrite <- !orb_assoc, <- app_assoc.
Qed.

Lemma for_of_writeChunk (dat : list (TerminalChunkKind * string)) (s : State) :
  for_of dat writeChunk s =
  (Returned tt,
   mkState (depsFile s) (hasErrors s) (hasWarnings s)
     (_projectBuildCache s) (hadEmptyScript s)
     (events s ++ (chunk_event <$> dat))).
Proof.
  revert s. induction dat as [|[k x] dat IH]; intros s.
  - destruct s; cbn. by rewrite app_nil_r.
  - rewrite for_of_cons. cbn. rewrite IH. cbn. by rewrite <- app_assoc.
Qed.
Definition lastProjectBuildDeps (file : DepsFile) : option IProjectBuildDeps :=
  match file with Holds deps => Some deps | _ => None end.

Definition projectBuildDeps (options : IProjectBuilderOptions) (env : Environment)
    : option IProjectBuildDeps :=
  match getPackageDeps env with
  | Some fileHashes => Some (mkDeps (files_of fileHashes) (commandToRun options))
  | None => None
  end.

Definition cacheObject (options : IProjectBuilderOptions) (env : Environment)
    : option ProjectBuildCache :=
  if buildCacheConfiguration options && tryLoadForProjectAsync env
  then match getPackageDeps env with
       | Some _ => projectBuildCache env
       | None => None
       end
  else None.

Definition restored (options : IProjectBuilderOptions) (env : Environment) : bool :=
  match cacheObject options env with
  | Some cache => fst (tryRestoreFromCacheAsync cache)
  | None => false
  end.

Definition isPackageUnchanged (options : IProjectBuilderOptions) (env : Environment)
    (file : DepsFile) : bool :=
  match lastProjectBuildDeps file, projectBuildDeps options env with
  | Some last, Some current =>
      bool_decide (arguments current = arguments last)
      && _areShallowEqual (files current) (files last)
  | _, _ => false
  end.

Definition wroteStderr (env : Environment) : bool :=
  existsb (fun '(kind, _) => match kind with Stderr => true | Stdout => false end)
    (data (childProcess env)).

(** The provider's flags when the builder reads them after a zero exit. *)
Definition errorsWritten (options : IProjectBuilderOptions) (env : Environment) : bool :=
  match cacheObject options env with
  | Some cache =>
      existsb isError (snd (tryRestoreFromCacheAsync cache))
      || existsb isError (snd (trySetCacheEntryAsync cache))
  | None => false
  end.

Definition warningsWritten (options : IProjectBuilderOptions) (env : Environment)
    (file : DepsFile) : bool :=
  match file with Unparsable => true | _ => false end
  || match cacheObject options env with
     | Some cache =>
         existsb isWarning (snd (tryRestoreFromCacheAsync cache))
         || existsb isWarning (snd (trySetCacheEntryAsync cache))
     | None => false
     end.

Definition cacheWriteSuccess (options : IProjectBuilderOptions) (env : Environment)
    : option bool :=
  match cacheObject options env with
  | Some cache => Some (fst (trySetCacheEntryAsync cache))
  | None => None
  end.

Definition outcome (options : IProjectBuilderOptions) (env : Environment)
    (file : DepsFile) : Outcome TaskStatus :=
  if restored options env then Returned FromCache
  else if isPackageUnchanged options env file && isIncrementalBuildAllowed options
  then Returned Skipped
  else if bool_decide (commandToRun options = EmptyString) then Returned Success
  else if bool_decide (code (childProcess env) ≠ 0) then
    Threw (TaskError "executing"
             ("Returned error code: " +:+ pretty (code (childProcess env))))
  else if wroteStderr env then Returned SuccessWithWarning
  else
    match projectBuildDeps options env with
    | None => Returned Success
    | Some _ =>
        if errorsWritten options env then Returned Failure
        else if bool_decide (cacheWriteSuccess options env = Some false)
                || warningsWritten options env file
        then Returned SuccessWithWarning
        else Returned Success
    end.


(** The lines that a look-up of the cache object writes. *)
Definition cacheLookupLines (options : IProjectBuilderOptions) (env : Environment)
    : list Event :=
  if buildCacheConfiguration options && negb (tryLoadForProjectAsync env)
  then [TerminalLine verbose] else [].

(** What an execution does before it decides between restoring, skipping
    and running. *)
Definition prelude (options : IProjectBuilderOptions) (env : Environment)
    (file : DepsFile) : list Event :=
  match file with Unparsable => [TerminalLine warning] | _ => [] end
  ++ match getPackageDeps env with None => [TerminalLine log] | Some _ => [] end
  ++ match cacheObject options env with
     | Some cache =>
         RestoreFromCache :: (TerminalLine <$> snd (tryRestoreFromCacheAsync cache))
     | None => cacheLookupLines options env
     end.

(** What [tryWriteCacheEntryAsync] does. *)
Definition cacheWrite (options : IProjectBuilderOptions) (env : Environment)
    : list Event :=
  match cacheObject options env with
  | Some cache =>
      SetCacheEntry :: (TerminalLine <$> snd (trySetCacheEntryAsync cache))
  | None => cacheLookupLines options env
  end.

(** What a zero exit without output on stderr is followed by. *)
Definition afterSuccess (options : IProjectBuilderOptions) (env : Environment)
    : list Event :=
  match projectBuildDeps options env with
  | None => []
  | Some deps => SaveJson deps currentDepsPath :: cacheWrite options env
  end.

(** What follows the close of the child process. *)
Definition afterClose (options : IProjectBuilderOptions) (env : Environment)
    : list Event :=
  if bool_decide (code (childProcess env) ≠ 0) then []
  else if wroteStderr env then []
  else afterSuccess options env.

(** What one execution does, in order. *)
Definition trace (options : IProjectBuilderOptions) (env : Environment)
    (file : DepsFile) : list Event :=
  prelude options env file
  ++ if restored options env then []
     else if isPackageUnchanged options env file && isIncrementalBuildAllowed options
     then []
     else
       [DeleteFile currentDepsPath; DeleteFile legacyDepsPath]
       ++ if bool_decide (commandToRun options = EmptyString) then
            match projectBuildDeps options env with
            | Some deps => [SaveJson deps currentDepsPath]
            | None => []
            end
          else
            [TerminalLine log; Spawn (commandToRun options)]
            ++ (chunk_event <$> data (childProcess env))
            ++ afterClose options env.

(** What [currentDepsPath] holds afterwards. *)
Definition fileAfter (options : IProjectBuilderOptions) (env : Environment)
    (file : DepsFile) : DepsFile :=
  if restored options env then file
  else if isPackageUnchanged options env file && isIncrementalBuildAllowed options
  then file
  else if bool_decide (commandToRun options = EmptyString) then
    match projectBuildDeps options env with
    | Some deps => Holds deps
    | None => Absent
    end
  else if bool_decide (code (childProcess env) ≠ 0) then Absent
  else if wroteStderr env then Absent
  else
    match projectBuildDeps options env with
    | Some deps => Holds deps
    | None => Absent
    end.

Ltac reduce_builder :=
  cbv beta iota zeta delta
    [executeAsync _executeTaskAsync _getProjectBuildCacheAsync
     tryWriteCacheEntryAsync tryGetProjectBuildCache deleteFile
     save set_projectBuildCache set_hadEmptyScript emit initialState
     bind read ret modify throw
     depsFile hasErrors hasWarnings _projectBuildCache hadEmptyScript events
     packageName buildCacheConfiguration commandToRun isIncrementalBuildAllowed
     getPackageDeps tryLoadForProjectAsync projectBuildCache childProcess data code
     tryRestoreFromCacheAsync trySetCacheEntryAsync files arguments
     fst snd andb orb negb message
     trace prelude cacheWrite afterSuccess afterClose fileAfter cacheLookupLines
     outcome restored isPackageUnchanged cacheWriteSuccess errorsWritten
     warningsWritten cacheObject projectBuildDeps lastProjectBuildDeps wroteStderr
     isError isWarning].

Ltac split_atom :=
  match goal with
  | |- context [match ?x with _ => _ end] =>
      first
        [ is_var x; destruct x
        | lazymatch x with
          | bool_decide _ => destruct x eqn:?
          | existsb _ _ => destruct x eqn:?
          | _areShallowEqual _ _ => destruct x eqn:?
          end ]
  end.

Ltac clean_decides :=
  repeat match goal with
         | H : bool_decide _ = true |- _ => apply bool_decide_eq_true in H
         | H : bool_decide _ = false |- _ => apply bool_decide_eq_false in H
         end; simplify_eq.

Ltac run_builder :=
  repeat (reduce_builder;
          rewrite ?terminal_write_run, ?for_of_terminal_write, ?for_of_writeChunk;
          reduce_builder; try split_atom).


Lemma executeAsync_outcome options env file :
  fst (executeAsync options env (initialState file)) = outcome options env file.
Proof.
  destruct options as [pn bcc cmd inc], env as [gpd tl pbc [dat cod]].
  run_builder.
  all: try reflexivity.
  all: repeat match goal with
       | H : bool_decide _ = true |- _ => apply bool_decide_eq_true in H
       | H : bool_decide _ = false |- _ => apply bool_decide_eq_false in H
       end; simplify_eq; try congruence.
Qed.


Lemma executeAsync_effects options env file :
  events (snd (executeAsync options env (initialState file))) = trace options env file
  ∧ depsFile (snd (executeAsync options env (initialState file)))
    = fileAfter options env file.
Proof.
  destruct options as [pn bcc cmd inc], env as [gpd tl pbc [dat cod]].
  unfold trace, prelude, afterClose, afterSuccess, cacheWrite, fileAfter,
    cacheLookupLines.
  run_builder.
  all: split; [|try reflexivity].
  all: rewrite ?app_nil_l, ?app_nil_r, <- ?app_assoc; cbn [app];
    rewrite ?app_nil_r; try reflexivity.
  all: clean_decides; try congruence.
Qed.

Lemma executeAsync_events options env file :
  events (snd (executeAsync options env (initialState file))) = trace options env file.
Proof. apply executeAsync_effects. Qed.

Lemma executeAsync_depsFile options env file :
  depsFile (snd (executeAsync options env (initialState file)))
  = fileAfter options env file.
Proof. apply executeAsync_effects. Qed.

Lemma elem_of_chunks (e : Event) (dat : list (TerminalChunkKind * string)) :
  e ∈ chunk_event <$> dat ↔ ∃ k x, e = WriteChunk k x ∧ (k, x) ∈ dat.
Proof.
  rewrite list_elem_of_fmap. split.
  - intros ([k x] & -> & ?). eauto.
  - intros (k & x & -> & ?). by exists (k, x).
Qed.

Lemma elem_of_lines (v : Severity) (sevs : list Severity) :
  TerminalLine v ∈ TerminalLine <$> sevs ↔ v ∈ sevs.
Proof.
  rewrite list_elem_of_fmap. split; [intros (w & [= ->] & ?); done|eauto].
Qed.

Lemma existsb_isError (sevs : list Severity) :
  existsb isError sevs = true ↔ error ∈ sevs.
Proof.
  rewrite existsb_exists. split.
  - intros ([] & Hin%list_elem_of_In & ?); done.
  - intros Hin. exists error. by rewrite <- list_elem_of_In.
Qed.

Lemma existsb_isWarning (sevs : list Severity) :
  existsb isWarning sevs = true ↔ warning ∈ sevs.
Proof.
  rewrite existsb_exists. split.
  - intros ([] & Hin%list_elem_of_In & ?); done.
  - intros Hin. exists warning. by rewrite <- list_elem_of_In.
Qed.

Lemma wroteStderr_true (env : Environment) :
  wroteStderr env = true ↔ ∃ text, (Stderr, text) ∈ data (childProcess env).
Proof.
  unfold wroteStderr. rewrite existsb_exists. split.
  - intros ([[] x] & Hin%list_elem_of_In & ?); [done|]. eauto.
  - intros (x & Hin). exists (Stderr, x). by rewrite <- list_elem_of_In.
Qed.

Ltac events_facts :=
  repeat (progress rewrite ?elem_of_app, ?elem_of_cons, ?elem_of_nil, ?elem_of_chunks,
            ?elem_of_lines, ?list_elem_of_fmap).

(** Before the decision only the restore and terminal lines happen. *)
Lemma prelude_inv options env file (e : Event) :
  e ∈ prelude options env file → e = RestoreFromCache ∨ ∃ v, e = TerminalLine v.
Proof.
  unfold prelude, cacheLookupLines. events_facts.
  repeat case_match; events_facts; naive_solver.
Qed.

Lemma cacheWrite_inv options env (e : Event) :
  e ∈ cacheWrite options env → e = SetCacheEntry ∨ ∃ v, e = TerminalLine v.
Proof.
  unfold cacheWrite, cacheLookupLines.
  repeat case_match; events_facts; naive_solver.
Qed.

(** The [files] object holds, for a path other than [__proto__], the hash of
    the last entry of the analyzer's map with that path. *)
Lemma files_of_lookup (fileHashes : list (string * string)) (filePath fileHash : string) :
  files_of fileHashes !! filePath = Some fileHash ↔
  filePath ≠ "__proto__"%string
  ∧ ∃ before after,
      fileHashes = before ++ (filePath, fileHash) :: after ∧ filePath ∉ after.*1.
Proof.
  unfold files_of.
  set (step := fun (files : gmap string string) '(p, h) =>
                 if bool_decide (p = "__proto__"%string) then files
                 else <[p := h]> files).
  assert (∀ (l : list (string * string)) (acc : gmap string string),
            foldl step acc l !! filePath = Some fileHash ↔
            (filePath ≠ "__proto__"%string
             ∧ ∃ before after, l = before ++ (filePath, fileHash) :: after
                               ∧ filePath ∉ after.*1)
            ∨ ((filePath = "__proto__"%string ∨ filePath ∉ l.*1)
               ∧ acc !! filePath = Some fileHash)) as Hfold.
  { induction l as [|[p h] l IH]; intros acc; simpl.
    - split.
      + intros ?. right. split; [right; apply not_elem_of_nil|done].
      + intros [(_ & before & after & Hl & _)|[_ ?]]; [by destruct before|done].
    - rewrite IH. split.
      + intros [(Hproto & before & after & -> & Hnot)|[Hnot Hacc]].
        * left. split; [done|]. by exists ((p, h) :: before), after.
        * destruct (decide (filePath = "__proto__"%string)) as [Hproto|Hproto].
          { right. split; [by left|]. revert Hacc. case_bool_decide as Hp; [done|].
            rewrite lookup_insert_ne; [done|congruence]. }
          destruct Hnot as [?|Hnot]; [done|].
          revert Hacc. case_bool_decide as Hp.
          { intros Hacc. right. split; [|done]. right.
            rewrite not_elem_of_cons. split; [congruence|done]. }
          destruct (decide (filePath = p)) as [->|Hne].
          -- rewrite lookup_insert_eq. intros [= ->].
             left. split; [done|]. by exists [], l.
          -- rewrite lookup_insert_ne by done. intros Hacc. right. split; [|done].
             right. rewrite not_elem_of_cons. done.
      + intros [(Hproto & before & after & Hl & Hnot)|[Hnot Hacc]].
        * destruct before as [|x before]; simpl in Hl.
          -- injection Hl as -> -> ->. right. split; [by right|].
             rewrite bool_decide_eq_false_2 by done. by rewrite lookup_insert_eq.
          -- injection Hl as <- ->. left. split; [done|]. by exists before, after.
        * right. destruct Hnot as [Hproto|Hnot].
          -- split; [by left|]. case_bool_decide as Hp; [done|].
             rewrite lookup_insert_ne; [done|congruence].
          -- apply not_elem_of_cons in Hnot as [Hne Hnot]. split; [by right|].
             case_bool_decide as Hp; [done|]. by rewrite lookup_insert_ne. }
  rewrite Hfold, lookup_empty. split; [|by left]. by intros [?|[_ ?]].
Qed.

(** The prior state has no path named like a member of [Object.prototype],
    and the analyzer's map has no path [__proto__]. *)
Definition ordinary_paths (env : Environment) (file : DepsFile) : Prop :=
  (∀ last, file = Holds last → ordinary (files last))
  ∧ (∀ fileHashes,
       getPackageDeps env = Some fileHashes →
       ("__proto__"%string ∉ fileHashes.*1)).

Lemma isPackageUnchanged_true options env file :
  (∀ last, file = Holds last → ordinary (files last)) →
  isPackageUnchanged options env file = true ↔
  ∃ last fileHashes,
    file = Holds last
    ∧ getPackageDeps env = Some fileHashes
    ∧ arguments last = commandToRun options
    ∧ files last = files_of fileHashes.
Proof.
  intros Hord. unfold isPackageUnchanged, lastProjectBuildDeps, projectBuildDeps.
  destruct file as [| |last]; [naive_solver..|].
  destruct (getPackageDeps env) as [fileHashes|]; [|naive_solver]. simpl.
  rewrite andb_true_iff, bool_decide_eq_true, areShallowEqual_true by by apply Hord.
  split.
  - intros [Hargs Hfiles]. by exists last, fileHashes.
  - intros (? & ? & [= <-] & [= <-] & ? & ?). done.
Qed.

(** C4: when the prior state has no path named like a member of
    [Object.prototype] and the analyzer's map has no path [__proto__], a
    [ProjectBuilder] execution ends [Skipped] exactly when no cache restore
    succeeded, a prior build state was loaded, its [arguments] equal the
    command string, its [files] map is the analyzer's file-hash map (a path
    has a hash in the prior state exactly when the analyzer's map gives the
    path that hash), and incremental builds are allowed. *)
Theorem skipped_iff options env file :
  ordinary_paths env file →
  fst (executeAsync options env (initialState file)) = Returned Skipped ↔
  restored options env = false
  ∧ ∃ last fileHashes,
      file = Holds last
      ∧ getPackageDeps env = Some fileHashes
      ∧ arguments last = commandToRun options
      ∧ (∀ filePath fileHash,
           files last !! filePath = Some fileHash ↔
           ∃ before after,
             fileHashes = before ++ (filePath, fileHash) :: after
             ∧ filePath ∉ after.*1)
      ∧ isIncrementalBuildAllowed options = true.
Proof.
  intros [Hord Hproto].
  assert (∀ (last : IProjectBuildDeps) fileHashes,
            getPackageDeps env = Some fileHashes →
            files last = files_of fileHashes ↔
            ∀ filePath fileHash,
              files last !! filePath = Some fileHash ↔
              ∃ before after,
                fileHashes = before ++ (filePath, fileHash) :: after
                ∧ filePath ∉ after.*1) as Hfiles.
  { intros last fileHashes Hdeps.
    assert (∀ filePath fileHash,
              files_of fileHashes !! filePath = Some fileHash ↔
              ∃ before after,
                fileHashes = before ++ (filePath, fileHash) :: after
                ∧ filePath ∉ after.*1) as Hlookup.
    { intros filePath fileHash. rewrite files_of_lookup. split; [tauto|].
      intros (before & after & -> & Hnot). split; [|by eauto].
      intros ->. apply (Hproto _ Hdeps).
      rewrite fmap_app, elem_of_app, fmap_cons, elem_of_cons. simpl. tauto. }
    split.
    - by intros ->.
    - intros H. apply map_eq. intros filePath. apply option_eq. intros fileHash.
      by rewrite H, Hlookup. }
  rewrite executeAsync_outcome. unfold outcome.
  destruct (restored options env); [naive_solver|].
  pose proof (isPackageUnchanged_true options env file Hord) as Hsame.
  destruct (isPackageUnchanged options env file) eqn:E; simpl.
  - destruct (proj1 Hsame eq_refl) as (last & fileHashes & -> & Hdeps & Hargs & Hf).
    destruct (isIncrementalBuildAllowed options) eqn:Hinc.
    + split; [intros _|done]. split; [done|]. exists last, fileHashes.
      split_and!; try done. by apply Hfiles.
    + split; [repeat case_match; done|]. intros (_ & ? & ? & _ & _ & _ & _ & ?). done.
  - split; [repeat case_match; done|].
    intros (_ & last & fileHashes & -> & Hdeps & Hargs & Hf & _). exfalso.
    assert (false = true); [|done]. apply Hsame. exists last, fileHashes.
    split_and!; try done. by apply Hfiles.
Qed.

(** C5, amended: when the builder has a cache object and its restore
    succeeds, the execution ends [FromCache]; the builder then neither writes
    nor deletes the state file, which stays as it was, and spawns no child
    process. *)
Theorem restore_leaves_state_file options env file :
  restored options env = true →
  let r := executeAsync options env (initialState file) in
  fst r = Returned FromCache
  ∧ depsFile (snd r) = file
  ∧ (∀ deps path, SaveJson deps path ∉ events (snd r))
  ∧ (∀ path, DeleteFile path ∉ events (snd r))
  ∧ (∀ command, Spawn command ∉ events (snd r)).
Proof.
  intros Hr r. subst r.
  rewrite executeAsync_outcome, executeAsync_depsFile, executeAsync_events.
  unfold outcome, fileAfter, trace. rewrite Hr, app_nil_r.
  split_and!; try done; intros; by intros [|(v & ?)]%prelude_inv.
Qed.

Lemma afterSuccess_inv options env (e : Event) :
  e ∈ afterSuccess options env →
  (∃ deps, projectBuildDeps options env = Some deps ∧ e = SaveJson deps currentDepsPath)
  ∨ (is_Some (projectBuildDeps options env) ∧ e ∈ cacheWrite options env).
Proof.
  unfold afterSuccess. destruct (projectBuildDeps options env) as [deps|].
  - rewrite elem_of_cons. naive_solver.
  - by intros ?%elem_of_nil.
Qed.

Lemma afterClose_inv options env (e : Event) :
  e ∈ afterClose options env →
  code (childProcess env) = 0 ∧ wroteStderr env = false ∧ e ∈ afterSuccess options env.
Proof.
  unfold afterClose. case_bool_decide as Hc; [by intros ?%elem_of_nil|].
  destruct (wroteStderr env); [by intros ?%elem_of_nil|].
  intros ?. split_and!; [lia|done|done].
Qed.

(** The events of the path that runs the command. *)
Lemma trace_run options env file :
  restored options env = false →
  isPackageUnchanged options env file && isIncrementalBuildAllowed options = false →
  commandToRun options ≠ EmptyString →
  trace options env file =
  prelude options env file
  ++ [DeleteFile currentDepsPath; DeleteFile legacyDepsPath;
      TerminalLine log; Spawn (commandToRun options)]
  ++ (chunk_event <$> data (childProcess env))
  ++ afterClose options env.
Proof.
  intros Hr Hs Hcmd. unfold trace.
  by rewrite Hr, Hs, (bool_decide_eq_false_2 _ Hcmd).
Qed.

(** The command is spawned exactly on the path that neither restores nor
    skips and has a command to run. *)
Lemma spawn_iff options env file command :
  Spawn command ∈ trace options env file ↔
  command = commandToRun options
  ∧ restored options env = false
  ∧ isPackageUnchanged options env file && isIncrementalBuildAllowed options = false
  ∧ commandToRun options ≠ EmptyString.
Proof.
  split.
  - unfold trace. rewrite elem_of_app. intros [Hp|Hb].
    { by apply prelude_inv in Hp as [|[v ?]]. }
    destruct (restored options env); [by apply elem_of_nil in Hb|].
    destruct (_ && _); [by apply elem_of_nil in Hb|].
    revert Hb. case_bool_decide as Hcmd; events_facts.
    + case_match; events_facts; naive_solver.
    + intros H. destruct_or! H; simplify_eq; try done.
      * by destruct H as (? & ? & ? & ?).
      * apply afterClose_inv in H as (_ & _ & H).
        apply afterSuccess_inv in H as [(? & _ & ?)|[_ H]]; [done|].
        by apply cacheWrite_inv in H as [|[? ?]].
  - intros (-> & Hr & Hs & Hcmd). rewrite trace_run by done. events_facts. tauto.
Qed.

(** C6, amended: a task whose command was spawned ends [SuccessWithWarning]
    exactly when the command exited with code zero and either wrote a chunk
    to stderr, or the build state was computed, no error line was written to
    the task's terminal, and the cache write returned false or a warning line
    was written to the task's terminal; in particular never on a non-zero
    exit code. *)
Theorem successWithWarning_iff options env file :
  let r := executeAsync options env (initialState file) in
  Spawn (commandToRun options) ∈ events (snd r) →
  (fst r = Returned SuccessWithWarning ↔
   code (childProcess env) = 0
   ∧ ((∃ text, (Stderr, text) ∈ data (childProcess env))
      ∨ (is_Some (getPackageDeps env)
         ∧ (TerminalLine error ∉ events (snd r))
         ∧ (cacheWriteSuccess options env = Some false
            ∨ TerminalLine warning ∈ events (snd r))))).
Proof.
  intros r. subst r. rewrite <- wroteStderr_true.
  rewrite executeAsync_outcome, !executeAsync_events.
  intros (_ & Hr & Hs & Hcmd)%spawn_iff.
  rewrite trace_run by done.
  unfold outcome, afterClose.
  rewrite Hr, Hs, (bool_decide_eq_false_2 (_ = EmptyString) Hcmd).
  case_bool_decide as Hcode; [naive_solver|].
  assert (code (childProcess env) = 0) as Hzero by lia.
  destruct (wroteStderr env); [naive_solver|].
  unfold afterSuccess, projectBuildDeps, prelude, cacheWrite, cacheWriteSuccess,
    errorsWritten, warningsWritten, cacheLookupLines.
  destruct (getPackageDeps env) as [fileHashes|];
    [|split; [done|]; intros (_ & [|([x ?] & _)]); done].
  destruct (cacheObject options env) as [[[r rs] [w ws]]|]; simpl.
  - set (l := _ ++ _).
    assert (TerminalLine error ∈ l ↔ error ∈ rs ∨ error ∈ ws) as ->.
    { subst l. destruct file; events_facts; naive_solver. }
    assert (TerminalLine warning ∈ l ↔
            file = Unparsable ∨ warning ∈ rs ∨ warning ∈ ws) as ->.
    { subst l. destruct file; events_facts; naive_solver. }
    rewrite <- !existsb_isError, <- !existsb_isWarning, <- !orb_true_iff.
    assert (is_Some (Some fileHashes)) by eauto.
    destruct (existsb isError rs || existsb isError ws),
      (existsb isWarning rs || existsb isWarning ws), w, file; simpl;
      intuition congruence.
  - set (l := _ ++ _).
    assert (TerminalLine error ∉ l) as Herr.
    { subst l. destruct file; events_facts; repeat case_match; events_facts;
        naive_solver. }
    assert (TerminalLine warning ∈ l ↔ file = Unparsable) as ->.
    { subst l. destruct file; events_facts; repeat case_match; events_facts;
        naive_solver. }
    assert (is_Some (Some fileHashes)) by eauto.
    destruct file; simpl; intuition congruence.
Qed.

Lemma save_iff options env file deps path :
  SaveJson deps path ∈ trace options env file →
  projectBuildDeps options env = Some deps ∧ path = currentDepsPath
  ∧ restored options env = false
  ∧ isPackageUnchanged options env file && isIncrementalBuildAllowed options = false.
Proof.
  unfold trace. rewrite elem_of_app. intros [Hp|Hb].
  { by apply prelude_inv in Hp as [|[v ?]]. }
  destruct (restored options env); [by apply elem_of_nil in Hb|].
  destruct (_ && _); [by apply elem_of_nil in Hb|].
  revert Hb. case_bool_decide as Hcmd; events_facts.
  - case_match; events_facts; naive_solver.
  - intros H. destruct_or! H; simplify_eq; try done.
    + by destruct H as (? & ? & ? & ?).
    + apply afterClose_inv in H as (_ & _ & H).
      apply afterSuccess_inv in H as [(? & ? & ?)|[_ H]]; [naive_solver|].
      by apply cacheWrite_inv in H as [|[? ?]].
Qed.

(** C7, amended: executing a task whose command string is empty spawns no
    child process; unless the execution ends [FromCache] or [Skipped], it ends
    [Success], and then the computed build state is written to the state file
    when the change analyzer produced one, and nothing is written
    otherwise. *)
Theorem empty_command options env file :
  commandToRun options = EmptyString →
  let r := executeAsync options env (initialState file) in
  (∀ command, Spawn command ∉ events (snd r))
  ∧ (fst r ≠ Returned FromCache → fst r ≠ Returned Skipped →
     fst r = Returned Success
     ∧ match getPackageDeps env with
       | Some fileHashes =>
           SaveJson (mkDeps (files_of fileHashes) EmptyString) currentDepsPath
             ∈ events (snd r)
           ∧ depsFile (snd r) = Holds (mkDeps (files_of fileHashes) EmptyString)
       | None =>
           (∀ deps path, SaveJson deps path ∉ events (snd r))
           ∧ depsFile (snd r) = Absent
       end).
Proof.
  intros Hcmd r. subst r.
  rewrite executeAsync_outcome, executeAsync_depsFile, executeAsync_events.
  split.
  { intros command (_ & _ & _ & ?)%spawn_iff. done. }
  unfold outcome, fileAfter.
  destruct (restored options env) eqn:Hr; [done|].
  destruct (_ && _) eqn:Hs; [done|].
  rewrite (bool_decide_eq_true_2 _ Hcmd). intros _ _. split; [done|].
  unfold trace. rewrite Hr, Hs, (bool_decide_eq_true_2 _ Hcmd).
  unfold projectBuildDeps. rewrite Hcmd.
  destruct (getPackageDeps env) as [fileHashes|]; events_facts.
  - split; [|done]. tauto.
  - split; [|done]. intros deps path [|H]%elem_of_app.
    + by apply prelude_inv in H as [|[? ?]].
    + revert H. events_facts. naive_solver.
Qed.

(** C9: when the change analyzer throws, the execution ends neither
    [Skipped] nor [FromCache]; a non-empty command is spawned and all its
    output is passed on; a zero exit gives [Success] or [SuccessWithWarning];
    no state file is written, no cache entry is stored, and the state file is
    absent afterwards. *)
Theorem analyzer_failure_is_not_fatal options env file :
  getPackageDeps env = None →
  let r := executeAsync options env (initialState file) in
  fst r ≠ Returned Skipped
  ∧ fst r ≠ Returned FromCache
  ∧ (commandToRun options ≠ EmptyString →
     Spawn (commandToRun options) ∈ events (snd r)
     ∧ ∀ kind text, (kind, text) ∈ data (childProcess env) →
                    WriteChunk kind text ∈ events (snd r))
  ∧ (code (childProcess env) = 0 →
     fst r = Returned Success ∨ fst r = Returned SuccessWithWarning)
  ∧ (∀ deps path, SaveJson deps path ∉ events (snd r))
  ∧ (SetCacheEntry ∉ events (snd r))
  ∧ depsFile (snd r) = Absent.
Proof.
  intros Hdeps r. subst r.
  rewrite executeAsync_outcome, executeAsync_depsFile, executeAsync_events.
  assert (cacheObject options env = None) as Hcache.
  { unfold cacheObject. rewrite Hdeps. by destruct (_ && _). }
  assert (restored options env = false) as Hr.
  { unfold restored. by rewrite Hcache. }
  assert (isPackageUnchanged options env file = false) as Hs.
  { unfold isPackageUnchanged, projectBuildDeps. rewrite Hdeps. by destruct (lastProjectBuildDeps file). }
  assert (projectBuildDeps options env = None) as Hp.
  { unfold projectBuildDeps. by rewrite Hdeps. }
  unfold outcome, fileAfter. rewrite Hr, Hs, Hp. simpl.
  split_and!.
  - repeat case_match; done.
  - repeat case_match; done.
  - intros Hcmd. rewrite trace_run by (try done; by rewrite Hs).
    split; [events_facts; tauto|]. intros kind text Hin. events_facts. eauto 10.
  - intros Hzero. rewrite (bool_decide_eq_false_2 (_ ≠ 0)) by lia.
    repeat case_match; eauto.
  - intros deps path (? & _)%save_iff. congruence.
  - unfold trace. rewrite Hr, Hs. simpl. intros [H|H]%elem_of_app.
    + by apply prelude_inv in H as [|[? ?]].
    + revert H. case_bool_decide; rewrite ?Hp; events_facts; [naive_solver|].
      intros H'. destruct_or! H'; simplify_eq; try done.
      * by destruct H' as (? & ? & ? & ?).
      * apply afterClose_inv in H' as (_ & _ & H'). unfold afterSuccess in H'.
        rewrite Hp in H'. by apply elem_of_nil in H'.
  - repeat case_match; done.
Qed.

(** *** Sample executions *)

Definition sample_fileHashes : list (string * string) :=
  [("src/index.ts"%string, "a1b2"%string); ("package.json"%string, "c3d4"%string)].

(** A project with a build cache whose restore succeeds. *)
Definition cached_options : IProjectBuilderOptions := mkOptions "demo" true "build" true.
Definition cached_env : Environment :=
  mkEnvironment (Some sample_fileHashes) true
    (Some (mkCache (true, []) (true, []))) (mkChild [] 0).

(** A project without a cache whose command exits zero and writes to stdout
    only. *)
Definition plain_options : IProjectBuilderOptions := mkOptions "demo" false "build" true.
Definition plain_env : Environment :=
  mkEnvironment (Some sample_fileHashes) false None (mkChild [(Stdout, "done"%string)] 0).

(** A project without the script, built before with the same files. *)
Definition empty_options : IProjectBuilderOptions := mkOptions "demo" false "" true.
Definition empty_env : Environment :=
  mkEnvironment (Some sample_fileHashes) false None (mkChild [] 0).
Definition empty_file : DepsFile := Holds (mkDeps (files_of sample_fileHashes) "").

(** A project on which the change analyzer throws. *)
Definition unanalyzed_env : Environment :=
  mkEnvironment None true (Some (mkCache (true, []) (true, []))) (mkChild [(Stdout, "done"%string)] 0).

Ltac compute_events :=
  repeat match goal with
         | |- _ ∧ _ => split
         | |- ∀ _, _ => intro
         | |- ¬ _ => intro
         | H : _ ∈ _ |- _ => apply list_elem_of_In in H; vm_compute in H
         | |- _ ∈ _ => apply list_elem_of_In; vm_compute
         end;
  try (vm_compute; reflexivity); try intuition discriminate.

(** C5, counterexample: the restore succeeds and the execution ends
    [FromCache], yet the state file is still absent and no write of it
    happened. *)
Lemma restore_writes_no_state_file :
  let r := executeAsync cached_options cached_env (initialState Absent) in
  restored cached_options cached_env = true
  ∧ fst r = Returned FromCache
  ∧ depsFile (snd r) = Absent
  ∧ ¬ (∃ deps, SaveJson deps currentDepsPath ∈ events (snd r)).
Proof.
  split_and!; try (vm_compute; reflexivity).
  intros [deps H]. compute_events.
Qed.

(** C6, counterexample: with an unparsable state file the command exits zero
    and writes nothing to stderr, no cache write takes place, and the
    execution ends [SuccessWithWarning]. *)
Lemma warning_without_stderr_or_cache_failure :
  let r := executeAsync plain_options plain_env (initialState Unparsable) in
  Spawn (commandToRun plain_options) ∈ events (snd r)
  ∧ fst r = Returned SuccessWithWarning
  ∧ ¬ (code (childProcess plain_env) = 0
       ∧ ((∃ text, (Stderr, text) ∈ data (childProcess plain_env))
          ∨ cacheWriteSuccess plain_options plain_env = Some false)).
Proof.
  split_and!; [compute_events|vm_compute; reflexivity|].
  intros (_ & [[text H]|H]); [compute_events|vm_compute in H; discriminate].
Qed.

(** C7, counterexample: an empty command on an unchanged project ends
    [Skipped], not [Success], and writes no state. *)
Lemma empty_command_is_skipped_when_unchanged :
  let r := executeAsync empty_options empty_env (initialState empty_file) in
  commandToRun empty_options = EmptyString
  ∧ fst r = Returned Skipped
  ∧ ¬ (∃ deps, SaveJson deps currentDepsPath ∈ events (snd r)).
Proof.
  split_and!; try (vm_compute; reflexivity).
  intros [deps H]. compute_events.
Qed.

(** The sample paths are no names of members of [Object.prototype]. *)
Lemma ordinary_sample : ordinary (files_of sample_fileHashes).
Proof.
  intros n [v Hn]. apply files_of_lookup in Hn as (_ & before & after & Hl & _).
  assert (n ∈ sample_fileHashes.*1) as Hin.
  { rewrite Hl, fmap_app, elem_of_app, fmap_cons, elem_of_cons. simpl. tauto. }
  apply list_elem_of_In in Hin. intros Hp%list_elem_of_In.
  vm_compute in Hin, Hp. intuition (subst; discriminate).
Defined.

Lemma ordinary_paths_sample : ordinary_paths empty_env empty_file.
Proof.
  split.
  - intros last [= <-]. exact ordinary_sample.
  - intros fileHashes [= <-] Hin%list_elem_of_In.
    vm_compute in Hin. intuition discriminate.
Defined.

Lemma skipped_iff_witness :
  ordinary_paths empty_env empty_file
  ∧ (fst (executeAsync empty_options empty_env (initialState empty_file))
     = Returned Skipped ↔
     restored empty_options empty_env = false
     ∧ ∃ last fileHashes,
         empty_file = Holds last
         ∧ getPackageDeps empty_env = Some fileHashes
         ∧ arguments last = commandToRun empty_options
         ∧ (∀ filePath fileHash,
              files last !! filePath = Some fileHash ↔
              ∃ before after,
                fileHashes = before ++ (filePath, fileHash) :: after
                ∧ filePath ∉ after.*1)
         ∧ isIncrementalBuildAllowed empty_options = true).
Proof.
  split; [exact ordinary_paths_sample|].
  exact (skipped_iff empty_options empty_env empty_file ordinary_paths_sample).
Defined.

Lemma restore_leaves_state_file_witness :
  restored cached_options cached_env = true
  ∧ let r := executeAsync cached_options cached_env (initialState Unparsable) in
    fst r = Returned FromCache
    ∧ depsFile (snd r) = Unparsable
    ∧ (∀ deps path, SaveJson deps path ∉ events (snd r))
    ∧ (∀ path, DeleteFile path ∉ events (snd r))
    ∧ (∀ command, Spawn command ∉ events (snd r)).
Proof.
  split; [reflexivity|].
  apply (restore_leaves_state_file cached_options cached_env Unparsable). reflexivity.
Defined.

Lemma successWithWarning_iff_witness :
  let r := executeAsync plain_options plain_env (initialState Unparsable) in
  Spawn (commandToRun plain_options) ∈ events (snd r)
  ∧ (fst r = Returned SuccessWithWarning ↔
     code (childProcess plain_env) = 0
     ∧ ((∃ text, (Stderr, text) ∈ data (childProcess plain_env))
        ∨ (is_Some (getPackageDeps plain_env)
           ∧ (TerminalLine error ∉ events (snd r))
           ∧ (cacheWriteSuccess plain_options plain_env = Some false
              ∨ TerminalLine warning ∈ events (snd r))))).
Proof.
  assert (Spawn (commandToRun plain_options)
          ∈ events (snd (executeAsync plain_options plain_env (initialState Unparsable))))
    as Hspawn.
  { apply list_elem_of_In. vm_compute. tauto. }
  split; [exact Hspawn|].
  exact (successWithWarning_iff plain_options plain_env Unparsable Hspawn).
Defined.

Lemma empty_command_witness :
  commandToRun empty_options = EmptyString
  ∧ let r := executeAsync empty_options empty_env (initialState Absent) in
    (∀ command, Spawn command ∉ events (snd r))
    ∧ (fst r ≠ Returned FromCache → fst r ≠ Returned Skipped →
       fst r = Returned Success
       ∧ SaveJson (mkDeps (files_of sample_fileHashes) EmptyString) currentDepsPath
           ∈ events (snd r)
       ∧ depsFile (snd r) = Holds (mkDeps (files_of sample_fileHashes) EmptyString)).
Proof.
  split; [reflexivity|].
  apply (empty_command empty_options empty_env Absent). reflexivity.
Defined.

Lemma analyzer_failure_is_not_fatal_witness :
  getPackageDeps unanalyzed_env = None
  ∧ let r := executeAsync cached_options unanalyzed_env (initialState empty_file) in
    fst r ≠ Returned Skipped
    ∧ fst r ≠ Returned FromCache
    ∧ (commandToRun cached_options ≠ EmptyString →
       Spawn (commandToRun cached_options) ∈ events (snd r)
       ∧ ∀ kind text, (kind, text) ∈ data (childProcess unanalyzed_env) →
                      WriteChunk kind text ∈ events (snd r))
    ∧ (code (childProcess unanalyzed_env) = 0 →
       fst r = Returned Success ∨ fst r = Returned SuccessWithWarning)
    ∧ (∀ deps path, SaveJson deps path ∉ events (snd r))
    ∧ (SetCacheEntry ∉ events (snd r))
    ∧ depsFile (snd r) = Absent.
Proof.
  split; [reflexivity|].
  apply (analyzer_failure_is_not_fatal cached_options unanalyzed_env empty_file).
  reflexivity.
Defined.

End ProjectBuilderFacts.

(** ** TaskSelector: the registered projects *)

Module TaskSelectorFacts.
Import TaskSelector.

Lemma for_of_ext {S A : Type} (f g : A → M S unit) (items : list A) (s : S) :
  (∀ x s, x ∈ items → f x s = g x s) → for_of items f s = for_of items g s.
Proof.
  revert s. induction items as [|x items IH]; intros s Hfg; [done|].
  rewrite !for_of_cons, Hfg by apply list_elem_of_here.
  destruct (g x s) as [[[]|?|] ?]; try done.
  apply IH. intros ? ? ?. by apply Hfg, list_elem_of_further.
Qed.

(** *** The two traversals *)

(** The shape shared by [_collectAllDependencies] and [_collectAllDependents]:
    [successors] gives the projects to visit from a project. *)
Fixpoint collect (successors : string → list string) (fuel : nat) (project : string)
    {struct fuel} : M (list string) unit :=
  match fuel with
  | O => outOfFuel
  | S fuel' =>
      let* seen := read (fun result => bool_decide (project ∈ result)) in
      if seen : bool then ret tt
      else
        modify (fun result => result ++ [project]) ;;
        for_of (successors project) (collect successors fuel')
  end.

Lemma collectAllDependencies_collect (cfg : RushConfiguration) (fuel : nat)
    (project : string) (result : list string) :
  _collectAllDependencies fuel cfg project result
  = collect (localDependencyProjects_of cfg) fuel project result.
Proof.
  revert project result. induction fuel as [|fuel IH]; intros project result; [done|].
  simpl. unfold bind, read, modify. case_bool_decide; [done|].
  apply for_of_ext. intros. apply IH.
Qed.

Lemma collectAllDependents_collect (dependentList : gmap string (list string))
    (fuel : nat) (project : string) (result : list string) :
  _collectAllDependents fuel dependentList project result
  = collect (fun p => default [] (dependentList !! p)) fuel project result.
Proof.
  revert project result. induction fuel as [|fuel IH]; intros project result; [done|].
  simpl. unfold bind, read, modify. case_bool_decide; [done|].
  apply for_of_ext. intros. apply IH.
Qed.

Section Collect.
Variable successors : string → list string.

Definition edge (x y : string) : Prop := y ∈ successors x.

Lemma collect_S (fuel : nat) (project : string) (result : list string) :
  collect successors (S fuel) project result =
  if decide (project ∈ result) then (Returned tt, result)
  else for_of (successors project) (collect successors fuel) (result ++ [project]).
Proof.
  simpl. unfold bind, read, modify, ret. case_bool_decide.
  - by rewrite decide_True.
  - by rewrite decide_False.
Qed.

(** What a loop of traversals from [roots] adds to [result]. *)
Definition collected (roots : list string) (result result' : list string) : Prop :=
  (∀ x, x ∈ result → x ∈ result')
  ∧ (∀ r, r ∈ roots → r ∈ result')
  ∧ (∀ x, x ∈ result' → x ∈ result ∨ ∃ r, r ∈ roots ∧ rtc edge r x)
  ∧ (∀ x y, x ∈ result' → x ∉ result → edge x y → y ∈ result')
  ∧ (NoDup result → NoDup result').

Lemma collected_loop (fuel : nat) :
  (∀ p r r', collect successors fuel p r = (Returned tt, r') → collected [p] r r') →
  ∀ roots r r',
    for_of roots (collect successors fuel) r = (Returned tt, r') →
    collected roots r r'.
Proof.
  intros Hone. induction roots as [|p roots IH]; intros r r' Hrun.
  - injection Hrun as <-. split_and!; try done; [by intros ? ?%elem_of_nil|eauto].
  - rewrite for_of_cons in Hrun.
    destruct (collect successors fuel p r) as [[[]| |] r1] eqn:E; try done.
    apply Hone in E as (Hsub1 & Hroot1 & Hreach1 & Hclosed1 & Hnd1).
    apply IH in Hrun as (Hsub2 & Hroot2 & Hreach2 & Hclosed2 & Hnd2).
    split_and!.
    + eauto.
    + intros x [->|Hx]%elem_of_cons; [|by apply Hroot2].
      apply Hsub2, Hroot1, list_elem_of_here.
    + intros x [Hx|(x' & Hx' & Hrtc)]%Hreach2.
      * destruct (Hreach1 x Hx) as [?|(x' & Hx'%list_elem_of_singleton & ?)];
          [by left|]. subst x'.
        right. exists p. split; [apply list_elem_of_here|done].
      * right. exists x'. split; [by apply list_elem_of_further|done].
    + intros x y Hx Hnot Hedge.
      destruct (decide (x ∈ r1)) as [Hin|Hnin]; [|by eapply Hclosed2].
      apply Hsub2. by eapply Hclosed1.
    + eauto.
Qed.

Lemma collected_one (fuel : nat) :
  ∀ p r r', collect successors fuel p r = (Returned tt, r') → collected [p] r r'.
Proof.
  induction fuel as [|fuel IH]; intros p r r' Hrun; [done|].
  rewrite collect_S in Hrun. destruct (decide (p ∈ r)) as [Hin|Hnin].
  - injection Hrun as <-. split_and!; try done; [|eauto].
    by intros ? ->%list_elem_of_singleton.
  - apply (collected_loop fuel IH) in Hrun as (Hsub & Hroot & Hreach & Hclosed & Hnd).
    assert (p ∈ r') as Hp by (apply Hsub, elem_of_app; right; apply list_elem_of_here).
    split_and!.
    + intros x Hx. apply Hsub, elem_of_app. by left.
    + by intros ? ->%list_elem_of_singleton.
    + intros x [[?| ->%list_elem_of_singleton]%elem_of_app|(d & Hd & Hrtc)]%Hreach.
      * by left.
      * right. exists p. split; [apply list_elem_of_here|done].
      * right. exists p. split; [apply list_elem_of_here|]. by eapply rtc_l.
    + intros x y Hx Hnot Hedge. destruct (decide (x = p)) as [->|Hne].
      * by apply Hroot.
      * eapply Hclosed; [done| |done]. rewrite elem_of_app, list_elem_of_singleton.
        tauto.
    + intros Hr. apply Hnd, NoDup_app. split_and!; [done| |apply NoDup_singleton].
      by intros x Hx ->%list_elem_of_singleton.
Qed.

(** Traversals from [roots] into an empty result collect exactly what is
    reachable from [roots]. *)
Lemma collected_closure (fuel : nat) (roots result : list string) :
  for_of roots (collect successors fuel) [] = (Returned tt, result) →
  NoDup result ∧ ∀ x, x ∈ result ↔ ∃ r, r ∈ roots ∧ rtc edge r x.
Proof.
  intros (_ & Hroot & Hreach & Hclosed & Hnd)%(collected_loop fuel (collected_one fuel)).
  split; [apply Hnd, NoDup_nil_2|]. intros x. split.
  - intros [[]%elem_of_nil|?]%Hreach. done.
  - intros (r & Hr & Hrtc). apply Hroot in Hr.
    induction Hrtc as [|x y z Hxy _ IH]; [done|].
    apply IH. eapply Hclosed; [done|apply not_elem_of_nil|done].
Qed.

Lemma collect_never_throws (fuel : nat) :
  ∀ p r e r', collect successors fuel p r ≠ (Threw e, r').
Proof.
  induction fuel as [|fuel IH]; intros p r e r'; [done|].
  rewrite collect_S. destruct (decide _); [done|].
  generalize (r ++ [p]). induction (successors p) as [|d ds IHds]; intros r0; [done|].
  rewrite for_of_cons. destruct (collect successors fuel d r0) as [[[]|e'|] r1] eqn:E;
    try done. by apply IH in E.
Qed.

(** With more fuel than unvisited projects the traversal does not run out. *)
Lemma collect_returns (universe : gset string) (fuel : nat) :
  (∀ x y, x ∈ universe → edge x y → y ∈ universe) →
  ∀ p r, p ∈ universe →
    (size (universe ∖ list_to_set r) < fuel)%nat →
    ∃ r', collect successors fuel p r = (Returned tt, r').
Proof.
  intros Hclosed. induction fuel as [|fuel IH]; intros p r Hp Hsize; [lia|].
  rewrite collect_S. destruct (decide (p ∈ r)) as [Hin|Hnin]; [eauto|].
  assert (size (universe ∖ list_to_set (r ++ [p])) < fuel)%nat as Hsize'.
  { assert (universe ∖ list_to_set (r ++ [p]) ⊂ universe ∖ list_to_set r)
      as Hlt%subset_size; [|lia].
    rewrite list_to_set_app_L. set_solver. }
  assert (∀ ds r0, (∀ d, d ∈ ds → d ∈ universe) →
            (size (universe ∖ list_to_set r0) < fuel)%nat →
            ∃ r', for_of ds (collect successors fuel) r0 = (Returned tt, r'))
    as Hloop.
  { induction ds as [|d ds IHds]; intros r0 Hds Hr0; [by eexists|].
    rewrite for_of_cons.
    destruct (IH d r0) as [r1 Hrun]; [apply Hds, list_elem_of_here|done|].
    rewrite Hrun. apply IHds; [by intros ? ?; apply Hds, list_elem_of_further|].
    apply collected_one in Hrun as (Hsub & _).
    eapply Nat.le_lt_trans; [|exact Hr0]. apply subseteq_size. set_solver. }
  apply Hloop; [|done]. intros d Hd. by eapply Hclosed.
Qed.

Lemma collect_loop_returns (universe : gset string) (fuel : nat) (roots : list string) :
  (∀ x y, x ∈ universe → edge x y → y ∈ universe) →
  (∀ r, r ∈ roots → r ∈ universe) →
  (size universe < fuel)%nat →
  ∃ result, for_of roots (collect successors fuel) [] = (Returned tt, result).
Proof.
  intros Hclosed Hroots Hsize.
  assert (size (universe ∖ list_to_set (@nil string)) < fuel)%nat as Hsize'.
  { eapply Nat.le_lt_trans; [|exact Hsize]. apply subseteq_size. set_solver. }
  revert Hsize'. generalize (@nil string).
  induction roots as [|p roots IH]; intros r0 Hr0; [by eexists|].
  rewrite for_of_cons.
  destruct (collect_returns universe fuel Hclosed p r0) as [r1 Hrun];
    [apply Hroots, list_elem_of_here|done|].
  rewrite Hrun. apply IH; [by intros ? ?; apply Hroots, list_elem_of_further|].
  apply collected_one in Hrun as (Hsub & _).
  eapply Nat.le_lt_trans; [|exact Hr0]. apply subseteq_size. set_solver.
Qed.

End Collect.

(** *** Selection *)

(** [a] depends on [b]: [b] is among the local dependency projects of [a]. *)
Definition projectDependsOn (cfg : RushConfiguration) (a b : string) : Prop :=
  b ∈ localDependencyProjects_of cfg a.

(** The projects of [roots] and everything they depend on. *)
Definition upstream (cfg : RushConfiguration) (roots : list string) (p : string) : Prop :=
  ∃ r, r ∈ roots ∧ rtc (projectDependsOn cfg) r p.

(** The projects of [roots] and everything that depends on them. *)
Definition downstream (cfg : RushConfiguration) (roots : list string) (p : string)
    : Prop :=
  ∃ r, r ∈ roots ∧ rtc (projectDependsOn cfg) p r.

(** The projects that the selector is to register. *)
Definition selected (options : ITaskSelectorConstructor) (p : string) : Prop :=
  if decide (toProjects options = [] ∧ fromProjects options = [])
  then p ∈ packageNames (rushConfiguration options)
  else upstream (rushConfiguration options) (toProjects options) p
       ∨ downstream (rushConfiguration options) (fromProjects options) p.

(** A configuration as Rush loads it: package names are unique, local
    dependencies and the selected projects are projects of the
    configuration. *)
Record wf_selector (options : ITaskSelectorConstructor) : Prop := mk_wf_selector {
  wf_packageNames : NoDup (packageNames (rushConfiguration options));
  wf_localDependencies :
    ∀ p d, d ∈ localDependencyProjects_of (rushConfiguration options) p →
           d ∈ packageNames (rushConfiguration options);
  wf_toProjects :
    ∀ p, p ∈ toProjects options → p ∈ packageNames (rushConfiguration options);
  wf_fromProjects :
    ∀ p, p ∈ fromProjects options → p ∈ packageNames (rushConfiguration options)
}.

Lemma project_of_Some (cfg : RushConfiguration) (n : string)
    (project : RushConfigurationProject) :
  project_of cfg n = Some project → project ∈ cfg ∧ packageName project = n.
Proof.
  unfold project_of. intros [Hin Hn%bool_decide_eq_true]%find_some.
  by rewrite list_elem_of_In.
Qed.

Lemma project_of_elem (cfg : RushConfiguration) (project : RushConfigurationProject) :
  NoDup (packageNames cfg) → project ∈ cfg →
  project_of cfg (packageName project) = Some project.
Proof.
  unfold project_of, packageNames. induction cfg as [|x cfg IH]; csimpl.
  - by intros _ ?%elem_of_nil.
  - intros [Hx Hnd]%NoDup_cons [->|Hin]%elem_of_cons.
    + by rewrite bool_decide_eq_true_2.
    + case_bool_decide as Heq; [|by apply IH].
      exfalso. apply Hx. rewrite Heq. by apply list_elem_of_fmap_2.
Qed.

Lemma project_of_registered (cfg : RushConfiguration) (n : string) :
  n ∈ packageNames cfg → ∃ project, project_of cfg n = Some project.
Proof.
  unfold project_of, packageNames. induction cfg as [|x cfg IH]; csimpl.
  - by intros ?%elem_of_nil.
  - intros [->|Hin]%elem_of_cons.
    + rewrite bool_decide_eq_true_2 by done. eauto.
    + case_bool_decide; eauto.
Qed.

Lemma localDependencyProjects_of_elem (cfg : RushConfiguration)
    (project : RushConfigurationProject) :
  NoDup (packageNames cfg) → project ∈ cfg →
  localDependencyProjects_of cfg (packageName project) = localDependencyProjects project.
Proof.
  intros Hnd Hin. unfold localDependencyProjects_of. by rewrite project_of_elem.
Qed.

(** The dependent graph holds, for a project, the projects of the
    configuration that list it among their local dependencies. *)
Lemma elem_of_getDependentGraph (cfg : RushConfiguration) (p d : string) :
  d ∈ default [] (_getDependentGraph cfg !! p) ↔
  ∃ project, project ∈ cfg ∧ packageName project = d
             ∧ p ∈ localDependencyProjects project.
Proof.
  unfold _getDependentGraph.
  assert (∀ (n : string) (deps : list string) (acc : gmap string (list string)),
            d ∈ default [] (foldl (fun dependentList dependency =>
                    <[dependency := set_add n (default [] (dependentList !! dependency))]>
                      dependentList) acc deps !! p)
            ↔ d ∈ default [] (acc !! p) ∨ (d = n ∧ p ∈ deps)) as Hinner.
  { intros n deps. induction deps as [|dep deps IH]; intros acc; simpl.
    - rewrite elem_of_nil. tauto.
    - rewrite IH, elem_of_cons. destruct (decide (p = dep)) as [->|Hne].
      + rewrite lookup_insert_eq. simpl.
        rewrite TaskCollectionFacts.elem_of_set_add. tauto.
      + rewrite lookup_insert_ne by done. naive_solver. }
  assert (∀ (projects : list RushConfigurationProject) (acc : gmap string (list string)),
            d ∈ default [] (foldl (fun dependentList project =>
                    foldl (fun dependentList dependency =>
                      <[dependency := set_add (packageName project)
                                        (default [] (dependentList !! dependency))]>
                        dependentList) dependentList (localDependencyProjects project))
                    acc projects !! p)
            ↔ d ∈ default [] (acc !! p)
              ∨ ∃ project, project ∈ projects ∧ packageName project = d
                           ∧ p ∈ localDependencyProjects project) as Houter.
  { induction projects as [|x projects IH]; intros acc; simpl.
    - split; [by left|]. intros [?|(? & []%elem_of_nil & _)]. done.
    - rewrite IH, Hinner. split.
      + intros [[?|[? ?]]|(y & ? & ? & ?)]; [by left| |].
        * right. exists x. split_and!; [apply list_elem_of_here|done|done].
        * right. exists y. split_and!; [by apply list_elem_of_further|done|done].
      + intros [?|(y & [->|?]%elem_of_cons & ? & ?)]; [by left; left| |].
        * left. right. done.
        * right. by exists y. }
  rewrite Houter, lookup_empty. simpl. rewrite elem_of_nil. tauto.
Qed.

Lemma getDependentGraph_dependsOn (cfg : RushConfiguration) (p d : string) :
  NoDup (packageNames cfg) →
  d ∈ default [] (_getDependentGraph cfg !! p) ↔ projectDependsOn cfg d p.
Proof.
  intros Hnd. rewrite elem_of_getDependentGraph. unfold projectDependsOn. split.
  - intros (project & Hin & <- & Hp). by rewrite localDependencyProjects_of_elem.
  - unfold localDependencyProjects_of.
    destruct (project_of cfg d) as [project|] eqn:E; [|by intros ?%elem_of_nil].
    apply project_of_Some in E as [? ?]. eauto.
Qed.

Lemma rtc_flip (R : relation string) (x y : string) : rtc (flip R) x y ↔ rtc R y x.
Proof.
  split.
  - induction 1 as [|x y z H _ IH]; [done|]. by eapply rtc_r.
  - induction 1 as [|x y z H _ IH]; [done|]. by eapply rtc_r.
Qed.

Lemma rtc_iff (R R' : relation string) (x y : string) :
  (∀ a b, R a b ↔ R' a b) → rtc R x y ↔ rtc R' x y.
Proof.
  intros HR. split; induction 1 as [|a b c H _ IH]; try done;
    (eapply rtc_l; [by apply HR|done]).
Qed.

(** *** Registration *)

Section Register.
Variable win32 : bool.
Variable convertSlashesForWindows : string → string.
Variable options : ITaskSelectorConstructor.

(** The error of [_getScriptToRun] for a project without the script. *)
Definition missingScript (project : RushConfigurationProject) : Error :=
  mkError ("The project [" +:+ packageName project +:+
           "] does not define a '" +:+ commandToRun options +:+
           "' command in the 'scripts' section of its package.json").

Abbreviation registerTask := (_registerTask win32 convertSlashesForWindows options).

Lemma registerTask_cases (project : RushConfigurationProject) (c : TaskCollection.t) :
  (∃ c', registerTask (Some project) c = (Returned tt, c')
         ∧ ∀ x, x ∈ TaskCollection.names c' ↔
                x ∈ TaskCollection.names c ∨ x = packageName project)
  ∨ (registerTask (Some project) c = (Threw (missingScript project), c)
     ∧ _getScriptCommand project (commandToRun options) = None
     ∧ ignoreMissingScript options = false).
Proof.
  unfold _registerTask, _getScriptToRun, TaskCollection.addTask, bind, read, ret,
    throw, modify.
  destruct (TaskCollection.hasTask c (packageName project)) eqn:Hhas.
  { left. exists c. split; [done|]. apply TaskCollectionFacts.hasTask_true in Hhas.
    intros x. split; [by left|]. by intros [?| ->]. }
  assert (∀ x, x ∈ TaskCollection.names
                     (c ++ [mkTask (packageName project) Ready [] [] None])
               ↔ x ∈ TaskCollection.names c ∨ x = packageName project) as Hnames.
  { intros x. unfold TaskCollection.names.
    rewrite fmap_app, elem_of_app. simpl.
    split; (intros [?|?]; [by left|right]).
    - by apply list_elem_of_singleton.
    - subst. apply list_elem_of_here. }
  destruct (_getScriptCommand project (commandToRun options)) as [script|].
  - left. case_bool_decide; rewrite Hhas; eauto.
  - destruct (ignoreMissingScript options).
    + left. rewrite Hhas. eauto.
    + right. done.
Qed.

(** A loop of registrations either registers every project of the list or
    throws for a project of the list that lacks the script. *)
Lemma register_loop {A : Type} (f : A → option RushConfigurationProject)
    (items : list A) (c : TaskCollection.t) :
  match for_of items (fun i => registerTask (f i)) c with
  | (Returned _, c') =>
      ∀ x, x ∈ TaskCollection.names c' ↔
           x ∈ TaskCollection.names c
           ∨ ∃ i project, i ∈ items ∧ f i = Some project ∧ packageName project = x
  | (Threw e, _) =>
      ∃ i project, i ∈ items ∧ f i = Some project
                   ∧ _getScriptCommand project (commandToRun options) = None
                   ∧ ignoreMissingScript options = false
                   ∧ e = missingScript project
  | (OutOfFuel, _) => False
  end.
Proof.
  revert c. induction items as [|i items IH]; intros c.
  - simpl. intros x. split; [by left|]. by intros [?|(? & ? & []%elem_of_nil & _)].
  - rewrite for_of_cons. destruct (f i) as [project|] eqn:Hf.
    + destruct (registerTask_cases project c) as [(c1 & -> & Hnames)|(-> & ? & ?)].
      * specialize (IH c1).
        destruct (for_of items _ c1) as [[[]|e|] c2]; [| |done].
        -- intros x. rewrite IH, Hnames. split.
           ++ intros [[?| ->]|(j & p & ? & ? & ?)]; [by left| |].
              ** right. exists i, project. split_and!; [apply list_elem_of_here|done..].
              ** right. exists j, p. split_and!; [by apply list_elem_of_further|done..].
           ++ intros [?|(j & p & [->|?]%elem_of_cons & Hj & Hp)]; [by left; left| |].
              ** left. right. congruence.
              ** right. by exists j, p.
        -- destruct IH as (j & p & ? & ?). exists j, p.
           split; [by apply list_elem_of_further|done].
      * exists i, project. split_and!; [apply list_elem_of_here|done..].
    + simpl. specialize (IH c).
      destruct (for_of items _ c) as [[[]|e|] c2]; [| |done].
      * intros x. rewrite IH. split.
        -- intros [?|(j & p & ? & ? & ?)]; [by left|].
           right. exists j, p. split_and!; [by apply list_elem_of_further|done..].
        -- intros [?|(j & p & [->|?]%elem_of_cons & Hj & Hp)]; [by left|congruence|].
           right. by exists j, p.
      * destruct IH as (j & p & ? & ?). exists j, p.
        split; [by apply list_elem_of_further|done].
Qed.

(** A loop of [addDependencies] among registered tasks returns and registers
    nothing. *)
Lemma order_loop {A : Type} (nameOf : A → string) (depsOf : A → list string)
    (items : list A) (c : TaskCollection.t) :
  (∀ i, i ∈ items → nameOf i ∈ TaskCollection.names c) →
  (∀ i d, i ∈ items → d ∈ depsOf i → d ∈ TaskCollection.names c) →
  ∃ c', for_of items (fun i => TaskCollection.addDependencies (nameOf i)
                                 (Some (depsOf i))) c = (Returned tt, c')
        ∧ TaskCollection.names c' = TaskCollection.names c.
Proof.
  revert c. induction items as [|i items IH]; intros c Hnames Hdeps; [by eexists|].
  rewrite for_of_cons.
  rewrite TaskCollectionFacts.addDependencies_registered
    by apply TaskCollectionFacts.hasTask_true, Hnames, list_elem_of_here.
  destruct (TaskCollectionFacts.addDependencies_loop_registered (nameOf i) (depsOf i) c)
    as (c1 & -> & Hn1 & _).
  { apply Hnames, list_elem_of_here. }
  { intros d. apply Hdeps, list_elem_of_here. }
  destruct (IH c1) as (c2 & -> & Hn2).
  { intros j Hj. rewrite Hn1. by apply Hnames, list_elem_of_further. }
  { intros j d Hj. rewrite Hn1. by apply Hdeps, list_elem_of_further. }
  exists c2. split; [done|]. by rewrite Hn2.
Qed.

End Register.

Section Phases.
Variable win32 : bool.
Variable convertSlashesForWindows : string → string.
Variable options : ITaskSelectorConstructor.
Hypothesis Hwf : wf_selector options.

Abbreviation cfg := (rushConfiguration options).
Abbreviation registerTask := (_registerTask win32 convertSlashesForWindows options).

(** What a registration phase that is to add the projects [sel] to the
    collection [c] may end with: the names of [c] and of [sel], or the error
    for a project of [sel] that lacks the script. *)
Definition registers (c : TaskCollection.t) (sel : string → Prop)
    (r : Outcome unit * TaskCollection.t) : Prop :=
  match r with
  | (Returned _, c') =>
      ∀ x, x ∈ TaskCollection.names c' ↔ x ∈ TaskCollection.names c ∨ sel x
  | (Threw e, _) =>
      ∃ project, project ∈ cfg ∧ sel (packageName project)
                 ∧ _getScriptCommand project (commandToRun options) = None
                 ∧ ignoreMissingScript options = false
                 ∧ e = missingScript options project
  | (OutOfFuel, _) => False
  end.

Lemma registers_iff (c : TaskCollection.t) (sel sel' : string → Prop)
    (r : Outcome unit * TaskCollection.t) :
  (∀ x, sel x ↔ sel' x) → registers c sel r → registers c sel' r.
Proof.
  intros Hsel. destruct r as [[[]|e|] c']; simpl; [| |done].
  - intros H x. by rewrite H, Hsel.
  - intros (project & ? & ?%Hsel & ?). by exists project.
Qed.

Lemma register_order (ns : list string) (depsOf : string → list string)
    (c : TaskCollection.t) :
  (∀ n, n ∈ ns → n ∈ packageNames cfg) →
  (∀ n d, n ∈ ns → d ∈ depsOf n → d ∈ ns) →
  registers c (fun x => x ∈ ns)
    ((for_of ns (fun n => registerTask (project_of cfg n)) ;;
      if ignoreDependencyOrder options then ret tt
      else for_of ns (fun n => TaskCollection.addDependencies n (Some (depsOf n)))) c).
Proof.
  intros Hns Hdeps. unfold bind.
  pose proof (register_loop win32 convertSlashesForWindows options
                (project_of cfg) ns c) as Hloop.
  destruct (for_of ns _ c) as [[[]|e|] c1]; [| |done].
  - assert (∀ x, x ∈ TaskCollection.names c1 ↔ x ∈ TaskCollection.names c ∨ x ∈ ns)
      as Hnames.
    { intros x. rewrite Hloop. split.
      - intros [?|(i & project & Hi & [_ Hp]%project_of_Some & <-)]; [by left|].
        right. by rewrite Hp.
      - intros [?|Hx]; [by left|]. right.
        destruct (project_of_registered cfg x (Hns x Hx)) as [project Hp].
        exists x, project. split_and!; [done..|]. by apply project_of_Some in Hp as [_ ?]. }
    destruct (ignoreDependencyOrder options); [done|].
    destruct (order_loop (fun n : string => n) depsOf ns c1) as (c2 & -> & Hn2).
    + intros n Hn. apply Hnames. by right.
    + intros n d Hn Hd. apply Hnames. right. by eapply Hdeps.
    + simpl. intros x. by rewrite Hn2.
  - destruct Hloop as (i & project & Hi & [Hin Hp]%project_of_Some & ? & ? & ?).
    exists project. split_and!; [done| |done..]. by rewrite Hp.
Qed.

Lemma size_packageNames :
  size (list_to_set (C := gset string) (packageNames cfg)) = length cfg.
Proof.
  rewrite size_list_to_set by apply Hwf. unfold packageNames. by rewrite length_fmap.
Qed.

Lemma registerToProjects_run (fuel : nat) (c : TaskCollection.t) :
  (length cfg < fuel)%nat →
  registers c (upstream cfg (toProjects options))
    (_registerToProjects win32 convertSlashesForWindows fuel options
       (toProjects options) c).
Proof.
  intros Hfuel. unfold _registerToProjects.
  destruct (collect_loop_returns (localDependencyProjects_of cfg)
              (list_to_set (packageNames cfg)) fuel (toProjects options))
    as [result Hrun].
  { intros x y _ Hxy. apply elem_of_list_to_set. by eapply (wf_localDependencies _ Hwf). }
  { intros r Hr. apply elem_of_list_to_set. by apply (wf_toProjects _ Hwf). }
  { by rewrite size_packageNames. }
  pose proof (collected_closure _ _ _ _ Hrun) as [Hnd Hres].
  unfold bind at 1. unfold local.
  erewrite for_of_ext; [rewrite Hrun|intros; apply collectAllDependencies_collect].
  eapply registers_iff; [exact Hres|]. apply register_order.
  - intros n (r & Hr & Hrtc)%Hres. apply (wf_toProjects _ Hwf) in Hr.
    clear Hres. induction Hrtc as [|x y z Hxy _ IH]; [done|].
    apply IH. by eapply (wf_localDependencies _ Hwf).
  - intros n d (r & Hr & Hrtc)%Hres Hd. apply Hres. exists r. split; [done|].
    eapply rtc_r; [exact Hrtc|exact Hd].
Qed.

Lemma registerFromProjects_run (fuel : nat) (c : TaskCollection.t) :
  (length cfg < fuel)%nat →
  registers c (downstream cfg (fromProjects options))
    (_registerFromProjects win32 convertSlashesForWindows fuel options
       (fromProjects options) c).
Proof.
  intros Hfuel. unfold _registerFromProjects.
  set (successors := fun p => default [] (_getDependentGraph cfg !! p)).
  assert (∀ x y, edge successors x y ↔ projectDependsOn cfg y x) as Hedge.
  { intros x y. apply getDependentGraph_dependsOn, Hwf. }
  destruct (collect_loop_returns successors
              (list_to_set (packageNames cfg)) fuel (fromProjects options))
    as [result Hrun].
  { intros x y _ (project & Hin & <- & _)%elem_of_getDependentGraph.
    apply elem_of_list_to_set. by apply list_elem_of_fmap_2. }
  { intros r Hr. apply elem_of_list_to_set. by apply (wf_fromProjects _ Hwf). }
  { by rewrite size_packageNames. }
  pose proof (collected_closure _ _ _ _ Hrun) as [Hnd Hres].
  assert (∀ x, x ∈ result ↔ downstream cfg (fromProjects options) x) as Hdown.
  { intros x. rewrite Hres. unfold downstream.
    assert (∀ r, rtc (edge successors) r x ↔ rtc (projectDependsOn cfg) x r) as Hrtc.
    { intros r. rewrite <- rtc_flip. apply rtc_iff. intros a b. apply Hedge. }
    split; intros (r & ? & ?%Hrtc); eauto. }
  unfold bind at 1. unfold local.
  erewrite for_of_ext; [rewrite Hrun|intros; apply collectAllDependents_collect].
  eapply registers_iff; [exact Hdown|].
  apply (register_order result
           (fun n => filter (fun dep => dep ∈ result) (localDependencyProjects_of cfg n))).
  - intros n (r & Hr & Hrtc)%Hdown. destruct (rtc_inv _ _ Hrtc) as [->|(y & Hy & _)].
    + by apply (wf_fromProjects _ Hwf).
    + unfold projectDependsOn, localDependencyProjects_of in Hy.
      destruct (project_of cfg n) as [project|] eqn:E; [|by apply elem_of_nil in Hy].
      apply project_of_Some in E as [? <-]. by apply list_elem_of_fmap_2.
  - intros n d _ [? _]%list_elem_of_filter. done.
Qed.

Lemma registerAll_run (c : TaskCollection.t) :
  registers c (fun x => x ∈ packageNames cfg)
    (_registerAll win32 convertSlashesForWindows options c).
Proof.
  unfold _registerAll, bind.
  pose proof (register_loop win32 convertSlashesForWindows options Some cfg c) as Hloop.
  destruct (for_of cfg _ c) as [[[]|e|] c1]; [| |done].
  - assert (∀ x, x ∈ TaskCollection.names c1
                 ↔ x ∈ TaskCollection.names c ∨ x ∈ packageNames cfg) as Hnames.
    { intros x. rewrite Hloop. unfold packageNames. rewrite list_elem_of_fmap.
      split; (intros [?|H]; [by left|right]).
      - destruct H as (i & project & ? & [= ->] & <-). eauto.
      - destruct H as (project & -> & ?). by exists project, project. }
    destruct (ignoreDependencyOrder options); [done|].
    destruct (order_loop packageName localDependencyProjects cfg c1)
      as (c2 & -> & Hn2).
    + intros project Hin. apply Hnames. right. by apply list_elem_of_fmap_2.
    + intros project d Hin Hd. apply Hnames. right.
      apply (wf_localDependencies _ Hwf (packageName project)).
      by rewrite localDependencyProjects_of_elem by (done || apply Hwf).
    + simpl. intros x. by rewrite Hn2.
  - destruct Hloop as (i & project & Hin & [= ->] & ? & ? & ?).
    exists project. split_and!; [done| |done..]. by apply list_elem_of_fmap_2.
Qed.

End Phases.

Section Selects.
Variable win32 : bool.
Variable convertSlashesForWindows : string → string.
Variable options : ITaskSelectorConstructor.
Hypothesis Hwf : wf_selector options.

Abbreviation cfg := (rushConfiguration options).

Lemma registers_seq (c : TaskCollection.t) (sel1 sel2 : string → Prop)
    (m1 m2 : M TaskCollection.t unit) :
  registers options c sel1 (m1 c) →
  (∀ c1, registers options c1 sel2 (m2 c1)) →
  registers options c (fun x => sel1 x ∨ sel2 x) ((m1 ;; m2) c).
Proof.
  intros H1 H2. unfold bind. destruct (m1 c) as [[[]|e|] c1]; simpl in *; [| |done].
  - specialize (H2 c1). destruct (m2 c1) as [[[]|e|] c2]; simpl in *; [| |done].
    + intros x. rewrite H2, H1. tauto.
    + destruct H2 as (project & ? & ? & ?). exists project. tauto.
  - destruct H1 as (project & ? & ? & ?). exists project. tauto.
Qed.

Lemma registers_skip (c : TaskCollection.t) (sel : string → Prop) :
  (∀ x, ¬ sel x) → registers options c sel (ret tt c).
Proof. intros Hsel x. specialize (Hsel x). simpl. tauto. Qed.

Lemma registerTasks_registers (fuel : nat) (c : TaskCollection.t) :
  (length cfg < fuel)%nat →
  registers options c (selected options)
    (registerTasks win32 convertSlashesForWindows fuel options c).
Proof.
  intros Hfuel. unfold registerTasks.
  eapply registers_iff; last first.
  - apply (registers_seq c (upstream cfg (toProjects options))
             (fun x => downstream cfg (fromProjects options) x
                       ∨ (toProjects options = [] ∧ fromProjects options = []
                          ∧ x ∈ packageNames cfg))).
    + case_bool_decide; [by apply registerToProjects_run|].
      apply registers_skip. intros x (r & Hr & _).
      destruct (toProjects options); [by apply elem_of_nil in Hr|].
      by contradict H.
    + intros c1.
      apply (registers_seq c1 (downstream cfg (fromProjects options))
               (fun x => toProjects options = [] ∧ fromProjects options = []
                         ∧ x ∈ packageNames cfg)).
      * case_bool_decide; [by apply registerFromProjects_run|].
        apply registers_skip. intros x (r & Hr & _).
        destruct (fromProjects options); [by apply elem_of_nil in Hr|].
        by contradict H.
      * intros c2. do 2 case_bool_decide; simpl.
        -- eapply registers_iff; [|by apply registerAll_run].
           intros x. simpl. tauto.
        -- apply registers_skip. tauto.
        -- apply registers_skip. tauto.
        -- apply registers_skip. tauto.
  - intros x. unfold selected. simpl. destruct (decide _) as [[Hto Hfrom]|Hne].
    + split; [|tauto]. intros [(r & Hr & _)|[(r & Hr & _)|?]]; [| |tauto].
      * rewrite Hto in Hr. by apply elem_of_nil in Hr.
      * rewrite Hfrom in Hr. by apply elem_of_nil in Hr.
    + tauto.
Qed.

End Selects.

(** *** Sample configuration *)

(** A configuration with the chains [c → b → a] and [d → a]. *)
Definition sample_configuration : RushConfiguration :=
  let scripts := Some {[ "build"%string := "tsc"%string ]} in
  [ mkProject "a" [] scripts;
    mkProject "b" ["a"%string] scripts;
    mkProject "c" ["b"%string] scripts;
    mkProject "d" ["a"%string] scripts ].

(** [--to b --from d] *)
Definition sample_selector : ITaskSelectorConstructor :=
  mkSelector sample_configuration ["b"%string] ["d"%string] "build" []
             false true false false "package-deps.json".

Lemma wf_sample_selector : wf_selector sample_selector.
Proof.
  split.
  - apply (bool_decide_unpack _). by vm_compute.
  - intros p d. unfold localDependencyProjects_of, project_of. simpl.
    repeat case_bool_decide; simpl; set_solver.
  - intros p. simpl. set_solver.
  - intros p. simpl. set_solver.
Qed.

(** C8: on a configuration whose package names are unique and whose local
    dependencies and [to]/[from] projects are projects of the configuration,
    [registerTasks] on the selector's new collection registers exactly the
    selected projects: every project of the configuration when [toProjects]
    and [fromProjects] are both empty, and otherwise the union of the
    [toProjects] with all they transitively depend on and the [fromProjects]
    with all that transitively depends on them.  The one other way to end is
    the error of [_getScriptToRun] for a selected project without the script;
    the recursion budget of the model is never exhausted. *)
Theorem registerTasks_selects (win32 : bool)
    (convertSlashesForWindows : string → string)
    (options : ITaskSelectorConstructor) (fuel : nat) :
  wf_selector options →
  (length (rushConfiguration options) < fuel)%nat →
  match registerTasks win32 convertSlashesForWindows fuel options TaskCollection.new with
  | (Returned _, c) =>
      ∀ p, TaskCollection.hasTask c p = true ↔ selected options p
  | (Threw e, _) =>
      ignoreMissingScript options = false
      ∧ ∃ project, project ∈ rushConfiguration options
                   ∧ selected options (packageName project)
                   ∧ _getScriptCommand project (commandToRun options) = None
                   ∧ e = missingScript options project
  | (OutOfFuel, _) => False
  end.
Proof.
  intros Hwf Hfuel.
  pose proof (registerTasks_registers win32 convertSlashesForWindows options Hwf
                fuel TaskCollection.new Hfuel) as H.
  destruct (registerTasks _ _ _ _ _) as [[[]|e|] c]; simpl in H; [| |done].
  - intros p. rewrite TaskCollectionFacts.hasTask_true, H.
    split; [|by right]. by intros [?%elem_of_nil|?].
  - destruct H as (project & ? & ? & ? & ? & ?). split; [done|]. by exists project.
Qed.

Lemma registerTasks_selects_witness :
  wf_selector sample_selector
  ∧ (length (rushConfiguration sample_selector) < 5)%nat
  ∧ ∃ c, registerTasks false id 5 sample_selector TaskCollection.new = (Returned tt, c)
         ∧ TaskCollection.names c = ["b"; "a"; "d"]%string
         ∧ ∀ p, TaskCollection.hasTask c p = true ↔ selected sample_selector p.
Proof.
  assert (length (rushConfiguration sample_selector) < 5)%nat as Hfuel
    by (vm_compute; lia).
  split; [exact wf_sample_selector|]. split; [exact Hfuel|].
  pose proof (registerTasks_selects false id sample_selector 5
                wf_sample_selector Hfuel) as H.
  destruct (registerTasks false id 5 sample_selector TaskCollection.new)
    as [[[]|e|] c] eqn:E; [|exfalso..].
  - exists c. split; [reflexivity|]. split; [|exact H].
    vm_compute in E. by injection E as <-.
  - vm_compute in E. discriminate E.
  - exact H.
Defined.

End TaskSelectorFacts.

(** * Further properties *)

(** ** Task collections: registration and links *)

Module CollectionProperties.
Import TaskCollection TaskCollectionFacts TaskOrderFacts.

Lemma get_registered (c : t) (task : Task) :
  NoDup (names c) → task ∈ c → get c (name task) = Some task.
Proof.
  unfold get, names. induction c as [|x c IH]; csimpl.
  - by intros _ ?%elem_of_nil.
  - intros [Hx Hnd]%NoDup_cons [->|Hin]%elem_of_cons.
    + by rewrite bool_decide_eq_true_2.
    + case_bool_decide as Heq; [|by apply IH].
      exfalso. apply Hx. rewrite Heq. by apply list_elem_of_fmap_2.
Qed.

Lemma update_unchanged (n : string) (f : Task → Task) (c : t) (task : Task) :
  NoDup (names c) → get c n = Some task → f task = task → update n f c = c.
Proof.
  intros Hnd Hget Hf. unfold update.
  rewrite <- (list_fmap_id c) at 2. apply list_fmap_ext. intros i x Hx.
  destruct (decide (name x = n)) as [<-|]; [|done].
  apply list_elem_of_lookup_2, (get_registered c x Hnd) in Hx. unfold id. congruence.
Qed.

Lemma update_absent (n : string) (f : Task → Task) (c : t) :
  n ∉ names c → update n f c = c.
Proof.
  intros Hn. unfold update. rewrite <- (list_fmap_id c) at 2.
  apply list_fmap_ext. intros i x Hx.
  destruct (decide (name x = n)) as [<-|]; [|done].
  exfalso. apply Hn. unfold names. apply list_elem_of_fmap_2.
  by eapply list_elem_of_lookup_2.
Qed.

Lemma set_add_elem (x : string) (s : list string) : x ∈ s → set_add x s = s.
Proof. intros Hx. unfold set_add. by destruct (decide _). Qed.

Lemma link_again (n d : string) (c : t) :
  wf c → d ∈ dependencies_of c n → link n d c = c.
Proof.
  intros Hwf Hd. pose proof (proj1 (wf_inverse c Hwf n d) Hd) as Hn.
  unfold link, dependencies_of, dependents_of in *.
  destruct (get c n) as [tn|] eqn:En; [|by apply elem_of_nil in Hd].
  rewrite (update_unchanged n _ c tn); [|apply Hwf|done|].
  - destruct (get c d) as [td|] eqn:Ed; [|by apply elem_of_nil in Hn].
    apply (update_unchanged d _ c td); [apply Hwf|done|].
    destruct td. unfold add_dependent. simpl in *. by rewrite set_add_elem.
  - destruct tn. unfold add_dependency. simpl in *. by rewrite set_add_elem.
Qed.

Lemma addDependencies_loop_returned (n : string) (deps : list string) (c c' : t) :
  for_of deps (addDependencies_body n) c = (Returned tt, c') →
  ∀ d, d ∈ deps → d ∈ names c.
Proof.
  revert c. induction deps as [|d deps IH]; intros c Hrun x Hx.
  - by apply elem_of_nil in Hx.
  - rewrite for_of_cons in Hrun. destruct (hasTask c d) eqn:Hd.
    + rewrite addDependencies_body_registered in Hrun by done.
      apply elem_of_cons in Hx as [->|Hx]; [by apply hasTask_true|].
      rewrite <- (names_link n d). by eapply IH.
    + by rewrite addDependencies_body_unregistered in Hrun.
Qed.

Lemma addDependencies_unregistered (c : t) (taskName : string)
    (taskDependencies : option (list string)) :
  hasTask c taskName = false →
  addDependencies taskName taskDependencies c
  = (Threw (mkError ("The task '" +:+ taskName +:+ "' has not been registered")), c).
Proof.
  unfold addDependencies, bind, read, hasTask. by destruct (get c taskName).
Qed.

Lemma addDependencies_returned (c c' : t) (taskName : string) (deps : list string) :
  addDependencies taskName (Some deps) c = (Returned tt, c') →
  hasTask c taskName = true
  ∧ (∀ d, d ∈ deps → hasTask c d = true)
  ∧ names c' = names c
  ∧ (∀ m x, x ∈ dependencies_of c' m ↔
            x ∈ dependencies_of c m ∨ (m = taskName ∧ x ∈ deps))
  ∧ (∀ m x, x ∈ dependents_of c' m ↔
            x ∈ dependents_of c m ∨ (m ∈ deps ∧ x = taskName))
  ∧ (∀ m, criticalPathLength_of c' m = criticalPathLength_of c m).
Proof.
  intros Hrun. destruct (hasTask c taskName) eqn:Hhas.
  - rewrite addDependencies_registered in Hrun by done.
    pose proof (addDependencies_loop_returned _ _ _ _ Hrun) as Hdeps.
    destruct (addDependencies_loop_registered taskName deps c) as (c2 & Hrun2 & H);
      [by apply hasTask_true|done|].
    rewrite Hrun in Hrun2. injection Hrun2 as <-.
    split; [done|]. split; [|done]. intros d Hd. by apply hasTask_true, Hdeps.
  - by rewrite addDependencies_unregistered in Hrun.
Qed.

(** X1: [addTask] with a name that is not registered returns and registers
    it last: afterwards [hasTask] holds for that name and for the names
    registered before, and for no other; the new task has no dependencies, no
    dependents and no critical-path length, and the tasks registered before
    are as they were. *)
Theorem addTask_registers (c : t) (builderName : string) :
  hasTask c builderName = false →
  ∃ c', addTask builderName c = (Returned tt, c')
    ∧ names c' = names c ++ [builderName]
    ∧ (∀ m, hasTask c' m = true ↔ m = builderName ∨ hasTask c m = true)
    ∧ get c' builderName = Some (mkTask builderName Ready [] [] None)
    ∧ (∀ m, m ≠ builderName → get c' m = get c m).
Proof.
  intros Hhas. exists (c ++ [mkTask builderName Ready [] [] None]).
  unfold addTask, bind, read, modify. rewrite Hhas.
  assert (names (c ++ [mkTask builderName Ready [] [] None]) = names c ++ [builderName])
    as Hnames by (unfold names; by rewrite fmap_app).
  split_and!; [done|done| | |].
  - intros m. rewrite !hasTask_true, Hnames, elem_of_app, list_elem_of_singleton. tauto.
  - rewrite get_app. unfold hasTask in Hhas.
    destruct (get c builderName); [done|]. simpl. by rewrite decide_True.
  - intros m Hm. rewrite get_app. destruct (get c m); [done|]. simpl.
    by rewrite decide_False.
Qed.

Lemma addTask_registers_witness :
  hasTask (build [AddTask "A"]) "B" = false
  ∧ ∃ c', addTask "B" (build [AddTask "A"]) = (Returned tt, c')
    ∧ names c' = names (build [AddTask "A"]) ++ ["B"%string]
    ∧ (∀ m, hasTask c' m = true ↔ m = "B"%string ∨ hasTask (build [AddTask "A"]) m = true)
    ∧ get c' "B" = Some (mkTask "B" Ready [] [] None)
    ∧ (∀ m, m ≠ "B"%string → get c' m = get (build [AddTask "A"]) m).
Proof.
  split; [reflexivity|].
  apply (addTask_registers (build [AddTask "A"]) "B"). reflexivity.
Defined.

(** X2: [addDependencies] for a task that is not registered throws the
    error naming the task, whatever the list, also an undefined one; for a
    registered task and an undefined list it throws the error of the list;
    both leave the collection as it was. *)
Theorem addDependencies_rejects (c : t) (taskName : string)
    (taskDependencies : option (list string)) :
  (hasTask c taskName = false →
   addDependencies taskName taskDependencies c
   = (Threw (mkError ("The task '" +:+ taskName +:+ "' has not been registered")), c))
  ∧ (hasTask c taskName = true →
     addDependencies taskName None c
     = (Threw (mkError "The list of dependencies must be defined"), c)).
Proof.
  unfold addDependencies, bind, read, hasTask.
  destruct (get c taskName); split; by intros.
Qed.

(** X3: [addDependencies] with a defined list returns exactly when the task
    and every name of the list are registered.  It then registers nothing,
    adds each name of the list to the dependencies of the task and the task
    to the dependents of each of them, changes no other link and no stored
    length. *)
Theorem addDependencies_links (c : t) (taskName : string) (deps : list string) :
  ((∃ c', addDependencies taskName (Some deps) c = (Returned tt, c'))
   ↔ hasTask c taskName = true ∧ ∀ d, d ∈ deps → hasTask c d = true)
  ∧ ∀ c', addDependencies taskName (Some deps) c = (Returned tt, c') →
      names c' = names c
      ∧ (∀ m x, x ∈ dependencies_of c' m ↔
                x ∈ dependencies_of c m ∨ (m = taskName ∧ x ∈ deps))
      ∧ (∀ m x, x ∈ dependents_of c' m ↔
                x ∈ dependents_of c m ∨ (m ∈ deps ∧ x = taskName))
      ∧ (∀ m, criticalPathLength_of c' m = criticalPathLength_of c m).
Proof.
  split.
  - split.
    + intros [c' Hrun]. apply addDependencies_returned in Hrun. tauto.
    + intros [Hn Hdeps]. rewrite addDependencies_registered by done.
      destruct (addDependencies_loop_registered taskName deps c) as (c' & Hrun & _).
      { by apply hasTask_true. }
      { intros d Hd. by apply hasTask_true, Hdeps. }
      by exists c'.
  - intros c' Hrun. apply addDependencies_returned in Hrun. tauto.
Qed.

(** X4: whatever calls of [addTask] and [addDependencies] were made on a
    new collection, also failing ones, the names of the registered tasks are
    distinct, a task is among the dependencies of another exactly when that
    one is among its dependents, linked tasks are registered, and no length
    is stored. *)
Theorem links_are_inverse (ops : list Call) :
  let c := build ops in
  NoDup (names c)
  ∧ (∀ a b, b ∈ dependencies_of c a ↔ a ∈ dependents_of c b)
  ∧ (∀ a b, b ∈ dependencies_of c a → a ∈ names c ∧ b ∈ names c)
  ∧ (∀ n, criticalPathLength_of c n = None).
Proof.
  intros c. pose proof (wf_build ops) as Hwf. fold c in Hwf.
  split_and!; [apply Hwf|apply Hwf| |apply Hwf].
  intros a b Hab. apply (wf_inverse c Hwf) in Hab. split.
  - by eapply (wf_dependents c Hwf).
  - by eapply dependents_of_registered.
Qed.

(** X5: a returning [addDependencies] is idempotent: the same call on the
    collection it left returns and changes nothing. *)
Theorem addDependencies_idempotent (ops : list Call) (taskName : string)
    (deps : list string) (c' : t) :
  addDependencies taskName (Some deps) (build ops) = (Returned tt, c') →
  addDependencies taskName (Some deps) c' = (Returned tt, c').
Proof.
  intros Hrun.
  pose proof (wf_addDependencies taskName deps _ (wf_build ops)) as Hwf.
  rewrite Hrun in Hwf. simpl in Hwf.
  destruct (addDependencies_returned _ _ _ _ Hrun) as (Hn & _ & Hnames & Hdeps & _).
  rewrite addDependencies_registered
    by (apply hasTask_true; rewrite Hnames; by apply hasTask_true).
  assert (∀ d, d ∈ deps → d ∈ dependencies_of c' taskName) as Hall.
  { intros d Hd. apply Hdeps. by right. }
  assert (∀ d, d ∈ deps → d ∈ names c') as Hreg.
  { intros d Hd%Hall. apply (wf_inverse c' Hwf) in Hd.
    by eapply dependents_of_registered. }
  clear Hrun Hdeps. induction deps as [|d deps IH]; [done|].
  rewrite for_of_cons, addDependencies_body_registered
    by (apply hasTask_true, Hreg, list_elem_of_here).
  rewrite link_again by (done || apply Hall, list_elem_of_here).
  apply IH; intros; [apply Hall|apply Hreg]; by apply list_elem_of_further.
Qed.


Lemma addDependencies_idempotent_witness :
  addDependencies "B" (Some ["A"%string]) (build [AddTask "A"; AddTask "B"])
  = (Returned tt, build [AddTask "A"; AddTask "B"; AddDependencies "B" ["A"%string]])
  ∧ addDependencies "B" (Some ["A"%string])
      (build [AddTask "A"; AddTask "B"; AddDependencies "B" ["A"%string]])
    = (Returned tt, build [AddTask "A"; AddTask "B"; AddDependencies "B" ["A"%string]]).
Proof.
  split; [reflexivity|].
  apply (addDependencies_idempotent [AddTask "A"; AddTask "B"] "B" ["A"%string]).
  reflexivity.
Defined.

(** ** The order of the tasks *)

(** In a collection ordered by [getOrderedTasks], a dependent's length is
    below that of the task it depends on. *)
Lemma dependent_shorter (c c' : t) (n d : string) (v : Z) :
  memo_ok c c' → d ∈ dependents_of c n →
  criticalPathLength_of c' n = Some v →
  ∃ w, criticalPathLength_of c' d = Some w ∧ w + 1 ≤ v.
Proof.
  intros Hmemo [i Hi]%list_elem_of_lookup_1 Hv.
  destruct (Hmemo n v Hv) as (lens & Hlens & ->).
  destruct (Forall2_lookup_l _ _ _ _ _ Hlens Hi) as (u & Hu & Hd).
  exists u. split; [done|]. destruct lens as [|w ws]; [done|].
  apply list_elem_of_lookup_2, Math_max_ge in Hu. lia.
Qed.

Lemma longest_dependent (c c' : t) (n : string) (v : Z) :
  memo_ok c c' → criticalPathLength_of c' n = Some v → v ≠ 0 →
  ∃ d, d ∈ dependents_of c n ∧ criticalPathLength_of c' d = Some (v - 1).
Proof.
  intros Hmemo Hv Hne. destruct (Hmemo n v Hv) as (lens & Hlens & ->).
  destruct lens as [|w ws]; [done|].
  destruct (list_elem_of_lookup_1 _ _ (Math_max_elem w ws)) as [i Hi].
  destruct (Forall2_lookup_r _ _ _ _ _ Hlens Hi) as (d & Hd & Hcpl).
  exists d. split; [by eapply list_elem_of_lookup_2|]. rewrite Hcpl. f_equal. lia.
Qed.

(** Stored lengths are not negative. *)
Definition lengths_nonneg (c : t) : Prop :=
  ∀ n v, criticalPathLength_of c n = Some v → 0 ≤ v.

Lemma lengths_nonneg_set (n : string) (v : Z) (c : t) :
  0 ≤ v → lengths_nonneg c → lengths_nonneg (update n (set_criticalPathLength v) c).
Proof.
  intros Hv Hc m w. destruct (decide (n ∈ names c)) as [Hn|Hn].
  - rewrite criticalPathLength_of_set by done.
    destruct (decide (m = n)); [by intros [= <-]|apply Hc].
  - rewrite update_absent by done. apply Hc.
Qed.

Lemma calculate_nonneg (fuel : nat) :
  ∀ n c v c', lengths_nonneg c →
    _calculateCriticalPaths fuel n c = (Returned v, c') →
    0 ≤ v ∧ lengths_nonneg c'.
Proof.
  induction fuel as [|fuel IH]; intros n c v c' Hc; [done|].
  rewrite calculate_S. destruct (criticalPathLength_of c n) as [w|] eqn:Hmemo.
  { intros [= <- <-]. split; [by eapply Hc|done]. }
  destruct (dependents_of c n) as [|d ds] eqn:Hdeps.
  { intros [= <- <-]. split; [done|]. by apply lengths_nonneg_set. }
  assert (∀ deps c lens c', lengths_nonneg c →
            forEach_push deps (_calculateCriticalPaths fuel) c = (Returned lens, c') →
            Forall (fun w => 0 ≤ w) lens ∧ lengths_nonneg c') as Hloop.
  { clear -IH. induction deps as [|d deps IHdeps]; intros c lens c' Hc.
    - intros [= <- <-]. by split.
    - rewrite forEach_push_cons.
      destruct (_calculateCriticalPaths fuel d c) as [[w| |] c1] eqn:E; try done.
      destruct (IH _ _ _ _ Hc E) as [Hw Hc1].
      destruct (forEach_push deps _ c1) as [[ws| |] c2] eqn:E2; try done.
      destruct (IHdeps _ _ _ Hc1 E2) as [Hws Hc2].
      intros [= <- <-]. split; [by constructor|done]. }
  destruct (forEach_push (d :: ds) _ c) as [[lens| |] c1] eqn:E; try done.
  destruct (Hloop _ _ _ _ Hc E) as [Hlens Hc1].
  intros [= <- <-].
  assert (0 ≤ Math_max lens) as Hmax.
  { destruct lens as [|w ws]; [done|].
    by apply (proj1 (Forall_forall _ _) Hlens), Math_max_elem. }
  split; [lia|]. apply lengths_nonneg_set; [lia|done].
Qed.

Lemma calculate_loop_nonneg (fuel : nat) (ns : list string) :
  ∀ c c', lengths_nonneg c →
    for_of ns (calculate_each fuel) c = (Returned tt, c') → lengths_nonneg c'.
Proof.
  induction ns as [|n ns IH]; intros c c' Hc; [by intros [= <-]|].
  rewrite for_of_cons, calculate_each_run.
  destruct (_calculateCriticalPaths fuel n c) as [[v| |] c1] eqn:E; try done.
  apply IH. by eapply calculate_nonneg.
Qed.

(** What a returning [getOrderedTasks] leaves. *)
Lemma getOrderedTasks_returned (c : t) (fuel : nat) (l : list Task) (c' : t) :
  wf c →
  getOrderedTasks fuel c = (Returned l, c') →
  l = sortBy c' sortKey
  ∧ NoDup (names c')
  ∧ same_graph c c' ∧ memo_ok c c'
  ∧ lengths_nonneg c'
  ∧ ∀ n, n ∈ names c' → is_Some (criticalPathLength_of c' n).
Proof.
  intros Hwf Hrun.
  destruct (getOrderedTasks_lengths _ _ _ _ Hwf Hrun) as (_ & Hl & Hs & Hm & Hall).
  split_and!; try done.
  - rewrite (proj1 Hs). apply Hwf.
  - rewrite getOrderedTasks_run in Hrun.
    destruct (_checkForCyclicDependencies _ _ _ _ _) as [[[]|?|] ?]; try done.
    destruct (for_of _ _ _) as [[[]| |] c''] eqn:E; try done.
    injection Hrun as _ <-. eapply calculate_loop_nonneg; [|exact E].
    intros n v. by rewrite (wf_fresh _ Hwf).
  - intros n. rewrite (proj1 Hs). apply Hall.
Qed.

(** An acyclic collection is ordered once the fuel exceeds its size. *)
Lemma getOrderedTasks_returns (c : t) (fuel : nat) :
  wf c → ¬ cyclic c → (length c < fuel)%nat →
  ∃ l c', getOrderedTasks fuel c = (Returned l, c').
Proof.
  intros Hwf Hacyc Hfuel. pose proof (check_top c fuel Hwf) as Hcheck.
  rewrite getOrderedTasks_run.
  destruct (_checkForCyclicDependencies fuel c _ [] ∅) as [[[]|e|] ?].
  - assert (∀ n, ¬ tc (dependent c) n n) as Hacyclic.
    { intros n Hn. apply Hcheck, cyclic_dependent; [done|]. exists n.
      split; [|done]. apply tc_first in Hn as (d & Hd & _).
      by eapply dependents_of_registered. }
    destruct (calculate_loop_returns c (wf_dependents _ Hwf) Hacyclic fuel)
      with (ns := names c) (c := c) as [c' Hrun]; try done.
    { unfold names. by rewrite length_fmap. }
    rewrite Hrun. by eexists _, _.
  - destruct Hcheck as (chain & -> & Hcycle). exfalso.
    by eapply Hacyc, names_cycle_cyclic.
  - lia.
Qed.

(** In the returned list a task comes after the tasks it depends on. *)
Lemma ordered_after (c : t) (fuel : nat) (l : list Task) (c' : t) :
  wf c →
  getOrderedTasks fuel c = (Returned l, c') →
  ∀ a b, b ∈ dependencies_of c a →
    ∃ i j ta tb,
      l !! i = Some tb ∧ name tb = b ∧ l !! j = Some ta ∧ name ta = a ∧ (i < j)%nat.
Proof.
  intros Hwf Hrun.
  destruct (getOrderedTasks_returned _ _ _ _ Hwf Hrun)
    as (-> & Hnd & [Hnames Hdeps] & Hmemo & _ & Hall). intros a b Hab.
  apply (wf_inverse _ Hwf) in Hab.
  assert (b ∈ names c') as Hb.
  { rewrite Hnames. by eapply dependents_of_registered. }
  assert (a ∈ names c') as Ha.
  { rewrite Hnames. by eapply (wf_dependents _ Hwf). }
  destruct (Hall b Hb) as [vb Hvb].
  destruct (dependent_shorter _ _ _ _ _ Hmemo Hab Hvb) as (va & Hva & Hlt).
  apply list_elem_of_fmap in Ha as (ta & -> & Hta), Hb as (tb & -> & Htb).
  rewrite criticalPathLength_of_elem in Hva, Hvb by done.
  rewrite <- (sortBy_Permutation sortKey c') in Hta, Htb.
  apply list_elem_of_lookup_1 in Hta as [j Hj], Htb as [i Hi].
  exists i, j, ta, tb. split_and!; try done.
  destruct (decide (i < j)%nat) as [|Hge]; [done|]. exfalso.
  destruct (decide (i = j)) as [->|Hne].
  - rewrite Hi in Hj. injection Hj as ->. rewrite Hvb in Hva. injection Hva as ->. lia.
  - assert (j < i)%nat as Hji by lia.
    pose proof (StronglySorted_lookup _ _ _ _ _ _ (sortBy_sorted sortKey c') Hj Hi Hji)
      as Hle. unfold sortKey in Hle. rewrite Hva, Hvb in Hle. simpl in Hle. lia.
Qed.

(** X6: the list returned by [getOrderedTasks] on a built collection
    respects the dependencies: a task comes after every task it depends
    on. *)
Theorem dependencies_come_first (ops : list Call) (fuel : nat)
    (l : list Task) (c' : t) :
  getOrderedTasks fuel (build ops) = (Returned l, c') →
  ∀ a b, b ∈ dependencies_of (build ops) a →
    ∃ i j ta tb,
      l !! i = Some tb ∧ name tb = b ∧ l !! j = Some ta ∧ name ta = a ∧ (i < j)%nat.
Proof. intros Hrun. eapply ordered_after; [apply wf_build|exact Hrun]. Qed.

Lemma dependencies_come_first_witness :
  ∃ l c', getOrderedTasks 4 linear_chain = (Returned l, c')
    ∧ ∀ a b, b ∈ dependencies_of linear_chain a →
        ∃ i j ta tb,
          l !! i = Some tb ∧ name tb = b ∧ l !! j = Some ta ∧ name ta = a ∧ (i < j)%nat.
Proof.
  eexists _, _. split; [vm_compute; reflexivity|].
  eapply (dependencies_come_first
           [AddTask "A"; AddTask "B"; AddTask "C";
            AddDependencies "B" ["A"%string]; AddDependencies "C" ["B"%string]] 4).
  vm_compute. reflexivity.
Defined.

(** X7: after a returning [getOrderedTasks] on a built collection the
    length of a task is the number of steps of the longest chain of
    dependents that starts at it: no chain of dependents from the task has
    more steps, and one has exactly as many. *)
Theorem criticalPathLength_longest_chain (ops : list Call) (fuel : nat)
    (l : list Task) (c' : t) :
  getOrderedTasks fuel (build ops) = (Returned l, c') →
  ∀ n v, criticalPathLength_of c' n = Some v →
    (∀ chain, path (dependent (build ops)) (n :: chain) → Z.of_nat (length chain) ≤ v)
    ∧ ∃ chain, path (dependent (build ops)) (n :: chain) ∧ Z.of_nat (length chain) = v.
Proof.
  intros Hrun n v Hv.
  destruct (getOrderedTasks_returned _ _ _ _ (wf_build ops) Hrun)
    as (_ & _ & _ & Hmemo & Hnonneg & _). split.
  - intros chain. revert n v Hv. induction chain as [|d chain IH]; intros n v Hv.
    + intros _. simpl. by eapply Hnonneg.
    + intros [Hd Hpath].
      destruct (dependent_shorter _ _ _ _ _ Hmemo Hd Hv) as (w & Hw & Hle).
      specialize (IH d w Hw Hpath). simpl length. lia.
  - pose proof (Hnonneg n v Hv) as Hpos.
    rewrite <- (Z2Nat.id v) in Hv |- * by done.
    generalize dependent n. generalize (Z.to_nat v) as k. clear Hpos v.
    induction k as [|k IH]; intros n Hv.
    + by exists [].
    + destruct (longest_dependent _ _ _ _ Hmemo Hv) as (d & Hd & Hw); [lia|].
      replace (Z.of_nat (S k) - 1) with (Z.of_nat k) in Hw by lia.
      destruct (IH d Hw) as (chain & Hpath & Hlen).
      exists (d :: chain). split; [by split|]. simpl length. lia.
Qed.

Lemma criticalPathLength_longest_chain_witness :
  ∃ l c', getOrderedTasks 4 linear_chain = (Returned l, c')
    ∧ ∀ n v, criticalPathLength_of c' n = Some v →
        (∀ chain, path (dependent linear_chain) (n :: chain) → Z.of_nat (length chain) ≤ v)
        ∧ ∃ chain, path (dependent linear_chain) (n :: chain) ∧ Z.of_nat (length chain) = v.
Proof.
  eexists _, _. split; [vm_compute; reflexivity|].
  eapply (criticalPathLength_longest_chain
           [AddTask "A"; AddTask "B"; AddTask "C";
            AddDependencies "B" ["A"%string]; AddDependencies "C" ["B"%string]] 4).
  vm_compute. reflexivity.
Defined.


(** ** Stored lengths *)

(** The cycle check reads the collection through the dependents only. *)
Lemma check_same_dependents (c c' : t) (fuel : nat) :
  (∀ m, dependents_of c' m = dependents_of c m) →
  ∀ tasks chain checked,
    _checkForCyclicDependencies fuel c' tasks chain checked
    = _checkForCyclicDependencies fuel c tasks chain checked.
Proof.
  intros Hdeps. induction fuel as [|fuel IH]; intros tasks chain checked;
    rewrite !check_unfold; apply TaskSelectorFacts.for_of_ext; intros task s _;
    unfold check_body, bind, read; destruct (decide _); try done;
    case_bool_decide; try done.
  unfold modify. rewrite Hdeps. apply IH.
Qed.

(** [_calculateCriticalPaths] never replaces a stored length. *)
Lemma calculate_keeps (fuel : nat) :
  ∀ n c m w, criticalPathLength_of c m = Some w →
    criticalPathLength_of (snd (_calculateCriticalPaths fuel n c)) m = Some w.
Proof.
  induction fuel as [|fuel IH]; intros n c m w Hm; [done|].
  rewrite calculate_S. destruct (criticalPathLength_of c n) as [v|] eqn:Hn; [done|].
  assert (∀ v c1, criticalPathLength_of c1 m = Some w →
            criticalPathLength_of (update n (set_criticalPathLength v) c1) m = Some w)
    as Hset.
  { intros v c1 H1. destruct (decide (n ∈ names c1)) as [Hin|Hin].
    - rewrite criticalPathLength_of_set by done. rewrite decide_False; [done|].
      intros ->. congruence.
    - by rewrite update_absent. }
  destruct (dependents_of c n) as [|d ds]; [by apply Hset|].
  assert (∀ deps c1, criticalPathLength_of c1 m = Some w →
            criticalPathLength_of
              (snd (forEach_push deps (_calculateCriticalPaths fuel) c1)) m = Some w)
    as Hloop.
  { clear -IH. induction deps as [|d deps IHdeps]; intros c1 H1; [done|].
    rewrite forEach_push_cons. specialize (IH d c1 m w H1).
    destruct (_calculateCriticalPaths fuel d c1) as [[v| |] c2]; try done.
    specialize (IHdeps c2 IH).
    by destruct (forEach_push deps _ c2) as [[vs| |] c3]. }
  specialize (Hloop (d :: ds) c Hm).
  destruct (forEach_push (d :: ds) _ c) as [[lens| |] c1]; try done.
  by apply Hset.
Qed.

Lemma getOrderedTasks_keeps (fuel : nat) (c : t) (m : string) (w : Z) :
  criticalPathLength_of c m = Some w →
  criticalPathLength_of (snd (getOrderedTasks fuel c)) m = Some w.
Proof.
  intros Hm. rewrite getOrderedTasks_run.
  destruct (_checkForCyclicDependencies _ _ _ _ _) as [[[]|?|] ?]; try done.
  pose proof (for_of_invariant (fun c' => criticalPathLength_of c' m = Some w)
                (calculate_each fuel) (names c) c Hm) as Hloop.
  destruct (for_of (names c) _ c) as [[[]| |] c']; apply Hloop;
    intros n c1 _ H1; rewrite calculate_each_run;
    pose proof (calculate_keeps fuel n c1 m w H1);
    by destruct (_calculateCriticalPaths fuel n c1) as [[?| |] ?].
Qed.

Lemma call_keeps (op : Call) (c : t) (m : string) (w : Z) :
  criticalPathLength_of c m = Some w →
  criticalPathLength_of (snd (call op c)) m = Some w.
Proof.
  intros Hm. destruct op as [n|n deps]; simpl.
  - unfold addTask, bind, read, modify. destruct (hasTask c n); [done|]. simpl.
    unfold criticalPathLength_of in *. rewrite get_app. by destruct (get c m).
  - destruct (hasTask c n) eqn:Hn.
    + rewrite addDependencies_registered by done.
      apply (for_of_invariant (fun c' => criticalPathLength_of c' m = Some w)); [done|].
      intros d c1 _ H1. destruct (hasTask c1 d) eqn:Hd.
      * rewrite addDependencies_body_registered by done. simpl.
        by rewrite criticalPathLength_of_link.
      * by rewrite addDependencies_body_unregistered.
    + by rewrite addDependencies_unregistered.
Qed.

(** X8: [getOrderedTasks] on the collection that a returning
    [getOrderedTasks] left returns the same list and changes nothing: the
    stored lengths are the ones returned. *)
Theorem getOrderedTasks_again (ops : list Call) (fuel : nat) (l : list Task) (c' : t) :
  getOrderedTasks fuel (build ops) = (Returned l, c') →
  getOrderedTasks fuel c' = (Returned l, c').
Proof.
  intros Hrun.
  destruct (getOrderedTasks_returned _ _ _ _ (wf_build ops) Hrun)
    as (Hl & _ & [Hnames Hdeps] & _ & _ & Hall).
  rewrite getOrderedTasks_run in Hrun |- *.
  rewrite (check_same_dependents (build ops) c' fuel Hdeps), Hnames.
  destruct (_checkForCyclicDependencies fuel (build ops) (names (build ops)) [] ∅)
    as [[[]|?|] ?] eqn:Hcheck; try done.
  assert (for_of (names (build ops)) (calculate_each fuel) c' = (Returned tt, c'))
    as ->; [|by rewrite Hl].
  rewrite <- Hnames in Hcheck |- *.
  destruct fuel as [|fuel].
  { destruct (names c') as [|n ns]; [done|]. by rewrite check_unfold in Hcheck. }
  clear Hcheck Hrun. revert Hall. generalize (names c') as ns.
  induction ns as [|n ns IH]; intros Hall; [done|].
  rewrite for_of_cons, calculate_each_run, calculate_S.
  destruct (Hall n (list_elem_of_here _ _)) as [v ->].
  apply IH. intros m Hm. by apply Hall, list_elem_of_further.
Qed.

Lemma getOrderedTasks_again_witness :
  ∃ l c', getOrderedTasks 4 linear_chain = (Returned l, c')
          ∧ getOrderedTasks 4 c' = (Returned l, c').
Proof.
  eexists _, _. split; [vm_compute; reflexivity|].
  apply (getOrderedTasks_again
           [AddTask "A"; AddTask "B"; AddTask "C";
            AddDependencies "B" ["A"%string]; AddDependencies "C" ["B"%string]] 4).
  vm_compute. reflexivity.
Defined.

(** X9: a stored length is final: neither later calls of [addTask] and
    [addDependencies] nor a later [getOrderedTasks] change it, whatever
    dependents the task has by then. *)
Theorem stored_length_is_final (c : t) (later : list Call) (fuel : nat)
    (n : string) (v : Z) :
  criticalPathLength_of c n = Some v →
  let c' := foldl (fun c op => snd (call op c)) c later in
  criticalPathLength_of c' n = Some v
  ∧ criticalPathLength_of (snd (getOrderedTasks fuel c')) n = Some v.
Proof.
  intros Hn c'.
  assert (criticalPathLength_of c' n = Some v) as Hc'.
  { subst c'. revert c Hn. induction later as [|op later IH]; intros c Hn; [done|].
    simpl. apply IH. by apply call_keeps. }
  split; [done|]. by apply getOrderedTasks_keeps.
Qed.

(** After ordering [b] and [a], which are independent, [a] is made to depend
    on [b]: the length of [b] stays 0. *)
Lemma stored_length_is_final_witness :
  let c := snd (getOrderedTasks 3 two_roots) in
  let c' := foldl (fun c op => snd (call op c)) c [AddDependencies "a" ["b"%string]] in
  criticalPathLength_of c "b" = Some 0
  ∧ dependents_of c' "b" = ["a"%string]
  ∧ criticalPathLength_of c' "b" = Some 0
  ∧ criticalPathLength_of (snd (getOrderedTasks 3 c')) "b" = Some 0.
Proof.
  intros c c'. split; [reflexivity|]. split; [reflexivity|].
  apply (stored_length_is_final c [AddDependencies "a" ["b"%string]] 3 "b" 0).
  reflexivity.
Defined.

End CollectionProperties.

(** ** Project builder: errors, state file and order of effects *)

Module BuilderProperties.
Import ProjectBuilder ProjectBuilderFacts.

(** The path on which the command is spawned. *)
Lemma spawned_run options env file :
  Spawn (commandToRun options) ∈ trace options env file →
  restored options env = false
  ∧ isPackageUnchanged options env file && isIncrementalBuildAllowed options = false
  ∧ commandToRun options ≠ EmptyString
  ∧ trace options env file =
    prelude options env file
    ++ [DeleteFile currentDepsPath; DeleteFile legacyDepsPath;
        TerminalLine log; Spawn (commandToRun options)]
    ++ (chunk_event <$> data (childProcess env))
    ++ afterClose options env.
Proof.
  intros (_ & Hr & Hs & Hcmd)%spawn_iff. split_and!; try done. by apply trace_run.
Qed.

Lemma saved_file options env file deps path :
  SaveJson deps path ∈ trace options env file →
  fileAfter options env file = Holds deps.
Proof.
  intros Hsave. destruct (save_iff _ _ _ _ _ Hsave) as (Hdeps & _ & Hr & Hs).
  revert Hsave. unfold trace, fileAfter. rewrite Hr, Hs, Hdeps.
  case_bool_decide as Hcmd; [done|].
  rewrite elem_of_app. intros [H|H].
  { by apply prelude_inv in H as [|[? ?]]. }
  revert H. unfold afterClose. events_facts.
  case_bool_decide; [events_facts; naive_solver|].
  destruct (wroteStderr env); [events_facts; naive_solver|done].
Qed.

Lemma unsaved_file options env file :
  restored options env = false →
  isPackageUnchanged options env file && isIncrementalBuildAllowed options = false →
  (∀ deps path, SaveJson deps path ∉ trace options env file) →
  fileAfter options env file = Absent.
Proof.
  intros Hr Hs Hsave. unfold fileAfter. rewrite Hr, Hs.
  assert (is_Some (projectBuildDeps options env) →
          (commandToRun options = EmptyString
           ∨ (code (childProcess env) = 0 ∧ wroteStderr env = false)) → False) as Hno.
  { intros [deps Hdeps] Hpath. apply (Hsave deps currentDepsPath).
    unfold trace. rewrite Hr, Hs, Hdeps. destruct Hpath as [Hcmd|[Hcode Hstd]].
    - rewrite (bool_decide_eq_true_2 _ Hcmd). events_facts. tauto.
    - case_bool_decide; [events_facts; tauto|].
      unfold afterClose, afterSuccess.
      rewrite (bool_decide_eq_false_2 (_ ≠ 0)), Hstd, Hdeps by lia.
      events_facts. tauto. }
  case_bool_decide as Hcmd.
  - destruct (projectBuildDeps options env); [|done]. exfalso. eauto.
  - case_bool_decide as Hcode; [done|]. destruct (wroteStderr env) eqn:Hstd; [done|].
    destruct (projectBuildDeps options env); [|done]. exfalso.
    apply Hno; [eauto|]. right. split; [lia|done].
Qed.

(** A restore is attempted exactly when the builder has a cache object. *)
Lemma restore_attempted options env file :
  RestoreFromCache ∈ trace options env file ↔ is_Some (cacheObject options env).
Proof.
  split.
  - unfold trace. rewrite elem_of_app. intros [H|H].
    + revert H. unfold prelude, cacheLookupLines.
      destruct (cacheObject options env); [by eauto|].
      events_facts. repeat case_match; events_facts; naive_solver.
    + exfalso. revert H.
      destruct (restored options env); [by intros ?%elem_of_nil|].
      destruct (_ && _); [by intros ?%elem_of_nil|].
      case_bool_decide as Hcmd.
      { events_facts. case_match; events_facts; naive_solver. }
      events_facts. intros H. destruct_or! H; simplify_eq; try done.
      { by destruct H as (? & ? & ? & ?). }
      apply afterClose_inv in H as (_ & _ & H).
      apply afterSuccess_inv in H as [(? & _ & ?)|[_ H]]; [done|].
      by apply cacheWrite_inv in H as [|[? ?]].
  - intros [cache Hc]. unfold trace, prelude. rewrite Hc. events_facts. tauto.
Qed.

Lemma cache_written options env :
  SetCacheEntry ∈ cacheWrite options env → is_Some (cacheObject options env).
Proof.
  unfold cacheWrite, cacheLookupLines. destruct (cacheObject options env); [by eauto|].
  case_match; events_facts; naive_solver.
Qed.

(** X10: when the command was spawned and exited with a code other than
    zero, [executeAsync] throws the [TaskError] of type [executing] whose
    message gives the code: the [TaskError] of type [error] made at the close
    of the process is caught and its message wrapped.  The state file, which
    was deleted before the command ran, is then absent, and neither the state
    file nor a cache entry was written. *)
Theorem nonzero_exit_throws options env file :
  let r := executeAsync options env (initialState file) in
  Spawn (commandToRun options) ∈ events (snd r) →
  code (childProcess env) ≠ 0 →
  fst r = Threw (TaskError "executing"
                   ("Returned error code: " +:+ pretty (code (childProcess env))))
  ∧ depsFile (snd r) = Absent
  ∧ (∀ deps path, SaveJson deps path ∉ events (snd r))
  ∧ (SetCacheEntry ∉ events (snd r)).
Proof.
  intros r. subst r.
  rewrite executeAsync_outcome, executeAsync_events, executeAsync_depsFile.
  intros (_ & Hr & Hs & Hcmd)%spawn_iff Hcode.
  rewrite trace_run by done.
  unfold outcome, fileAfter, afterClose.
  rewrite Hr, Hs, (bool_decide_eq_false_2 _ Hcmd), (bool_decide_eq_true_2 _ Hcode).
  split_and!; [done|done| |].
  - intros deps path. events_facts. intros H. destruct_or! H; simplify_eq; try done.
    + by apply prelude_inv in H as [|[? ?]].
    + by destruct H as (? & ? & ? & ?).
  - events_facts. intros H. destruct_or! H; simplify_eq; try done.
    + by apply prelude_inv in H as [|[? ?]].
    + by destruct H as (? & ? & ? & ?).
Qed.

(** X11: the state file is a round trip: when an execution wrote the state
    file and no path of the written state is named like a member of
    [Object.prototype], the next execution of the same command with the same
    file hashes ends [Skipped], provided that incremental builds are allowed
    and no cache restore succeeds; this holds whatever status the first
    execution ended with. *)
Theorem saved_state_is_skipped options env env' file deps path :
  let r := executeAsync options env (initialState file) in
  SaveJson deps path ∈ events (snd r) →
  ordinary (files deps) →
  getPackageDeps env' = getPackageDeps env →
  restored options env' = false →
  isIncrementalBuildAllowed options = true →
  fst (executeAsync options env' (initialState (depsFile (snd r)))) = Returned Skipped.
Proof.
  intros r. subst r. rewrite executeAsync_events, executeAsync_depsFile.
  intros Hsave Hord Hsame Hr Hinc. rewrite executeAsync_outcome.
  rewrite (saved_file _ _ _ _ _ Hsave).
  apply save_iff in Hsave as (Hdeps & _).
  unfold outcome. rewrite Hr, Hinc.
  assert (isPackageUnchanged options env' (Holds deps) = true) as ->; [|done].
  apply isPackageUnchanged_true; [by intros ? [= <-]|].
  unfold projectBuildDeps in Hdeps. rewrite Hsame.
  destruct (getPackageDeps env) as [fileHashes|]; [|done].
  injection Hdeps as <-. eexists _, fileHashes. split_and!; done.
Qed.

(** X12: when an execution got past the cache restore and the comparison
    with the prior state and did not write the state file (the command
    failed, wrote to stderr, or the file hashes were unavailable), the state
    file is absent afterwards, and no later execution of any command ends
    [Skipped] on account of it. *)
Theorem unsaved_state_is_absent options env file :
  let r := executeAsync options env (initialState file) in
  fst r ≠ Returned FromCache →
  fst r ≠ Returned Skipped →
  (∀ deps path, SaveJson deps path ∉ events (snd r)) →
  depsFile (snd r) = Absent
  ∧ ∀ options' env',
      fst (executeAsync options' env' (initialState (depsFile (snd r))))
      ≠ Returned Skipped.
Proof.
  intros r. subst r.
  rewrite executeAsync_outcome, executeAsync_events, executeAsync_depsFile.
  intros Hfrom Hskip Hsave.
  assert (fileAfter options env file = Absent) as ->.
  { unfold outcome in Hfrom, Hskip.
    destruct (restored options env) eqn:Hr; [done|].
    destruct (_ && _) eqn:Hs; [done|]. by apply unsaved_file. }
  split; [done|]. intros options' env'. rewrite executeAsync_outcome.
  unfold outcome, isPackageUnchanged. simpl. repeat case_match; done.
Qed.

(** X13: when the command is spawned, the effects come in this order: lines
    on the terminal and the restore attempt, the deletion of the state file
    and of the legacy state file, the line that announces the command, the
    spawn, every chunk of the process in the order it was written, and only
    then the writes of the state file and of the cache entry. *)
Theorem effects_in_order options env file :
  let r := executeAsync options env (initialState file) in
  Spawn (commandToRun options) ∈ events (snd r) →
  ∃ before after,
    events (snd r) =
      before
      ++ [DeleteFile currentDepsPath; DeleteFile legacyDepsPath;
          TerminalLine log; Spawn (commandToRun options)]
      ++ ((fun chunk => WriteChunk (fst chunk) (snd chunk)) <$> data (childProcess env))
      ++ after
    ∧ (∀ e, e ∈ before → e = RestoreFromCache ∨ ∃ v, e = TerminalLine v)
    ∧ (∀ e, e ∈ after →
         (∃ deps, e = SaveJson deps currentDepsPath) ∨ e = SetCacheEntry
         ∨ ∃ v, e = TerminalLine v).
Proof.
  intros r. subst r. rewrite executeAsync_events.
  intros (_ & _ & _ & ->)%spawned_run.
  exists (prelude options env file), (afterClose options env). split_and!.
  - do 2 f_equal. f_equal. apply list_fmap_ext. by intros i [k x] _.
  - apply prelude_inv.
  - intros e (_ & _ & H)%afterClose_inv.
    apply afterSuccess_inv in H as [(deps & _ & ->)|[_ H]].
    + left. by exists deps.
    + right. by eapply cacheWrite_inv.
Qed.

(** X14: [trySetCacheEntryAsync] is called, whatever it then returns,
    exactly when a restore from the cache was attempted, the command was
    spawned and exited with code zero, nothing was written to stderr, and
    the build state was computed. *)
Theorem cache_write_attempted_iff options env file :
  let r := executeAsync options env (initialState file) in
  SetCacheEntry ∈ events (snd r) ↔
  RestoreFromCache ∈ events (snd r)
  ∧ Spawn (commandToRun options) ∈ events (snd r)
  ∧ code (childProcess env) = 0
  ∧ (¬ ∃ text, (Stderr, text) ∈ data (childProcess env))
  ∧ is_Some (getPackageDeps env).
Proof.
  intros r. subst r. rewrite executeAsync_events, <- wroteStderr_true.
  rewrite (restore_attempted options env file). split.
  - intros Hset. pose proof Hset as Hin. revert Hin. unfold trace at 1.
    rewrite elem_of_app. intros [H|H].
    { by apply prelude_inv in H as [|[? ?]]. }
    destruct (restored options env) eqn:Hr; [by apply elem_of_nil in H|].
    destruct (_ && _) eqn:Hs; [by apply elem_of_nil in H|].
    revert H. case_bool_decide as Hcmd.
    { events_facts. case_match; events_facts; naive_solver. }
    events_facts. intros H. destruct_or! H; simplify_eq; try done.
    { by destruct H as (? & ? & ? & ?). }
    apply afterClose_inv in H as (Hcode & Hstd & H).
    apply afterSuccess_inv in H as [(? & _ & ?)|[Hproj H]]; [done|].
    destruct Hproj as [deps Hdeps].
    apply cache_written in H. split_and!; [done| |done|by rewrite Hstd|].
    + apply spawn_iff. done.
    + unfold projectBuildDeps in Hdeps. destruct (getPackageDeps env); [eauto|done].
  - intros (Hcache & Hspawn & Hcode & Hstd & [fileHashes Hdeps]).
    apply spawned_run in Hspawn as (_ & _ & _ & ->).
    unfold afterClose, afterSuccess.
    rewrite (bool_decide_eq_false_2 (_ ≠ 0)) by lia.
    destruct (wroteStderr env); [done|].
    destruct Hcache as [cache Hc]. unfold projectBuildDeps, cacheWrite.
    rewrite Hc, Hdeps. events_facts. tauto.
Qed.

(** X15: [_areShallowEqual(object1, object2)] is true exactly when every
    property of [object1] is a property of [object2] with the same value and
    every property of [object2] is a property of [object1] or is named like a
    member of [Object.prototype], for which [in] holds of every object.  So
    for an [object2] without such a name it is true exactly when the two
    objects have the same properties with the same values; but the empty
    object is shallow-equal to an object whose only property is named
    [toString], and not the other way round. *)
Theorem areShallowEqual_in (object1 object2 : gmap string string) :
  (_areShallowEqual object1 object2 = true ↔
   (∀ n v, object1 !! n = Some v → object2 !! n = Some v)
   ∧ (∀ n, is_Some (object2 !! n) → is_Some (object1 !! n) ∨ n ∈ Object_prototype))
  ∧ (ordinary object2 →
     (_areShallowEqual object1 object2 = true ↔ ∀ n, object1 !! n = object2 !! n))
  ∧ (∀ hash : string,
       _areShallowEqual ∅ {[ "toString"%string := hash ]} = true
       ∧ _areShallowEqual {[ "toString"%string := hash ]} ∅ = false).
Proof.
  split_and!.
  - apply areShallowEqual_entries.
  - intros Hord. rewrite areShallowEqual_true by done.
    split; [by intros ->|apply map_eq].
  - intros hash. split.
    + apply areShallowEqual_entries. split.
      * intros n v. by rewrite lookup_empty.
      * intros n [v [<- _]%lookup_singleton_Some]. right.
        apply list_elem_of_In. vm_compute. tauto.
    + apply not_true_iff_false. intros [H _]%areShallowEqual_entries.
      specialize (H "toString"%string hash). rewrite lookup_singleton_eq in H.
      specialize (H eq_refl). by rewrite lookup_empty in H.
Qed.

(** X17: an execution ends [Failure] exactly when the command was spawned,
    exited with code zero and wrote nothing to stderr, the build state was
    computed, and an error line was written to the task's terminal. *)
Theorem failure_iff options env file :
  let r := executeAsync options env (initialState file) in
  fst r = Returned Failure ↔
  Spawn (commandToRun options) ∈ events (snd r)
  ∧ code (childProcess env) = 0
  ∧ (¬ ∃ text, (Stderr, text) ∈ data (childProcess env))
  ∧ is_Some (getPackageDeps env)
  ∧ TerminalLine error ∈ events (snd r).
Proof.
  intros r. subst r. rewrite executeAsync_outcome, executeAsync_events.
  rewrite <- wroteStderr_true. split.
  - unfold outcome.
    destruct (restored options env) eqn:Hr; [done|].
    destruct (_ && _) eqn:Hs; [done|].
    case_bool_decide as Hcmd; [done|].
    case_bool_decide as Hcode; [done|].
    destruct (wroteStderr env) eqn:Hstd; [done|].
    unfold projectBuildDeps. destruct (getPackageDeps env) as [hashes|] eqn:Hdeps; [|done].
    destruct (errorsWritten options env) eqn:Herr; [|by repeat case_match].
    intros _. rewrite trace_run by done. split_and!; [events_facts; tauto|lia|done|by eauto|].
    unfold errorsWritten in Herr. unfold prelude, afterClose, afterSuccess, cacheWrite,
      projectBuildDeps.
    rewrite (bool_decide_eq_false_2 (_ ≠ 0)), Hstd, Hdeps by lia.
    destruct (cacheObject options env) as [cache|]; [|done].
    apply orb_true_iff in Herr as [Herr%existsb_isError|Herr%existsb_isError];
      events_facts; tauto.
  - intros ((_ & Hr & Hs & Hcmd)%spawn_iff & Hcode & Hstd & [hashes Hdeps] & Herr).
    rewrite trace_run in Herr by done.
    unfold outcome. rewrite Hr, Hs, (bool_decide_eq_false_2 _ Hcmd).
    rewrite (bool_decide_eq_false_2 (_ ≠ 0)) by lia.
    destruct (wroteStderr env) eqn:Hw; [done|].
    revert Herr. unfold prelude, afterClose, afterSuccess, cacheWrite, projectBuildDeps,
      errorsWritten, cacheLookupLines.
    rewrite (bool_decide_eq_false_2 (_ ≠ 0)), Hw, Hdeps by lia.
    destruct (cacheObject options env) as [[[r rs] [w ws]]|]; simpl.
    + set (l := _ ++ _).
      assert (TerminalLine error ∈ l ↔ error ∈ rs ∨ error ∈ ws) as ->.
      { subst l. destruct file; events_facts.
        all: split; [|tauto]; intros H; destruct_or! H; simplify_eq; try tauto.
        all: by destruct H as (? & ? & ? & ?). }
      rewrite <- !existsb_isError, <- orb_true_iff. by intros ->.
    + set (l := _ ++ _). intros Herr. exfalso. revert Herr. subst l.
      destruct file; events_facts; repeat case_match; events_facts; naive_solver.
Qed.


Lemma executeAsync_hadEmptyScript options env file :
  hadEmptyScript (snd (executeAsync options env (initialState file)))
  = bool_decide (commandToRun options = EmptyString).
Proof.
  destruct options as [pn bcc cmd inc], env as [gpd tl pbc [dat cod]].
  run_builder.
  all: try reflexivity.
  all: clean_decides; try congruence.
Qed.

(** X16: after [executeAsync] the builder's [hadEmptyScript] is set exactly
    when the command string is empty, whatever the execution ended with. *)
Theorem hadEmptyScript_iff options env file :
  hadEmptyScript (snd (executeAsync options env (initialState file))) = true
  ↔ commandToRun options = EmptyString.
Proof. rewrite executeAsync_hadEmptyScript. apply bool_decide_eq_true. Qed.

Lemma executeAsync_projectBuildCache options env file :
  _projectBuildCache (snd (executeAsync options env (initialState file)))
  = cacheObject options env.
Proof.
  destruct options as [pn bcc cmd inc], env as [gpd tl pbc [dat cod]].
  run_builder.
  all: try reflexivity.
  all: clean_decides; try congruence.
Qed.

(** X18: an execution ends [FromCache] exactly when a build cache is
    configured, the project has a build-cache configuration, the builder got
    a cache object for the project, which it keeps, and the restore from that
    object succeeded. *)
Theorem fromCache_iff options env file :
  let r := executeAsync options env (initialState file) in
  fst r = Returned FromCache ↔
  buildCacheConfiguration options = true
  ∧ tryLoadForProjectAsync env = true
  ∧ ∃ cache, _projectBuildCache (snd r) = Some cache
             ∧ fst (tryRestoreFromCacheAsync cache) = true.
Proof.
  intros r. subst r.
  rewrite executeAsync_outcome, executeAsync_projectBuildCache.
  unfold outcome, restored.
  destruct (cacheObject options env) as [cache|] eqn:Hcache.
  - assert (buildCacheConfiguration options = true
            ∧ tryLoadForProjectAsync env = true) as [-> ->].
    { unfold cacheObject in Hcache.
      destruct (buildCacheConfiguration options), (tryLoadForProjectAsync env); done. }
    destruct (fst (tryRestoreFromCacheAsync cache)) eqn:E.
    + split; [|done]. intros _. split_and!; eauto.
    + split; [repeat case_match; done|].
      intros (_ & _ & cache' & [= <-] & ?). congruence.
  - split; [repeat case_match; done|]. intros (_ & _ & ? & ? & _). done.
Qed.

(** *** Sample executions *)

(** The command exits with code 1. *)
Definition failing_env : Environment :=
  mkEnvironment (Some sample_fileHashes) false None (mkChild [(Stdout, "oops"%string)] 1).

Lemma nonzero_exit_throws_witness :
  let r := executeAsync plain_options failing_env (initialState empty_file) in
  Spawn "build" ∈ events (snd r)
  ∧ code (childProcess failing_env) ≠ 0
  ∧ fst r = Threw (TaskError "executing" "Returned error code: 1")
  ∧ depsFile (snd r) = Absent
  ∧ (∀ deps path, SaveJson deps path ∉ events (snd r))
  ∧ (SetCacheEntry ∉ events (snd r)).
Proof.
  intros r.
  assert (Spawn "build" ∈ events (snd r)) as Hspawn.
  { apply list_elem_of_In. vm_compute. tauto. }
  assert (code (childProcess failing_env) ≠ 0) as Hcode by (vm_compute; discriminate).
  split; [exact Hspawn|]. split; [exact Hcode|].
  exact (nonzero_exit_throws plain_options failing_env empty_file Hspawn Hcode).
Defined.

Lemma saved_state_is_skipped_witness :
  let r := executeAsync plain_options plain_env (initialState Absent) in
  let deps := mkDeps (files_of sample_fileHashes) "build" in
  SaveJson deps currentDepsPath ∈ events (snd r)
  ∧ ordinary (files deps)
  ∧ fst (executeAsync plain_options plain_env (initialState (depsFile (snd r))))
    = Returned Skipped.
Proof.
  intros r deps.
  assert (SaveJson deps currentDepsPath ∈ events (snd r)) as Hsave.
  { apply list_elem_of_In. vm_compute. tauto. }
  split; [exact Hsave|]. split; [exact ordinary_sample|].
  apply (saved_state_is_skipped plain_options plain_env plain_env Absent deps
           currentDepsPath Hsave ordinary_sample); reflexivity.
Defined.

Lemma areShallowEqual_in_witness :
  let object := files_of sample_fileHashes in
  ordinary object
  ∧ (_areShallowEqual object object = true ↔ ∀ n, object !! n = object !! n).
Proof.
  intros object. split; [exact ordinary_sample|].
  exact (proj1 (proj2 (areShallowEqual_in object object)) ordinary_sample).
Defined.

Lemma unsaved_state_is_absent_witness :
  let r := executeAsync plain_options failing_env
             (initialState (Holds (mkDeps (files_of sample_fileHashes) "test"))) in
  fst r = Threw (TaskError "executing" "Returned error code: 1")
  ∧ depsFile (snd r) = Absent
  ∧ ∀ options' env',
      fst (executeAsync options' env' (initialState (depsFile (snd r))))
      ≠ Returned Skipped.
Proof.
  intros r. split; [reflexivity|].
  apply (unsaved_state_is_absent plain_options failing_env
           (Holds (mkDeps (files_of sample_fileHashes) "test"))).
  - discriminate.
  - discriminate.
  - intros deps path H. apply list_elem_of_In in H. vm_compute in H.
    intuition discriminate.
Defined.

Lemma effects_in_order_witness :
  let r := executeAsync plain_options plain_env (initialState Absent) in
  Spawn "build" ∈ events (snd r)
  ∧ ∃ before after,
      events (snd r) =
        before
        ++ [DeleteFile currentDepsPath; DeleteFile legacyDepsPath;
            TerminalLine log; Spawn (commandToRun plain_options)]
        ++ ((fun chunk => WriteChunk (fst chunk) (snd chunk))
              <$> data (childProcess plain_env))
        ++ after
      ∧ (∀ e, e ∈ before → e = RestoreFromCache ∨ ∃ v, e = TerminalLine v)
      ∧ (∀ e, e ∈ after →
           (∃ deps, e = SaveJson deps currentDepsPath) ∨ e = SetCacheEntry
           ∨ ∃ v, e = TerminalLine v).
Proof.
  intros r.
  assert (Spawn "build" ∈ events (snd r)) as Hspawn.
  { apply list_elem_of_In. vm_compute. tauto. }
  split; [exact Hspawn|].
  exact (effects_in_order plain_options plain_env Absent Hspawn).
Defined.

End BuilderProperties.

(** ** convertSlashesForWindows *)

Module WindowsCommand.

(** A string is the sequence of its code units; those of the model's strings
    are below 256. *)
Definition slash : ascii := "/"%char.
Definition backslash : ascii := ascii_of_nat 92.

(** The characters of the class [\s] among the code units below 256: U+0009
    to U+000D, U+0020 and U+00A0. *)
Definition isWhiteSpace (c : ascii) : bool :=
  let n := nat_of_ascii c in
  ((9 <=? n)%nat && (n <=? 13)%nat) || (n =? 32)%nat || (n =? 160)%nat.

(** The line terminators, which [.] does not match, among the code units
    below 256: U+000A and U+000D. *)
Definition isLineTerminator (c : ascii) : bool :=
  let n := nat_of_ascii c in (n =? 10)%nat || (n =? 13)%nat.

(** The class of the first group: any character but those of [\s], [&], [|],
    [<], [>] and the double quote. *)
Definition isCommandChar (c : ascii) : bool :=
  negb (isWhiteSpace c
        || existsb (Ascii.eqb c)
             ["&"%char; "|"%char; "<"%char; ">"%char; ascii_of_nat 34]).

(** The longest prefix of characters of a class, and what follows it. *)
Fixpoint span (p : ascii → bool) (s : string) : string * string :=
  match s with
  | EmptyString => (EmptyString, EmptyString)
  | String c rest =>
      if p c then (String c (fst (span p rest)), snd (span p rest))
      else (EmptyString, s)
  end.

Fixpoint existsb_string (p : ascii → bool) (s : string) : bool :=
  match s with
  | EmptyString => false
  | String c rest => p c || existsb_string p rest
  end.

(** [commandRegExp.exec(command)], giving the two groups: one or more
    characters of the class at the start of the input, then any characters
    that [.] matches up to the end of the input.  The first group is greedy
    and its class excludes the line terminators; the second cannot reach the
    end of the input across a line terminator.  So a match takes the longest
    prefix of characters of the class as the first group, and there is one
    exactly when that prefix is not empty and no line terminator follows
    it. *)
Definition commandRegExp_exec (command : string) : option (string * string) :=
  let commandPart := fst (span isCommandChar command) in
  let remainder := snd (span isCommandChar command) in
  if bool_decide (commandPart = EmptyString) then None
  else if existsb_string isLineTerminator remainder then None
  else Some (commandPart, remainder).

(** [text.indexOf(c)] for a single character. *)
Fixpoint indexOf (text : string) (c : ascii) : Z :=
  match text with
  | EmptyString => -1
  | String a rest =>
      if Ascii.eqb a c then 0
      else let i := indexOf rest c in if i <? 0 then -1 else i + 1
  end.

(** Modelled from the spec: [Text.replaceAll] belongs to node-core-library,
    which is not among the sources; it replaces every occurrence of the
    searched text, here a single character, by the replacement. *)
Fixpoint replaceAll (text : string) (searchValue replaceValue : ascii) : string :=
  match text with
  | EmptyString => EmptyString
  | String a rest =>
      String (if Ascii.eqb a searchValue then replaceValue else a)
             (replaceAll rest searchValue replaceValue)
  end.

(** [convertSlashesForWindows(command)] *)
Definition convertSlashesForWindows (command : string) : string :=
  match commandRegExp_exec command with
  | Some (commandPart, remainder) =>
      if indexOf commandPart backslash <? 0 then
        replaceAll commandPart slash backslash +:+ remainder
      else command
  | None => command
  end.

End WindowsCommand.

Module WindowsCommandFacts.
Import WindowsCommand.

Fixpoint forallb_string (p : ascii → bool) (s : string) : bool :=
  match s with
  | EmptyString => true
  | String c rest => p c && forallb_string p rest
  end.

(** What may follow the first group: nothing, or a character outside the
    class. *)
Definition stops (p : ascii → bool) (s : string) : Prop :=
  match s with
  | EmptyString => True
  | String c _ => p c = false
  end.

Lemma append_String (c : ascii) (a b : string) :
  String c a +:+ b = String c (a +:+ b).
Proof. reflexivity. Qed.

Lemma append_empty (b : string) : EmptyString +:+ b = b.
Proof. reflexivity. Qed.

Lemma span_append (p : ascii → bool) (s : string) :
  fst (span p s) +:+ snd (span p s) = s.
Proof.
  induction s as [|c s IH]; [done|]. simpl. destruct (p c); simpl; [|done].
  by rewrite append_String, IH.
Qed.

Lemma span_prefix (p : ascii → bool) (s : string) :
  forallb_string p (fst (span p s)) = true.
Proof.
  induction s as [|c s IH]; [done|]. simpl. destruct (p c) eqn:E; simpl; [|done].
  by rewrite E, IH.
Qed.

Lemma span_stops (p : ascii → bool) (s : string) : stops p (snd (span p s)).
Proof.
  induction s as [|c s IH]; [done|]. simpl. by destruct (p c) eqn:E.
Qed.

Lemma span_parts (p : ascii → bool) (a b : string) :
  forallb_string p a = true → stops p b → span p (a +:+ b) = (a, b).
Proof.
  intros Ha Hb. induction a as [|c a IH]; simpl in *.
  - rewrite ?append_empty. destruct b as [|c b]; [done|]. simpl in *. by rewrite Hb.
  - rewrite ?append_String. simpl.
    apply andb_true_iff in Ha as [-> Ha]. by rewrite IH.
Qed.

Lemma indexOf_bounds (text : string) (c : ascii) :
  -1 ≤ indexOf text c
  ∧ (indexOf text c <? 0) = negb (existsb_string (fun a => Ascii.eqb a c) text).
Proof.
  induction text as [|a text [Hge IH]]; simpl; [done|].
  destruct (Ascii.eqb a c); simpl; [done|].
  rewrite <- IH. destruct (Z.ltb_spec (indexOf text c) 0) as [Hlt|Hnn]; [done|].
  split; [lia|]. apply Z.ltb_ge. lia.
Qed.

Lemma indexOf_negative (text : string) (c : ascii) :
  (indexOf text c <? 0) = negb (existsb_string (fun a => Ascii.eqb a c) text).
Proof. apply indexOf_bounds. Qed.

Lemma lineTerminator_stops (c : ascii) :
  isLineTerminator c = true → isCommandChar c = false.
Proof.
  destruct c as [[] [] [] [] [] [] [] []]; vm_compute; intros; congruence.
Qed.

Lemma existsb_string_append (p : ascii → bool) (a b : string) :
  existsb_string p (a +:+ b) = existsb_string p a || existsb_string p b.
Proof.
  induction a as [|c a IH]; [done|]. rewrite ?append_String. simpl.
  by rewrite IH, orb_assoc.
Qed.

Lemma commandPart_no_lineTerminator (a : string) :
  forallb_string isCommandChar a = true → existsb_string isLineTerminator a = false.
Proof.
  induction a as [|c a IH]; [done|]. simpl. intros [Hc Ha]%andb_true_iff.
  rewrite IH by done. destruct (isLineTerminator c) eqn:E; [|done].
  apply lineTerminator_stops in E. congruence.
Qed.

Lemma replaceAll_commandPart (a : string) :
  forallb_string isCommandChar a = true →
  forallb_string isCommandChar (replaceAll a slash backslash) = true.
Proof.
  induction a as [|c a IH]; [done|]. simpl. intros [Hc Ha]%andb_true_iff.
  rewrite IH by done. destruct (Ascii.eqb c slash); [reflexivity|by rewrite Hc].
Qed.

Lemma replaceAll_absent (a : string) (x y : ascii) :
  existsb_string (fun c => Ascii.eqb c x) a = false → replaceAll a x y = a.
Proof.
  induction a as [|c a IH]; [done|]. simpl. intros [Hc Ha]%orb_false_iff.
  by rewrite Hc, IH.
Qed.

Lemma replaceAll_gone (a : string) :
  existsb_string (fun c => Ascii.eqb c slash) (replaceAll a slash backslash) = false.
Proof.
  induction a as [|c a IH]; [done|]. simpl. rewrite IH.
  by destruct (Ascii.eqb c slash) eqn:E; [|rewrite E].
Qed.

Lemma replaceAll_length (a : string) (x y : ascii) :
  String.length (replaceAll a x y) = String.length a.
Proof. induction a as [|c a IH]; [done|]. simpl. by rewrite IH. Qed.

Lemma exec_parts (a b : string) :
  a ≠ EmptyString → forallb_string isCommandChar a = true →
  stops isCommandChar b → existsb_string isLineTerminator b = false →
  commandRegExp_exec (a +:+ b) = Some (a, b).
Proof.
  intros Ha Hall Hb Hlt. unfold commandRegExp_exec. rewrite span_parts by done.
  simpl. by rewrite bool_decide_eq_false_2, Hlt.
Qed.

Lemma exec_Some (command a b : string) :
  commandRegExp_exec command = Some (a, b) →
  command = a +:+ b ∧ a ≠ EmptyString ∧ forallb_string isCommandChar a = true
  ∧ stops isCommandChar b ∧ existsb_string isLineTerminator b = false.
Proof.
  unfold commandRegExp_exec. case_bool_decide as Ha; [done|].
  destruct (existsb_string _ _) eqn:Hlt; [done|]. intros [= <- <-].
  split_and!; [by rewrite span_append|done|apply span_prefix|apply span_stops|done].
Qed.

Lemma convert_parts (a b : string) :
  a ≠ EmptyString → forallb_string isCommandChar a = true →
  stops isCommandChar b → existsb_string isLineTerminator b = false →
  convertSlashesForWindows (a +:+ b) =
  (if existsb_string (fun c => Ascii.eqb c backslash) a then a
   else replaceAll a slash backslash) +:+ b.
Proof.
  intros Ha Hall Hb Hlt. unfold convertSlashesForWindows.
  rewrite exec_parts, indexOf_negative by done.
  by destruct (existsb_string _ a).
Qed.

(** X19: for a command that starts with one or more characters other than
    white space, [&], [|], [<], [>] and the double quote, followed by nothing
    or by one of those characters and a rest without line break,
    [convertSlashesForWindows] turns every slash of that first part into a
    backslash if the part has no backslash yet, and leaves the command as it
    is otherwise; what follows the first part is never touched.  The example
    of the source's comment comes out as given there. *)
Theorem convertSlashes_command_part (commandPart remainder : string) :
  commandPart ≠ EmptyString →
  forallb_string isCommandChar commandPart = true →
  stops isCommandChar remainder →
  existsb_string isLineTerminator remainder = false →
  convertSlashesForWindows (commandPart +:+ remainder) =
    (if existsb_string (fun c => Ascii.eqb c backslash) commandPart then commandPart
     else replaceAll commandPart slash backslash) +:+ remainder
  ∧ convertSlashesForWindows "bin/blarg --path ./config/blah.json && a/b"
    = "bin" +:+ String backslash "blarg --path ./config/blah.json && a/b".
Proof. intros. split; [by apply convert_parts|reflexivity]. Qed.

Lemma convertSlashes_command_part_witness :
  convertSlashesForWindows ("node_modules/bin/this" +:+ " && ./scripts/that --name keep/this")
  = String.append "node_modules"
      (String backslash (String.append "bin"
         (String backslash "this && ./scripts/that --name keep/this"))).
Proof.
  refine (proj1 (convertSlashes_command_part "node_modules/bin/this"
                   " && ./scripts/that --name keep/this" _ _ _ _));
    [discriminate|reflexivity..].
Defined.

(** X20: [convertSlashesForWindows] leaves the command as it is when it is
    empty, when it starts with white space, [&], [|], [<], [>] or a double
    quote, and when it holds a line break anywhere. *)
Theorem convertSlashes_unchanged (command : string) :
  stops isCommandChar command ∨ existsb_string isLineTerminator command = true →
  convertSlashesForWindows command = command.
Proof.
  intros H. unfold convertSlashesForWindows.
  destruct (commandRegExp_exec command) as [[a b]|] eqn:E; [|done].
  exfalso. apply exec_Some in E as (-> & Ha & Hall & Hb & Hlt).
  destruct H as [H|H].
  - destruct a as [|c a]; [done|]. simpl in *. apply andb_true_iff in Hall as [Hc _].
    congruence.
  - rewrite existsb_string_append, Hlt, commandPart_no_lineTerminator in H; done.
Qed.

Lemma convertSlashes_unchanged_witness :
  convertSlashesForWindows " bin/blarg" = " bin/blarg".
Proof.
  apply (convertSlashes_unchanged " bin/blarg"). left. reflexivity.
Defined.

(** X21: [convertSlashesForWindows] keeps the length of the command, changes
    a character only from a slash into a backslash, and converting the result
    again changes nothing. *)
Theorem convertSlashes_idempotent (command : string) :
  convertSlashesForWindows (convertSlashesForWindows command)
  = convertSlashesForWindows command
  ∧ String.length (convertSlashesForWindows command) = String.length command
  ∧ ∀ i, String.get i (convertSlashesForWindows command) = String.get i command
         ∨ (String.get i command = Some slash
            ∧ String.get i (convertSlashesForWindows command) = Some backslash).
Proof.
  remember (convertSlashesForWindows command) as r eqn:Hr.
  unfold convertSlashesForWindows in Hr.
  destruct (commandRegExp_exec command) as [[a b]|] eqn:E.
  2:{ subst r. split_and!; [|done|intros; by left].
      unfold convertSlashesForWindows. by rewrite E. }
  apply exec_Some in E as (-> & Ha & Hall & Hb & Hlt).
  rewrite indexOf_negative in Hr.
  destruct (existsb_string _ a) eqn:Hback; simpl in Hr; subst r.
  { split_and!; [|done|intros; by left]. rewrite convert_parts by done.
    by rewrite Hback. }
  split_and!.
  - rewrite convert_parts; [| |by apply replaceAll_commandPart|done..].
    + destruct (existsb_string _ (replaceAll a slash backslash)); [done|].
      by rewrite (replaceAll_absent (replaceAll a slash backslash))
        by apply replaceAll_gone.
    + by destruct a.
  - clear. induction a as [|c a IH]; [done|]. simpl. rewrite ?append_String.
    simpl. by rewrite IH.
  - clear. induction a as [|c a IH]; intros i; [by left|]. simpl.
    rewrite ?append_String. simpl. destruct i as [|i]; [|apply IH].
    destruct (Ascii.eqb c slash) eqn:E; [|by left].
    right. by apply Ascii.eqb_eq in E as ->.
Qed.

End WindowsCommandFacts.

(** ** TaskSelector: the links of the registered tasks *)

Module SelectorProperties.
Import TaskSelector TaskSelectorFacts.
Import TaskCollection TaskCollectionFacts.

Section Links.
Variable win32 : bool.
Variable convertSlashesForWindows : string → string.
Variable options : ITaskSelectorConstructor.

Abbreviation cfg := (rushConfiguration options).
Abbreviation registerTask := (_registerTask win32 convertSlashesForWindows options).

Lemma getScriptToRun_state {S : Type} (project : RushConfigurationProject) (s : S) :
  snd (_getScriptToRun win32 convertSlashesForWindows options project s) = s.
Proof.
  unfold _getScriptToRun. repeat case_match; done.
Qed.

(** [_registerTask] leaves the collection as it was or as [addTask] leaves
    it. *)
Lemma registerTask_state (project : option RushConfigurationProject) (c : t) :
  snd (registerTask project c) = c
  ∨ ∃ n, hasTask c n = false ∧ snd (registerTask project c) = snd (addTask n c).
Proof.
  destruct project as [project|]; [|by left]. unfold _registerTask, bind, read.
  destruct (hasTask c (packageName project)) eqn:Hhas; [by left|].
  pose proof (getScriptToRun_state project c) as Hs.
  destruct (_getScriptToRun _ _ _ _ c) as [[cmd|e|] s]; simpl in Hs; subst s;
    [|by left..].
  right. by exists (packageName project).
Qed.

Lemma addTask_keeps_dependencies (n m : string) (c : t) :
  dependencies_of (snd (addTask n c)) m = dependencies_of c m.
Proof.
  unfold addTask, bind, read, modify. destruct (hasTask c n); [done|]. simpl.
  unfold dependencies_of. rewrite TaskOrderFacts.get_app.
  destruct (get c m); [done|]. simpl. by destruct (decide _).
Qed.

Lemma registerTask_keeps (project : option RushConfigurationProject) (c : t) :
  TaskOrderFacts.wf c →
  TaskOrderFacts.wf (snd (registerTask project c))
  ∧ ∀ m, dependencies_of (snd (registerTask project c)) m = dependencies_of c m.
Proof.
  intros Hwf. destruct (registerTask_state project c) as [->|(n & _ & ->)]; [done|].
  split; [by apply TaskOrderFacts.wf_addTask|]. intros m.
  apply addTask_keeps_dependencies.
Qed.

Lemma register_loop_keeps {A : Type} (f : A → option RushConfigurationProject)
    (items : list A) (c : t) :
  TaskOrderFacts.wf c →
  TaskOrderFacts.wf (snd (for_of items (fun i => registerTask (f i)) c))
  ∧ ∀ m, dependencies_of (snd (for_of items (fun i => registerTask (f i)) c)) m
         = dependencies_of c m.
Proof.
  intros Hwf.
  apply (for_of_invariant
           (fun c' => TaskOrderFacts.wf c'
                      ∧ ∀ m, dependencies_of c' m = dependencies_of c m)); [done|].
  intros i c1 _ [Hwf1 Hdeps1].
  destruct (registerTask_keeps (f i) c1 Hwf1) as [Hwf2 Hdeps2].
  split; [done|]. intros m. by rewrite Hdeps2.
Qed.

Lemma order_loop_links {A : Type} (nameOf : A → string) (depsOf : A → list string)
    (items : list A) (c c' : t) :
  TaskOrderFacts.wf c →
  for_of items (fun i => addDependencies (nameOf i) (Some (depsOf i))) c
  = (Returned tt, c') →
  TaskOrderFacts.wf c'
  ∧ ∀ a b, b ∈ dependencies_of c' a ↔
           b ∈ dependencies_of c a
           ∨ ∃ i, i ∈ items ∧ nameOf i = a ∧ b ∈ depsOf i.
Proof.
  revert c. induction items as [|i items IH]; intros c Hwf.
  - intros [= <-]. split; [done|]. intros a b. split; [by left|].
    by intros [?|(? & []%elem_of_nil & _)].
  - rewrite for_of_cons.
    pose proof (TaskOrderFacts.wf_addDependencies (nameOf i) (depsOf i) c Hwf) as Hwf1.
    destruct (addDependencies (nameOf i) (Some (depsOf i)) c) as [[[]|e|] c1] eqn:E;
      try done.
    apply CollectionProperties.addDependencies_returned in E as (_ & _ & _ & Hdeps & _).
    intros Hrun. destruct (IH c1 Hwf1 Hrun) as [Hwf' Hdeps'].
    split; [done|]. intros a b. rewrite Hdeps', Hdeps. split.
    + intros [[?|[-> ?]]|(j & ? & ? & ?)]; [by left| |].
      * right. exists i. split_and!; [apply list_elem_of_here|done..].
      * right. exists j. split_and!; [by apply list_elem_of_further|done..].
    + intros [?|(j & [->|?]%elem_of_cons & <- & ?)]; [by left; left| |].
      * left. by right.
      * right. by exists j.
Qed.

(** A phase: registrations, then the ordering relationships unless they are
    to be ignored. *)
Lemma phase_links {A : Type} (f : A → option RushConfigurationProject)
    (nameOf : A → string) (depsOf : A → list string) (items : list A) (c c' : t) :
  TaskOrderFacts.wf c →
  (for_of items (fun i => registerTask (f i)) ;;
   if ignoreDependencyOrder options then ret tt
   else for_of items (fun i => addDependencies (nameOf i) (Some (depsOf i)))) c
  = (Returned tt, c') →
  TaskOrderFacts.wf c'
  ∧ ∀ a b, b ∈ dependencies_of c' a ↔
           b ∈ dependencies_of c a
           ∨ (ignoreDependencyOrder options = false
              ∧ ∃ i, i ∈ items ∧ nameOf i = a ∧ b ∈ depsOf i).
Proof.
  intros Hwf. unfold bind.
  destruct (register_loop_keeps f items c Hwf) as [Hwf1 Hdeps1].
  destruct (for_of items _ c) as [[[]|e|] c1]; try done. simpl in *.
  destruct (ignoreDependencyOrder options).
  - intros [= <-]. split; [done|]. intros a b. rewrite Hdeps1. naive_solver.
  - intros Hrun. destruct (order_loop_links _ _ _ _ _ Hwf1 Hrun) as [Hwf' Hdeps'].
    split; [done|]. intros a b. rewrite Hdeps', Hdeps1. naive_solver.
Qed.

End Links.


Section LinkPhases.
Variable win32 : bool.
Variable convertSlashesForWindows : string → string.
Variable options : ITaskSelectorConstructor.
Hypothesis Hwf : wf_selector options.

Abbreviation cfg := (rushConfiguration options).

Lemma registerToProjects_links (fuel : nat) (c c' : t) :
  TaskOrderFacts.wf c →
  _registerToProjects win32 convertSlashesForWindows fuel options (toProjects options) c
  = (Returned tt, c') →
  TaskOrderFacts.wf c'
  ∧ ∀ a b, b ∈ dependencies_of c' a ↔
           b ∈ dependencies_of c a
           ∨ (ignoreDependencyOrder options = false
              ∧ upstream cfg (toProjects options) a ∧ projectDependsOn cfg a b).
Proof.
  intros Hc. unfold _registerToProjects. unfold bind at 1. unfold local.
  erewrite for_of_ext; [|intros; apply collectAllDependencies_collect].
  destruct (for_of (toProjects options) _ []) as [[[]|e|] result] eqn:Hrun; try done.
  pose proof (collected_closure _ _ _ _ Hrun) as [_ Hres].
  intros Hphase.
  destruct (phase_links win32 convertSlashesForWindows options
              (project_of cfg) (fun n : string => n) (localDependencyProjects_of cfg)
              result c c' Hc Hphase) as [Hc' Hdeps].
  split; [done|]. intros a b. rewrite Hdeps. unfold upstream, projectDependsOn.
  split; (intros [?|[Hi H]]; [by left|right; split; [done|]]).
  - destruct H as (i & Hin%Hres & -> & Hb). done.
  - destruct H as [Ha%Hres Hb]. by exists a.
Qed.

Lemma registerFromProjects_links (fuel : nat) (c c' : t) :
  TaskOrderFacts.wf c →
  _registerFromProjects win32 convertSlashesForWindows fuel options
    (fromProjects options) c
  = (Returned tt, c') →
  TaskOrderFacts.wf c'
  ∧ ∀ a b, b ∈ dependencies_of c' a ↔
           b ∈ dependencies_of c a
           ∨ (ignoreDependencyOrder options = false
              ∧ downstream cfg (fromProjects options) a
              ∧ downstream cfg (fromProjects options) b
              ∧ projectDependsOn cfg a b).
Proof.
  intros Hc. unfold _registerFromProjects. unfold bind at 1. unfold local.
  set (successors := fun p => default [] (_getDependentGraph cfg !! p)).
  erewrite for_of_ext; [|intros; apply collectAllDependents_collect].
  destruct (for_of (fromProjects options) _ []) as [[[]|e|] result] eqn:Hrun; try done.
  pose proof (collected_closure _ _ _ _ Hrun) as [_ Hres].
  assert (∀ x, x ∈ result ↔ downstream cfg (fromProjects options) x) as Hdown.
  { intros x. rewrite Hres. unfold downstream.
    assert (∀ r, rtc (edge successors) r x ↔ rtc (projectDependsOn cfg) x r) as Hrtc.
    { intros r. rewrite <- rtc_flip. apply rtc_iff. intros a b.
      apply getDependentGraph_dependsOn, Hwf. }
    split; intros (r & ? & ?%Hrtc); eauto. }
  intros Hphase.
  destruct (phase_links win32 convertSlashesForWindows options
              (project_of cfg) (fun n : string => n)
              (fun n => filter (fun dep => dep ∈ result) (localDependencyProjects_of cfg n))
              result c c' Hc Hphase) as [Hc' Hdeps].
  split; [done|]. intros a b. rewrite Hdeps. unfold projectDependsOn.
  split; (intros [?|[Hi H]]; [by left|right; split; [done|]]).
  - destruct H as (i & Hin%Hdown & -> & [Hb%Hdown ?]%list_elem_of_filter). done.
  - destruct H as (Ha%Hdown & Hb%Hdown & Hab). exists a. split_and!; [done..|].
    by apply list_elem_of_filter.
Qed.

Lemma registerAll_links (c c' : t) :
  TaskOrderFacts.wf c →
  _registerAll win32 convertSlashesForWindows options c = (Returned tt, c') →
  TaskOrderFacts.wf c'
  ∧ ∀ a b, b ∈ dependencies_of c' a ↔
           b ∈ dependencies_of c a
           ∨ (ignoreDependencyOrder options = false ∧ projectDependsOn cfg a b).
Proof.
  intros Hc Hphase. unfold _registerAll in Hphase.
  destruct (phase_links win32 convertSlashesForWindows options
              Some packageName localDependencyProjects cfg c c' Hc Hphase)
    as [Hc' Hdeps].
  split; [done|]. intros a b. rewrite Hdeps. unfold projectDependsOn.
  split; (intros [?|[Hi H]]; [by left|right; split; [done|]]).
  - destruct H as (project & Hin & <- & Hb).
    by rewrite localDependencyProjects_of_elem by (done || apply Hwf).
  - unfold localDependencyProjects_of in H.
    destruct (project_of cfg a) as [project|] eqn:E; [|by apply elem_of_nil in H].
    apply project_of_Some in E as [Hin <-]. by exists project.
Qed.

(** The ordering relationships that the selector is to make. *)
Definition linked (a b : string) : Prop :=
  ignoreDependencyOrder options = false
  ∧ projectDependsOn cfg a b
  ∧ (toProjects options = [] ∧ fromProjects options = []
     ∨ upstream cfg (toProjects options) a
     ∨ (downstream cfg (fromProjects options) a
        ∧ downstream cfg (fromProjects options) b)).

Lemma registerTasks_linked (fuel : nat) (c : t) :
  registerTasks win32 convertSlashesForWindows fuel options new = (Returned tt, c) →
  TaskOrderFacts.wf c ∧ ∀ a b, b ∈ dependencies_of c a ↔ linked a b.
Proof.
  unfold registerTasks, bind.
  destruct ((if bool_decide (toProjects options ≠ [])
             then _registerToProjects win32 convertSlashesForWindows fuel options
                    (toProjects options)
             else ret tt) new) as [[[]|?|] c1] eqn:E1; try done.
  destruct ((if bool_decide (fromProjects options ≠ [])
             then _registerFromProjects win32 convertSlashesForWindows fuel options
                    (fromProjects options)
             else ret tt) c1) as [[[]|?|] c2] eqn:E2; try done.
  intros E3.
  assert (∀ roots x, roots = [] → ¬ upstream cfg roots x) as Hup.
  { intros roots x -> (r & []%elem_of_nil & _). }
  assert (∀ roots x, roots = [] → ¬ downstream cfg roots x) as Hdown.
  { intros roots x -> (r & []%elem_of_nil & _). }
  assert (TaskOrderFacts.wf c1
          ∧ ∀ a b, b ∈ dependencies_of c1 a ↔
                   ignoreDependencyOrder options = false
                   ∧ upstream cfg (toProjects options) a ∧ projectDependsOn cfg a b)
    as [Hwf1 Hdeps1].
  { destruct (decide (toProjects options = [])) as [Hnil|Hto].
    - rewrite bool_decide_eq_false_2 in E1 by (by intros ?).
      injection E1 as <-. split; [apply TaskOrderFacts.wf_new|]. intros a b.
      unfold dependencies_of. simpl. rewrite elem_of_nil.
      specialize (Hup _ a Hnil). tauto.
    - rewrite bool_decide_eq_true_2 in E1 by done.
      apply registerToProjects_links in E1 as [Hwf1 Hdeps1];
        [|apply TaskOrderFacts.wf_new].
      split; [done|]. intros a b. rewrite Hdeps1. unfold dependencies_of. simpl.
      rewrite elem_of_nil. tauto. }
  assert (TaskOrderFacts.wf c2
          ∧ ∀ a b, b ∈ dependencies_of c2 a ↔
                   b ∈ dependencies_of c1 a
                   ∨ (ignoreDependencyOrder options = false
                      ∧ downstream cfg (fromProjects options) a
                      ∧ downstream cfg (fromProjects options) b
                      ∧ projectDependsOn cfg a b))
    as [Hwf2 Hdeps2].
  { destruct (decide (fromProjects options = [])) as [Hnil|Hfrom].
    - rewrite bool_decide_eq_false_2 in E2 by (by intros ?).
      injection E2 as <-. split; [done|]. intros a b.
      specialize (Hdown _ a Hnil). tauto.
    - rewrite bool_decide_eq_true_2 in E2 by done.
      by apply registerFromProjects_links in E2. }
  revert E3.
  destruct (decide (toProjects options = [])) as [Hto|Hto],
    (decide (fromProjects options = [])) as [Hfrom|Hfrom];
    rewrite ?(bool_decide_eq_true_2 _ Hto), ?(bool_decide_eq_true_2 _ Hfrom),
      ?(bool_decide_eq_false_2 _ Hto), ?(bool_decide_eq_false_2 _ Hfrom); simpl.
  - intros [Hwf3 Hdeps3]%registerAll_links; [|done]. split; [done|].
    intros a b. rewrite Hdeps3, Hdeps2, Hdeps1. unfold linked.
    pose proof (Hup _ a Hto). pose proof (Hdown _ a Hfrom). tauto.
  - intros [= <-]. split; [done|]. intros a b. rewrite Hdeps2, Hdeps1.
    unfold linked. pose proof (Hup _ a Hto). tauto.
  - intros [= <-]. split; [done|]. intros a b. rewrite Hdeps2, Hdeps1.
    unfold linked. pose proof (Hdown _ a Hfrom). tauto.
  - intros [= <-]. split; [done|]. intros a b. rewrite Hdeps2, Hdeps1.
    unfold linked. tauto.
Qed.

End LinkPhases.


Lemma selected_registered (options : ITaskSelectorConstructor) (p : string) :
  wf_selector options → selected options p →
  p ∈ packageNames (rushConfiguration options).
Proof.
  intros Hwf. unfold selected. destruct (decide _); [done|].
  intros [(r & Hr & Hrtc)|(r & Hr & Hrtc)].
  - apply (wf_toProjects _ Hwf) in Hr.
    induction Hrtc as [|x y z Hxy _ IH]; [done|].
    apply IH. by eapply (wf_localDependencies _ Hwf).
  - destruct (rtc_inv _ _ Hrtc) as [->|(y & Hy & _)].
    + by apply (wf_fromProjects _ Hwf).
    + unfold projectDependsOn, localDependencyProjects_of in Hy.
      destruct (project_of (rushConfiguration options) p) as [project|] eqn:E;
        [|by apply elem_of_nil in Hy].
      apply project_of_Some in E as [? <-]. by apply list_elem_of_fmap_2.
Qed.

(** X22: the ordering relationships of the collection that [registerTasks]
    returns: with [ignoreDependencyOrder] there is none; otherwise a task
    depends on another exactly when its project lists the other's among its
    local dependency projects and either both [toProjects] and
    [fromProjects] are empty, or the project is among the [toProjects] and
    what they depend on, or both projects are among the [fromProjects] and
    what depends on them.  A dependency of a project selected only through
    [fromProjects] on a project selected only through [toProjects] is not
    made. *)
Theorem registerTasks_links (win32 : bool) (convertSlashesForWindows : string → string)
    (options : ITaskSelectorConstructor) (fuel : nat) (c : t) :
  wf_selector options →
  registerTasks win32 convertSlashesForWindows fuel options new = (Returned tt, c) →
  ∀ a b,
    (b ∈ dependencies_of c a ↔ a ∈ dependents_of c b)
    ∧ (b ∈ dependencies_of c a ↔
       ignoreDependencyOrder options = false
       ∧ projectDependsOn (rushConfiguration options) a b
       ∧ (toProjects options = [] ∧ fromProjects options = []
          ∨ upstream (rushConfiguration options) (toProjects options) a
          ∨ (downstream (rushConfiguration options) (fromProjects options) a
             ∧ downstream (rushConfiguration options) (fromProjects options) b))).
Proof.
  intros Hwf Hrun a b.
  destruct (registerTasks_linked win32 convertSlashesForWindows options Hwf fuel c Hrun)
    as [Hc Hdeps].
  split; [apply Hc|apply Hdeps].
Qed.

Lemma registerTasks_links_witness :
  wf_selector sample_selector
  ∧ ∃ c, registerTasks false id 5 sample_selector new = (Returned tt, c)
    ∧ dependencies_of c "b" = ["a"%string]
    ∧ dependencies_of c "d" = []
    ∧ ∀ a b,
        (b ∈ dependencies_of c a ↔ a ∈ dependents_of c b)
        ∧ (b ∈ dependencies_of c a ↔
           ignoreDependencyOrder sample_selector = false
           ∧ projectDependsOn (rushConfiguration sample_selector) a b
           ∧ (toProjects sample_selector = [] ∧ fromProjects sample_selector = []
              ∨ upstream (rushConfiguration sample_selector)
                  (toProjects sample_selector) a
              ∨ (downstream (rushConfiguration sample_selector)
                   (fromProjects sample_selector) a
                 ∧ downstream (rushConfiguration sample_selector)
                     (fromProjects sample_selector) b))).
Proof.
  split; [exact wf_sample_selector|].
  eexists. split; [vm_compute; reflexivity|].
  split; [reflexivity|]. split; [reflexivity|].
  apply (registerTasks_links false id sample_selector 5 _ wf_sample_selector).
  vm_compute. reflexivity.
Defined.

(** X23: for a configuration without dependency cycles, [getOrderedTasks]
    on the collection that [registerTasks] returned returns: the list holds
    each selected project once and no other, and a task comes after every
    task it was made to depend on. *)
Theorem registered_tasks_are_ordered (win32 : bool)
    (convertSlashesForWindows : string → string)
    (options : ITaskSelectorConstructor) (fuel : nat) (c : t) :
  wf_selector options →
  (length (rushConfiguration options) < fuel)%nat →
  (∀ p, ¬ tc (projectDependsOn (rushConfiguration options)) p p) →
  registerTasks win32 convertSlashesForWindows fuel options new = (Returned tt, c) →
  ∃ l c',
    getOrderedTasks fuel c = (Returned l, c')
    ∧ NoDup (name <$> l)
    ∧ (∀ p, p ∈ name <$> l ↔ selected options p)
    ∧ ∀ a b, b ∈ dependencies_of c a →
        ∃ i j ta tb,
          l !! i = Some tb ∧ name tb = b ∧ l !! j = Some ta ∧ name ta = a
          ∧ (i < j)%nat.
Proof.
  intros Hwf Hfuel Hacyclic Hrun.
  destruct (registerTasks_linked win32 convertSlashesForWindows options Hwf fuel c Hrun)
    as [Hc Hdeps].
  pose proof (registerTasks_registers win32 convertSlashesForWindows options Hwf
                fuel new Hfuel) as Hreg.
  rewrite Hrun in Hreg. simpl in Hreg.
  assert (∀ p, p ∈ names c ↔ selected options p) as Hnames.
  { intros p. rewrite Hreg. split; [|by right]. by intros [?%elem_of_nil|?]. }
  assert (¬ TaskOrderFacts.cyclic c) as Hnocycle.
  { intros [n Hn]. apply (Hacyclic n). eapply TaskOrderFacts.tc_impl; [|exact Hn].
    intros a b Hab. apply Hdeps in Hab. apply Hab. }
  assert (length c < fuel)%nat as Hsize.
  { eapply Nat.le_lt_trans; [|exact Hfuel].
    rewrite <- (length_fmap name c), <- (length_fmap packageName (rushConfiguration options)).
    apply submseteq_length, NoDup_submseteq; [apply Hc|].
    intros p Hp. apply selected_registered; [done|]. by apply Hnames. }
  destruct (CollectionProperties.getOrderedTasks_returns c fuel Hc Hnocycle Hsize)
    as (l & c' & Hordered).
  exists l, c'. split; [done|].
  destruct (CollectionProperties.getOrderedTasks_returned _ _ _ _ Hc Hordered)
    as (Hl & Hnd & [Hsame _] & _).
  assert (name <$> l ≡ₚ names c) as Hperm.
  { rewrite Hl, <- Hsame. unfold names. apply fmap_Permutation.
    apply TaskOrderFacts.sortBy_Permutation. }
  split_and!.
  - rewrite Hperm. apply Hc.
  - intros p. by rewrite Hperm.
  - by eapply CollectionProperties.ordered_after.
Qed.

Lemma sample_configuration_acyclic :
  ∀ p, ¬ tc (projectDependsOn (rushConfiguration sample_selector)) p p.
Proof.
  set (rank := fun p : string =>
         if decide (p = "a"%string) then 0%nat
         else if decide (p = "b"%string) then 1%nat
         else if decide (p = "c"%string) then 2%nat else 3%nat).
  assert (∀ x y, projectDependsOn (rushConfiguration sample_selector) x y →
                 (rank y < rank x)%nat) as Hstep.
  { intros x y. unfold projectDependsOn, localDependencyProjects_of, project_of. simpl.
    repeat case_bool_decide; simpl; subst;
      rewrite ?elem_of_nil, ?list_elem_of_singleton; try done; intros ->;
      vm_compute; lia. }
  assert (∀ x y, tc (projectDependsOn (rushConfiguration sample_selector)) x y →
                 (rank y < rank x)%nat) as Htc.
  { induction 1 as [x y Hxy|x y z Hxy _ IH]; [by apply Hstep|].
    apply Hstep in Hxy. lia. }
  intros p Hp%Htc. lia.
Qed.

Lemma registered_tasks_are_ordered_witness :
  wf_selector sample_selector
  ∧ (length (rushConfiguration sample_selector) < 5)%nat
  ∧ (∀ p, ¬ tc (projectDependsOn (rushConfiguration sample_selector)) p p)
  ∧ ∃ c l c',
      registerTasks false id 5 sample_selector new = (Returned tt, c)
      ∧ getOrderedTasks 5 c = (Returned l, c')
      ∧ name <$> l = ["a"; "b"; "d"]%string
      ∧ NoDup (name <$> l)
      ∧ (∀ p, p ∈ name <$> l ↔ selected sample_selector p)
      ∧ ∀ a b, b ∈ dependencies_of c a →
          ∃ i j ta tb,
            l !! i = Some tb ∧ name tb = b ∧ l !! j = Some ta ∧ name ta = a
            ∧ (i < j)%nat.
Proof.
  assert (length (rushConfiguration sample_selector) < 5)%nat as Hfuel
    by (vm_compute; lia).
  split; [exact wf_sample_selector|]. split; [exact Hfuel|].
  split; [exact sample_configuration_acyclic|].
  eexists.
  destruct (registered_tasks_are_ordered false id sample_selector 5 _
              wf_sample_selector Hfuel sample_configuration_acyclic eq_refl)
    as (l & c' & Hrun & H).
  exists l, c'. split; [vm_compute; reflexivity|]. split; [exact Hrun|].
  split; [|exact H].
  vm_compute in Hrun. by injection Hrun as <- _.
Defined.


Lemma NoDup_getDependentGraph (cfg : RushConfiguration) (p : string) :
  NoDup (default [] (_getDependentGraph cfg !! p)).
Proof.
  unfold _getDependentGraph.
  assert (∀ (n : string) (deps : list string) (acc : gmap string (list string)),
            (∀ q, NoDup (default [] (acc !! q))) →
            ∀ q, NoDup (default [] (foldl (fun dependentList dependency =>
                    <[dependency := set_add n (default [] (dependentList !! dependency))]>
                      dependentList) acc deps !! q))) as Hinner.
  { intros n deps. induction deps as [|dep deps IH]; intros acc Hacc; [done|].
    simpl. apply IH. intros q. destruct (decide (q = dep)) as [->|Hne].
    - rewrite lookup_insert_eq. simpl. apply NoDup_set_add, Hacc.
    - rewrite lookup_insert_ne by done. apply Hacc. }
  assert (∀ (projects : list RushConfigurationProject) (acc : gmap string (list string)),
            (∀ q, NoDup (default [] (acc !! q))) →
            ∀ q, NoDup (default [] (foldl (fun dependentList project =>
                    foldl (fun dependentList dependency =>
                      <[dependency := set_add (packageName project)
                                        (default [] (dependentList !! dependency))]>
                        dependentList) dependentList (localDependencyProjects project))
                    acc projects !! q))) as Houter.
  { induction projects as [|x projects IH]; intros acc Hacc; [done|].
    simpl. apply IH. by apply Hinner. }
  apply Houter. intros q. rewrite lookup_empty. apply NoDup_nil_2.
Qed.

Lemma getDependentGraph_nonempty (cfg : RushConfiguration) (p : string)
    (l : list string) :
  _getDependentGraph cfg !! p = Some l → l ≠ [].
Proof.
  unfold _getDependentGraph.
  assert (∀ (n : string) (s : list string), set_add n s ≠ []) as Hadd.
  { intros n s. unfold set_add. destruct (decide (n ∈ s)) as [Hin|_].
    - intros ->. by apply elem_of_nil in Hin.
    - by destruct s. }
  assert (∀ (n : string) (deps : list string) (acc : gmap string (list string)),
            (∀ q l, acc !! q = Some l → l ≠ []) →
            ∀ q l, foldl (fun dependentList dependency =>
                    <[dependency := set_add n (default [] (dependentList !! dependency))]>
                      dependentList) acc deps !! q = Some l → l ≠ []) as Hinner.
  { intros n deps. induction deps as [|dep deps IH]; intros acc Hacc; [done|].
    simpl. apply IH. intros q l0. destruct (decide (q = dep)) as [->|Hne].
    - rewrite lookup_insert_eq. intros [= <-]. apply Hadd.
    - rewrite lookup_insert_ne by done. apply Hacc. }
  assert (∀ (projects : list RushConfigurationProject) (acc : gmap string (list string)),
            (∀ q l, acc !! q = Some l → l ≠ []) →
            ∀ q l, foldl (fun dependentList project =>
                    foldl (fun dependentList dependency =>
                      <[dependency := set_add (packageName project)
                                        (default [] (dependentList !! dependency))]>
                        dependentList) dependentList (localDependencyProjects project))
                    acc projects !! q = Some l → l ≠ []) as Houter.
  { induction projects as [|x projects IH]; intros acc Hacc; [done|].
    simpl. apply IH. by apply Hinner. }
  apply Houter. intros q l'. by rewrite lookup_empty.
Qed.

(** X24: [_getDependentGraph] inverts the local dependencies: the entry of
    a project holds, each once, the names of the projects of the
    configuration that list it among their local dependency projects, and a
    project that none lists has no entry. *)
Theorem getDependentGraph_inverts (cfg : RushConfiguration) (p : string) :
  (∀ d, d ∈ default [] (_getDependentGraph cfg !! p) ↔
        ∃ project, project ∈ cfg ∧ packageName project = d
                   ∧ p ∈ localDependencyProjects project)
  ∧ NoDup (default [] (_getDependentGraph cfg !! p))
  ∧ (_getDependentGraph cfg !! p = None ↔
     ∀ project, project ∈ cfg → p ∉ localDependencyProjects project).
Proof.
  split; [intros d; apply elem_of_getDependentGraph|].
  split; [apply NoDup_getDependentGraph|].
  split.
  - intros Hnone project Hin Hp.
    assert (packageName project ∈ default [] (_getDependentGraph cfg !! p)) as H.
    { apply elem_of_getDependentGraph. by exists project. }
    rewrite Hnone in H. by apply elem_of_nil in H.
  - intros Hnone. destruct (_getDependentGraph cfg !! p) as [l|] eqn:E; [|done].
    exfalso. destruct l as [|d l]; [by apply getDependentGraph_nonempty in E|].
    assert (d ∈ default [] (_getDependentGraph cfg !! p)) as Hd.
    { rewrite E. apply list_elem_of_here. }
    apply elem_of_getDependentGraph in Hd as (project & Hin & _ & Hp).
    by apply (Hnone project).
Qed.

End SelectorProperties.
